(** * cl/compile.go: declaration loading, name resolution and the
      compilation scheduler of the qlang front end.

    The Go code keeps its scopes, file contexts, function and type
    declarations behind pointers and mutates them in place.  The embedding
    keeps one arena (a list) per pointed-to struct; a pointer is an index
    into its arena, [None] is Go's nil, and every function of the source
    becomes a function on the session [state] that returns either a value,
    a panic, or (for the two loops that are not structurally bounded) the
    information that the given fuel ran out. *)

From stdpp Require Import gmap strings list.
From Stdlib Require Import ZArith Lia.

Local Open Scope Z_scope.
Local Open Scope string_scope.
Local Open Scope list_scope.
Local Open Scope nat_scope.

(** ** Outcomes *)

Inductive panic : Type :=
| NilDeref                 (* runtime error: nil pointer dereference *)
| BadPointer               (* an index outside its arena; Go pointers never dangle *)
| TypeAssertion            (* x.(T) on a value of another dynamic type *)
| IndexOutOfRange          (* runtime error: index out of range *)
| NotImpl                  (* panic("not impl") *)
| LogPanic (msg : string). (* log.Panicln(msg, ...) *)

Inductive res (A : Type) : Type :=
| Ok (a : A)
| Panic (e : panic)
| Diverge.

Arguments Ok {A} a.
Arguments Panic {A} e.
Arguments Diverge {A}.

#[global] Instance res_ret : MRet res := fun _ a => Ok a.
#[global] Instance res_bind : MBind res := fun _ _ k m =>
  match m with
  | Ok a => k a
  | Panic e => Panic e
  | Diverge => Diverge
  end.

(** [for _, x := range xs { body }] over a state. *)
Fixpoint foldlM {S X : Type} (body : X -> S -> res S) (xs : list X) (s : S) : res S :=
  match xs with
  | [] => Ok s
  | x :: xs' => s1 ← body x s; foldlM body xs' s1
  end.

(** [n] successive calls of the same operation. *)
Fixpoint iterM {S : Type} (n : nat) (body : S -> res S) (s : S) : res S :=
  match n with
  | 0 => Ok s
  | S k => s1 ← body s; iterM k body s1
  end.

(** The errors of the [var (...)] block. *)
Inductive error : Type :=
| ErrNotFound
| ErrMainFuncNotFound
| ErrSymbolNotVariable
| ErrSymbolNotFunc
| ErrSymbolNotType.

#[global] Instance error_eq_dec : EqDecision error.
Proof. solve_decision. Defined.

Abbreviation loc := nat.

(** [uint32(n)] for a non-negative [n]. *)
Definition uint32 (n : Z) : Z := (n mod 2 ^ 32)%Z.

Section Compile.

(** What the file takes from the packages it imports: the syntax tree
    ([ast]), [reflect.Type], and three library functions. *)
Context {rtype FuncType BlockStmt FieldList BasicLit TypeSpec ValueSpec : Type}.

(** [astutil.ToRecv] returns the receiver's name, type name and pointer flag. *)
Record recvInfo : Type := { recv_Name : string; recv_Type : string; recv_Pointer : bool }.

Context (ToRecv : FieldList -> recvInfo).
Context (ToString : BasicLit -> string).
Context (path_Base : string -> string).

(** Modelled from the spec: the body lowering ([funcDecl.compile] and
    [compileBlockStmt]) is not part of this file.  Section 4.3: lowering a
    body may itself call mark_used on further functions, discovered via
    calls inside that body.  [callees f] is the static call graph: the
    function symbols that the body of [f] calls, one entry per call site. *)
Context (callees : loc -> list loc).

(** ** Data model *)

(** [exec.Var] after [NewVar(typ, name)] and [SetAddr(depth, idx)]. *)
Record Var : Type := {
  var_typ : rtype;
  var_name : string;
  var_depth : Z;
  var_idx : Z
}.

(** Modelled from the spec: [funcDecl] is declared outside this file; the
    fields are those that the file reads ([used], [file], [body]) and the
    arguments of [newFuncDecl]. *)
Record funcDecl : Type := {
  fn_name : string;
  fn_typ : FuncType;
  fn_body : BlockStmt;
  fn_file : loc;
  used : bool
}.

(** The composite literal of [loadFunc]. *)
Record methodDecl : Type := {
  recv : string;
  pointer : bool;
  m_typ : FuncType;
  m_body : BlockStmt;
  m_file : loc
}.

(** Modelled from the spec: [typeDecl] is declared outside this file; the
    fields are the two that [insertMethod] uses.  [Methods = None] is the
    nil map. *)
Record typeDecl : Type := {
  Alias : bool;
  Methods : option (gmap string methodDecl)
}.

(** [iSymbol = interface{}] with the dynamic types listed in the source:
    [*exec.Var], [string] (a package path), [*funcDecl], [*typeDecl]. *)
Inductive iSymbol : Type :=
| SymVar (v : Var)
| SymPkg (pkgPath : string)
| SymFunc (f : loc)
| SymType (t : loc).

Record blockCtx : Type := {
  file : option loc;
  parent : option loc;
  vlist : list Var;
  syms : gmap string iSymbol
}.

Record fileCtx : Type := {
  fc_block : loc;                 (* the embedded *blockCtx *)
  imports : gmap string string
}.

(** One compilation session: the fields of [pkgCtx] that the file uses
    ([out.NestDepth], [usedfns]), the trace of the [f.compile()] calls made
    so far (which bodies were lowered, in order), and the arenas.  All
    scopes of a session share one [*pkgCtx], so it is kept once. *)
Record state : Type := {
  NestDepth : Z;
  usedfns : list loc;
  compiled : list loc;
  blocks : list blockCtx;
  files : list fileCtx;
  funcs : list funcDecl;
  types : list typeDecl
}.

Definition deref {A : Type} (arena : list A) (p : loc) : res A :=
  match arena !! p with
  | Some x => Ok x
  | None => Panic BadPointer
  end.

(** [xs[i]] on a slice. *)
Definition index {A : Type} (xs : list A) (i : nat) : res A :=
  match xs !! i with
  | Some x => Ok x
  | None => Panic IndexOutOfRange
  end.

Definition set_used (b : bool) (fd : funcDecl) : funcDecl :=
  {| fn_name := fn_name fd; fn_typ := fn_typ fd; fn_body := fn_body fd;
     fn_file := fn_file fd; used := b |}.

Definition set_usedfns (l : list loc) (s : state) : state :=
  {| NestDepth := NestDepth s; usedfns := l; compiled := compiled s;
     blocks := blocks s; files := files s; funcs := funcs s; types := types s |}.

Definition set_compiled (l : list loc) (s : state) : state :=
  {| NestDepth := NestDepth s; usedfns := usedfns s; compiled := l;
     blocks := blocks s; files := files s; funcs := funcs s; types := types s |}.

Definition set_funcs (l : list funcDecl) (s : state) : state :=
  {| NestDepth := NestDepth s; usedfns := usedfns s; compiled := compiled s;
     blocks := blocks s; files := files s; funcs := l; types := types s |}.

(** ** The compilation scheduler *)

(** [func (p *pkgCtx) use(f *funcDecl)] *)
Definition use (f : loc) (s : state) : res state :=
  fd ← deref (funcs s) f;
  if used fd then Ok s
  else
    let s1 := set_usedfns (usedfns s ++ [f]) s in
    Ok (set_funcs (<[f := set_used true fd]> (funcs s1)) s1).

(** Modelled from the spec: [f.compile()], absent from this file, marks
    every callee of [f] used; the call is recorded in [compiled]. *)
Definition compile (f : loc) (s : state) : res state :=
  s1 ← foldlM use (callees f) s;
  Ok (set_compiled (compiled s1 ++ [f]) s1).

(** [func (p *pkgCtx) resolveFuncs()]: one unit of fuel per iteration of
    the [for] loop. *)
Fixpoint resolveFuncs_loop (fuel : nat) (s : state) : res state :=
  match fuel with
  | 0 => Diverge
  | S fuel' =>
      let n := length (usedfns s) in
      if decide (n = 0) then Ok s
      else
        f ← index (usedfns s) (n - 1);
        let s1 := set_usedfns (take (n - 1) (usedfns s)) s in
        s2 ← compile f s1;
        resolveFuncs_loop fuel' s2
  end.

(** A bound on the iterations of the loop: an iteration pops one entry, and
    every entry it pushes turns one [used] flag from false to true. *)
Definition unused_weight (fd : funcDecl) : nat := if used fd then 0 else 2.

Definition sched_measure (s : state) : nat :=
  sum_list (unused_weight <$> funcs s) + length (usedfns s).

Definition resolveFuncs (s : state) : res state :=
  resolveFuncs_loop (S (sched_measure s)) s.

(** ** Scopes *)

Definition set_blocks (l : list blockCtx) (s : state) : state :=
  {| NestDepth := NestDepth s; usedfns := usedfns s; compiled := compiled s;
     blocks := l; files := files s; funcs := funcs s; types := types s |}.

Definition set_files (l : list fileCtx) (s : state) : state :=
  {| NestDepth := NestDepth s; usedfns := usedfns s; compiled := compiled s;
     blocks := blocks s; files := l; funcs := funcs s; types := types s |}.

Definition set_types (l : list typeDecl) (s : state) : state :=
  {| NestDepth := NestDepth s; usedfns := usedfns s; compiled := compiled s;
     blocks := blocks s; files := files s; funcs := funcs s; types := l |}.

Definition set_file (f : option loc) (b : blockCtx) : blockCtx :=
  {| file := f; parent := parent b; vlist := vlist b; syms := syms b |}.

Definition set_syms (m : gmap string iSymbol) (b : blockCtx) : blockCtx :=
  {| file := file b; parent := parent b; vlist := vlist b; syms := m |}.

Definition set_vlist (l : list Var) (b : blockCtx) : blockCtx :=
  {| file := file b; parent := parent b; vlist := l; syms := syms b |}.

Definition set_imports (m : gmap string string) (fc : fileCtx) : fileCtx :=
  {| fc_block := fc_block fc; imports := m |}.

Definition set_Methods (m : option (gmap string methodDecl)) (td : typeDecl) : typeDecl :=
  {| Alias := Alias td; Methods := m |}.

(** [func newFileCtx(block *blockCtx) *fileCtx] *)
Definition newFileCtx (block : loc) (s : state) : loc * state :=
  (length (files s),
   set_files (files s ++ [{| fc_block := block; imports := ∅ |}]) s).

(** [func newBlockCtx(file *fileCtx) *blockCtx]; [file.pkgCtx] reads
    through the embedded [*blockCtx]. *)
Definition newBlockCtx (file : loc) (s : state) : res (loc * state) :=
  fc ← deref (files s) file;
  _ ← deref (blocks s) (fc_block fc);
  Ok (length (blocks s),
      set_blocks (blocks s ++ [{| file := Some file; parent := Some (fc_block fc);
                                  vlist := []; syms := ∅ |}]) s).

(** [func newGblBlockCtx(pkg *pkgCtx, parent *blockCtx) *blockCtx] *)
Definition newGblBlockCtx (parent : option loc) (s : state) : loc * state :=
  (length (blocks s),
   set_blocks (blocks s ++ [{| file := None; parent := parent;
                               vlist := []; syms := ∅ |}]) s).

(** [p.file.imports] for a [p.file] that may be nil. *)
Definition file_imports (f : option loc) (s : state) : res (gmap string string) :=
  match f with
  | None => Panic NilDeref
  | Some fp => fc ← deref (files s) fp; Ok (imports fc)
  end.

(** [func (p *blockCtx) exists(name string) (ok bool)] *)
Definition exists_ (p : loc) (name : string) (s : state) : res bool :=
  b ← deref (blocks s) p;
  match syms b !! name with
  | Some _ => Ok true
  | None =>
      match parent b with
      | None =>
          im ← file_imports (file b) s;
          Ok (bool_decide (is_Some (im !! name)))
      | Some _ => Ok false
      end
  end.

(** The [for ; p != nil; p = p.parent] loop of [find]: [Some sym] when the
    loop returns from inside, [None] when it runs off the chain. *)
Fixpoint find_loop (fuel : nat) (p : option loc) (name : string) (s : state)
  : res (option iSymbol) :=
  match p with
  | None => Ok None
  | Some q =>
      match fuel with
      | 0 => Diverge
      | S fuel' =>
          b ← deref (blocks s) q;
          match syms b !! name with
          | Some sym => Ok (Some sym)
          | None => find_loop fuel' (parent b) name s
          end
      end
  end.

(** [func (p *blockCtx) find(name string) (sym interface{}, ok bool)];
    [Some sym] stands for [(sym, true)] and [None] for [ok = false].  A
    walk that has visited more scopes than there are without reaching nil
    is inside a cycle of [parent] pointers and never leaves it. *)
Definition find (p : loc) (name : string) (s : state) : res (option iSymbol) :=
  r ← find_loop (S (length (blocks s))) (Some p) name s;
  match r with
  | Some sym => Ok (Some sym)
  | None =>
      ctx ← deref (blocks s) p;
      im ← file_imports (file ctx) s;
      Ok (SymPkg <$> im !! name)
  end.

(** The typed lookups return [(decl, err)]: [inr decl] is [(decl, nil)] and
    [inl err] is [(nil, err)]. *)

(** [func (p *blockCtx) findType(name string) (decl *typeDecl, err error)] *)
Definition findType (p : loc) (name : string) (s : state) : res (error + loc) :=
  v ← find p name s;
  match v with
  | None => Ok (inl ErrNotFound)
  | Some (SymType decl) => Ok (inr decl)
  | Some _ => Ok (inl ErrSymbolNotType)
  end.

(** [func (p *blockCtx) findFunc(name string) (addr *funcDecl, err error)] *)
Definition findFunc (p : loc) (name : string) (s : state) : res (error + loc) :=
  v ← find p name s;
  match v with
  | None => Ok (inl ErrNotFound)
  | Some (SymFunc addr) => Ok (inr addr)
  | Some _ => Ok (inl ErrSymbolNotFunc)
  end.

(** [func (p *blockCtx) findVar(name string) (addr *exec.Var, err error)] *)
Definition findVar (p : loc) (name : string) (s : state) : res (error + Var) :=
  v ← find p name s;
  match v with
  | None => Ok (inl ErrNotFound)
  | Some (SymVar addr) => Ok (inr addr)
  | Some _ => Ok (inl ErrSymbolNotVariable)
  end.

(** [func (p *blockCtx) insertVar(name string, typ reflect.Type) *exec.Var] *)
Definition insertVar (p : loc) (name : string) (typ : rtype) (s : state)
  : res (Var * state) :=
  ex ← exists_ p name s;
  if (ex : bool) then Panic (LogPanic "insertVar failed: symbol exists -")
  else
    b ← deref (blocks s) p;
    let idx := uint32 (Z.of_nat (length (vlist b))) in
    let v := {| var_typ := typ; var_name := name;
                var_depth := NestDepth s; var_idx := idx |} in
    let b1 := set_syms (<[name := SymVar v]> (syms b)) b in
    let b2 := set_vlist (vlist b1 ++ [v]) b1 in
    Ok (v, set_blocks (<[p := b2]> (blocks s)) s).

(** [func (p *blockCtx) insertFunc(name string, fun *funcDecl)] *)
Definition insertFunc (p : loc) (name : string) (fn : loc) (s : state) : res state :=
  ex ← exists_ p name s;
  if (ex : bool) then Panic (LogPanic "insertFunc failed: symbol exists -")
  else
    b ← deref (blocks s) p;
    Ok (set_blocks (<[p := set_syms (<[name := SymFunc fn]> (syms b)) b]> (blocks s)) s).

(** [func (p *blockCtx) insertMethod(typeName, methodName string, method *methodDecl)] *)
Definition insertMethod (p : loc) (typeName methodName : string) (method : methodDecl)
    (s : state) : res state :=
  b ← deref (blocks s) p;
  match parent b with
  | Some _ =>
      Panic (LogPanic "insertMethod failed: unexpected - non global method declaration?")
  | None =>
      r ← findType p typeName s;
      '(typ, s1) ←
        match r with
        | inl ErrNotFound =>
            let typ := length (types s) in
            let s1 := set_types (types s ++ [{| Alias := false; Methods := None |}]) s in
            Ok (typ, set_blocks
                       (<[p := set_syms (<[typeName := SymType typ]> (syms b)) b]> (blocks s1)) s1)
        | inl _ => Panic (LogPanic "insertMethod failed:")
        | inr typ =>
            td ← deref (types s) typ;
            if Alias td then Panic (LogPanic "insertMethod failed: alias?")
            else Ok (typ, s)
        end;
      td ← deref (types s1) typ;
      match Methods td with
      | None =>
          Ok (set_types (<[typ := set_Methods (Some {[methodName := method]}) td]> (types s1)) s1)
      | Some ms =>
          match ms !! methodName with
          | Some _ => Panic (LogPanic "insertMethod failed: method exists -")
          | None =>
              Ok (set_types
                    (<[typ := set_Methods (Some (<[methodName := method]> ms)) td]> (types s1)) s1)
          end
      end
  end.

(** ** The syntax tree, as far as the loader inspects it *)

Record ImportSpec : Type := {
  is_Name : option string;        (* spec.Name, nil when the import is unaliased *)
  is_Path : BasicLit
}.

Inductive Spec : Type :=
| SpecImport (spec : ImportSpec)
| SpecType (spec : TypeSpec)
| SpecValue (spec : ValueSpec).

Inductive Token : Type := IMPORT | TYPE | CONST | VAR | OtherToken.

Record FuncDecl : Type := {
  fd_Recv : option FieldList;
  fd_Name : string;
  fd_Type : FuncType;
  fd_Body : BlockStmt
}.

Record GenDecl : Type := {
  gd_Tok : Token;
  gd_Specs : list Spec
}.

Inductive Decl : Type :=
| DeclFunc (d : FuncDecl)
| DeclGen (d : GenDecl)
| DeclOther.

Record File : Type := { Decls : list Decl }.

(** [ast.Package]; [Files] lists the files in the order in which the
    [range] loop of [NewPackage] visits them. *)
Record astPackage : Type := {
  pkg_Name : string;
  pkg_Files : list File
}.

(** ** The declaration loader *)

(** Modelled from the spec: [newFuncDecl(name, typ, body, ctx)] is declared
    outside this file; a function is created when loaded, with its name,
    signature, body and originating file context, and not yet used. *)
Definition newFuncDecl (name : string) (typ : FuncType) (body : BlockStmt) (ctx : loc)
    (s : state) : loc * state :=
  (length (funcs s),
   set_funcs (funcs s ++ [{| fn_name := name; fn_typ := typ; fn_body := body;
                             fn_file := ctx; used := false |}]) s).

(** [func loadImport(ctx *fileCtx, spec *ast.ImportSpec)] *)
Definition loadImport (ctx : loc) (spec : ImportSpec) (s : state) : res state :=
  let pkgPath := ToString (is_Path spec) in
  name ←
    match is_Name spec with
    | Some name =>
        if decide (name = "_" ∨ name = ".") then Panic NotImpl else Ok name
    | None => Ok (path_Base pkgPath)
    end;
  fc ← deref (files s) ctx;
  Ok (set_files (<[ctx := set_imports (<[name := pkgPath]> (imports fc)) fc]> (files s)) s).

(** [func loadImports(ctx *fileCtx, d *ast.GenDecl)] *)
Definition loadImports (ctx : loc) (d : GenDecl) (s : state) : res state :=
  foldlM (fun item s =>
            match item with
            | SpecImport spec => loadImport ctx spec s
            | _ => Panic TypeAssertion
            end) (gd_Specs d) s.

(** [func loadTypes(d *ast.GenDecl)]; [loadType] has an empty body. *)
Definition loadTypes (d : GenDecl) (s : state) : res state :=
  foldlM (fun item s =>
            match item with
            | SpecType _ => Ok s
            | _ => Panic TypeAssertion
            end) (gd_Specs d) s.

(** [func loadConsts(d *ast.GenDecl)] has an empty body. *)
Definition loadConsts (d : GenDecl) (s : state) : res state := Ok s.

(** [func loadVars(d *ast.GenDecl)]; [loadVar] has an empty body. *)
Definition loadVars (d : GenDecl) (s : state) : res state :=
  foldlM (fun item s =>
            match item with
            | SpecValue _ => Ok s
            | _ => Panic TypeAssertion
            end) (gd_Specs d) s.

(** [func loadFunc(ctx *fileCtx, d *ast.FuncDecl)]; the methods of
    [*blockCtx] called on [ctx] run on the embedded block. *)
Definition loadFunc (ctx : loc) (d : FuncDecl) (s : state) : res state :=
  let name := fd_Name d in
  fc ← deref (files s) ctx;
  match fd_Recv d with
  | Some r =>
      let recv := ToRecv r in
      insertMethod (fc_block fc) (recv_Type recv) name
        {| recv := recv_Name recv; pointer := recv_Pointer recv;
           m_typ := fd_Type d; m_body := fd_Body d; m_file := ctx |} s
  | None =>
      if decide (name = "init") then Panic (LogPanic "loadFunc TODO: init")
      else
        let '(fn, s1) := newFuncDecl name (fd_Type d) (fd_Body d) ctx s in
        insertFunc (fc_block fc) name fn s1
  end.

(** The body of the [range f.Decls] loop of [loadFile]. *)
Definition loadDecl (ctx : loc) (decl : Decl) (s : state) : res state :=
  match decl with
  | DeclFunc d => loadFunc ctx d s
  | DeclGen d =>
      match gd_Tok d with
      | IMPORT => loadImports ctx d s
      | TYPE => loadTypes d s
      | CONST => loadConsts d s
      | VAR => loadVars d s
      | OtherToken => Panic (LogPanic "tok:")
      end
  | DeclOther => Panic (LogPanic "gopkg.Package.load: unknown decl -")
  end.

(** [func loadFile(block *blockCtx, f *ast.File)] *)
Definition loadFile (block : loc) (f : File) (s : state) : res state :=
  let '(ctx, s1) := newFileCtx block s in
  b ← deref (blocks s1) block;
  let s2 := set_blocks (<[block := set_file (Some ctx) b]> (blocks s1)) s1 in
  foldlM (loadDecl ctx) (Decls f) s2.

(** ** The package assembler *)

(** [Package]; [pk_syms = None] is the nil map of the zero value. *)
Record Package : Type := {
  pk_vlist : list Var;
  pk_syms : option (gmap string iSymbol)
}.

(** [&Package{}] *)
Definition emptyPackage : Package := {| pk_vlist := []; pk_syms := None |}.

(** The session before [NewPackage] has allocated anything; [depth] is the
    [NestDepth] of the builder it is given. *)
Definition init_state (depth : Z) : state :=
  {| NestDepth := depth; usedfns := []; compiled := [];
     blocks := []; files := []; funcs := []; types := [] |}.

(** Modelled from the spec: [compileBlockStmt(ctx, entry.body)], absent
    from this file, lowers the body of the entry point: it marks used the
    functions that this body calls. *)
Definition compileBlockStmt (entry : loc) (s : state) : res state :=
  foldlM use (callees entry) s.

(** [func NewPackage(out *exec.Builder, pkg *ast.Package) (p *Package, err error)],
    together with the session it leaves behind. *)
Definition NewPackage_session (depth : Z) (pkg : astPackage)
  : res (Package * option error * state) :=
  let p := emptyPackage in
  let '(ctx, s0) := newGblBlockCtx None (init_state depth) in
  s1 ← foldlM (loadFile ctx) (pkg_Files pkg) s0;
  if decide (pkg_Name pkg = "main") then
    r ← findFunc ctx "main" s1;
    match r with
    | inl err =>
        let err' := if decide (err = ErrNotFound) then ErrMainFuncNotFound else err in
        Ok (p, Some err', s1)
    | inr entry =>
        fd ← deref (funcs s1) entry;
        b ← deref (blocks s1) ctx;
        let s2 := set_blocks (<[ctx := set_file (Some (fn_file fd)) b]> (blocks s1)) s1 in
        s3 ← compileBlockStmt entry s2;
        s4 ← resolveFuncs s3;
        b4 ← deref (blocks s4) ctx;
        Ok ({| pk_vlist := vlist b4; pk_syms := Some (syms b4) |}, None, s4)
    end
  else
    b ← deref (blocks s1) ctx;
    Ok ({| pk_vlist := vlist b; pk_syms := Some (syms b) |}, None, s1).

Definition NewPackage (depth : Z) (pkg : astPackage) : res (Package * option error) :=
  r ← NewPackage_session depth pkg; Ok (fst r).

(** [func (p *Package) GetGlobalVars() []*exec.Var] *)
Definition GetGlobalVars (p : Package) : list Var := pk_vlist p.

(** ** Vocabulary of the statements *)

(** The [used] flag of the function symbol [f] is set. *)
Definition is_used (s : state) (f : loc) : Prop :=
  ∃ fd, funcs s !! f = Some fd ∧ used fd = true.

(** A scheduler that has not been asked anything yet. *)
Definition fresh_sched (s : state) : Prop :=
  usedfns s = [] ∧ compiled s = [] ∧
  ∀ f fd, funcs s !! f = Some fd → used fd = false.

(** The static call graph is finite: the calls of every function symbol of
    the session go to function symbols of the session. *)
Definition call_graph_closed (s : state) : Prop :=
  ∀ f g, f < length (funcs s) → g ∈ callees f → g < length (funcs s).

(** How many times [f.compile()] has run. *)
Definition times_compiled (s : state) (f : loc) : nat :=
  count_occ Nat.eq_dec (compiled s) f.

(** The scopes met from [p] outward along [parent], innermost first, ending
    with the scope that has no parent. *)
Inductive scope_chain (s : state) : loc → list blockCtx → Prop :=
| chain_global p b :
    blocks s !! p = Some b → parent b = None → scope_chain s p [b]
| chain_nested p b q bs :
    blocks s !! p = Some b → parent b = Some q → scope_chain s q bs →
    scope_chain s p (b :: bs).

Definition unbound (name : string) (b : blockCtx) : Prop := syms b !! name = None.

(** The first binding of [name] along a chain. *)
Fixpoint first_binding (name : string) (bs : list blockCtx) : option iSymbol :=
  match bs with
  | [] => None
  | b :: bs' =>
      match syms b !! name with
      | Some sym => Some sym
      | None => first_binding name bs'
      end
  end.

(** The local name that [loadImport] gives to an import. *)
Definition import_name (spec : ImportSpec) : string :=
  match is_Name spec with
  | Some name => name
  | None => path_Base (ToString (is_Path spec))
  end.

(** The (name, path) pairs of the import declarations of a file, in source
    order. *)
Definition decl_imports (d : Decl) : list (string * string) :=
  match d with
  | DeclGen g =>
      match gd_Tok g with
      | IMPORT =>
          omap (fun item =>
                  match item with
                  | SpecImport spec => Some (import_name spec, ToString (is_Path spec))
                  | _ => None
                  end) (gd_Specs g)
      | _ => []
      end
  | _ => []
  end.

Definition file_import_list (f : File) : list (string * string) :=
  concat (decl_imports <$> Decls f).

Definition import_table (f : File) : gmap string string :=
  foldl (fun m kv => <[kv.1 := kv.2]> m) ∅ (file_import_list f).

(** The operations that change a session: the functions of this file, and
    the emission backend entering or leaving a nesting level. *)
Inductive op : Type :=
| OpUse (f : loc)
| OpCompile (f : loc)
| OpResolveFuncs
| OpNewFileCtx (block : loc)
| OpNewBlockCtx (file : loc)
| OpNewGblBlockCtx (parent : option loc)
| OpNewFuncDecl (name : string) (typ : FuncType) (body : BlockStmt) (ctx : loc)
| OpInsertVar (p : loc) (name : string) (typ : rtype)
| OpInsertFunc (p : loc) (name : string) (fn : loc)
| OpInsertMethod (p : loc) (typeName methodName : string) (method : methodDecl)
| OpLoadFile (block : loc) (f : File)
| OpSetFile (p : loc) (f : loc)
| OpSetNestDepth (d : Z).

Definition run_op (o : op) (s : state) : res state :=
  match o with
  | OpUse f => use f s
  | OpCompile f => compile f s
  | OpResolveFuncs => resolveFuncs s
  | OpNewFileCtx block => Ok (newFileCtx block s).2
  | OpNewBlockCtx file => r ← newBlockCtx file s; Ok r.2
  | OpNewGblBlockCtx parent => Ok (newGblBlockCtx parent s).2
  | OpNewFuncDecl name typ body ctx => Ok (newFuncDecl name typ body ctx s).2
  | OpInsertVar p name typ => r ← insertVar p name typ s; Ok r.2
  | OpInsertFunc p name fn => insertFunc p name fn s
  | OpInsertMethod p typeName methodName method =>
      insertMethod p typeName methodName method s
  | OpLoadFile block f => loadFile block f s
  | OpSetFile p f =>
      b ← deref (blocks s) p;
      Ok (set_blocks (<[p := set_file (Some f) b]> (blocks s)) s)
  | OpSetNestDepth d =>
      Ok {| NestDepth := d; usedfns := usedfns s; compiled := compiled s;
            blocks := blocks s; files := files s; funcs := funcs s; types := types s |}
  end.

(** [declares p s l s']: the session goes from [s] to [s'] by successful
    operations, among which the successful [insertVar] calls on the scope
    [p] returned, in this order, the variables of [l]; each one is paired
    with the nesting depth of the backend at the time of its call. *)
Inductive declares (p : loc) : state → list (Var * Z) → state → Prop :=
| declares_none s : declares p s [] s
| declares_var s l s1 name typ v s2 :
    declares p s l s1 →
    insertVar p name typ s1 = Ok (v, s2) →
    declares p s (l ++ [(v, NestDepth s1)]) s2
| declares_other s l s1 o s2 :
    declares p s l s1 →
    (∀ name typ, o ≠ OpInsertVar p name typ) →
    run_op o s1 = Ok s2 →
    declares p s l s2.

(** The session after the [range pkg.Files] loop of [NewPackage]; the
    package scope is the first scope allocated, at address 0. *)
Definition load_package (depth : Z) (pkg : astPackage) : res state :=
  foldlM (loadFile 0) (pkg_Files pkg) (newGblBlockCtx None (init_state depth)).2.

(** ** Vocabulary of the proofs *)

(** [pending] holds the function whose body is being lowered: it has left
    the worklist and its [compile] call is not yet recorded. *)
Definition sched_inv (pending : list loc) (s : state) : Prop :=
  NoDup (pending ++ usedfns s ++ compiled s) ∧
  ∀ f, is_used s f ↔ f ∈ pending ++ usedfns s ++ compiled s.

(** Every used function was marked directly ([direct]) or is called by a
    body that has been or is being lowered. *)
Definition justified (direct pending : list loc) (s : state) : Prop :=
  ∀ f, is_used s f →
       f ∈ direct ∨ ∃ g, g ∈ pending ++ compiled s ∧ f ∈ callees g.

(** The callees of every lowered body are marked. *)
Definition callees_marked (s : state) : Prop :=
  ∀ g f, g ∈ compiled s → f ∈ callees g → is_used s f.

(** The placeholder that [insertMethod] creates for an unknown type name. *)
Definition with_placeholder (p : loc) (b : blockCtx) (typeName : string) (s : state) : state :=
  let s1 := set_types (types s ++ [{| Alias := false; Methods := None |}]) s in
  set_blocks (<[p := set_syms (<[typeName := SymType (length (types s))]> (syms b)) b]>
                (blocks s1)) s1.

(** The method table after the insertion of [mn]. *)
Definition add_method (mn : string) (m : methodDecl) (td : typeDecl) : typeDecl :=
  set_Methods (Some (match Methods td with
                     | None => {[mn := m]}
                     | Some ms => <[mn := m]> ms
                     end)) td.

Definition has_method (mn : string) (td : typeDecl) : Prop :=
  ∃ ms m, Methods td = Some ms ∧ ms !! mn = Some m.

(** The scope [p] keeps its parent and its variable list, and every binding
    of its symbol map. *)
Definition block_kept (p : loc) (s s' : state) : Prop :=
  ∀ b, blocks s !! p = Some b →
       ∃ b', blocks s' !! p = Some b' ∧ parent b' = parent b ∧
             vlist b' = vlist b ∧ syms b ⊆ syms b'.

(** The scope [p] keeps its [file] pointer. *)
Definition file_kept (p : loc) (s s' : state) : Prop :=
  ∀ b, blocks s !! p = Some b → ∃ b', blocks s' !! p = Some b' ∧ file b' = file b.

Definition bind_import (m : gmap string string) (kv : string * string) : gmap string string :=
  <[kv.1 := kv.2]> m.

(** The file context [ctx] is the last one allocated; [m] is its import
    table. *)
Definition current_file (files0 : list fileCtx) (g : loc) (m : gmap string string)
    (s : state) : Prop :=
  files s = files0 ++ [{| fc_block := g; imports := m |}].

(** The scope [g] binds [name] to the function symbol [fn], declared in
    the file context [ctx]. *)
Definition func_bound (g : loc) (name : string) (fn ctx : loc) (s : state) : Prop :=
  ∃ b fdecl, blocks s !! g = Some b ∧ syms b !! name = Some (SymFunc fn) ∧
             funcs s !! fn = Some fdecl ∧ fn_file fdecl = ctx ∧ fn_name fdecl = name.

(** The scheduler state is as before, up to new function symbols, none of
    them used. *)
Definition sched_untouched (s s' : state) : Prop :=
  usedfns s' = usedfns s ∧ compiled s' = compiled s ∧
  ∃ extra, funcs s' = funcs s ++ extra ∧ Forall (fun fd => used fd = false) extra.

(** The function symbols bound in the scopes are allocated. *)
Definition syms_bound (s : state) : Prop :=
  ∀ p b name fn, blocks s !! p = Some b → syms b !! name = Some (SymFunc fn) →
                 fn < length (funcs s).

(** ** Vocabulary of the further properties *)

(** The functions of [fs] in the order in which they are first met,
    leaving out those of [seen]. *)
Fixpoint mark_order (seen fs : list loc) : list loc :=
  match fs with
  | [] => []
  | f :: fs' =>
      if decide (f ∈ seen) then mark_order seen fs'
      else f :: mark_order (f :: seen) fs'
  end.

(** The name is free for a declaration in the scope [b]: the scope does not
    bind it and, for the scope without parent, neither does the import
    table of its file. *)
Definition can_declare (s : state) (b : blockCtx) (name : string) : Prop :=
  syms b !! name = None ∧
  match parent b with
  | Some _ => True
  | None => ∃ fp fc, file b = Some fp ∧ files s !! fp = Some fc ∧
                     imports fc !! name = None
  end.

(** A successful declaration of [name] in the scope [p], as the symbol
    [sym]. *)
Definition declared (p : loc) (name : string) (sym : iSymbol) (s s' : state) : Prop :=
  (∃ typ v, sym = SymVar v ∧ insertVar p name typ s = Ok (v, s')) ∨
  (∃ fn, sym = SymFunc fn ∧ insertFunc p name fn s = Ok s').

(** The name that a declaration gives to a function of the package: a
    function declaration without receiver. *)
Definition decl_func_name (d : Decl) : option string :=
  match d with
  | DeclFunc fd =>
      match fd_Recv fd with
      | None => Some (fd_Name fd)
      | Some _ => None
      end
  | _ => None
  end.

(** The receiver type name, method name and method (the composite literal
    of [loadFunc]) of a function declaration with receiver, loaded through
    the file context [ctx]. *)
Definition decl_method (ctx : loc) (d : Decl) : option (string * string * methodDecl) :=
  match d with
  | DeclFunc fd =>
      match fd_Recv fd with
      | Some r =>
          let recv := ToRecv r in
          Some (recv_Type recv, fd_Name fd,
                {| recv := recv_Name recv; pointer := recv_Pointer recv;
                   m_typ := fd_Type fd; m_body := fd_Body fd; m_file := ctx |})
      | None => None
      end
  | _ => None
  end.

Definition file_func_names (f : File) : list string := omap decl_func_name (Decls f).

Definition file_methods (ctx : loc) (f : File) : list (string * string * methodDecl) :=
  omap (decl_method ctx) (Decls f).

(** The functions and the methods of a list of files, in source order; the
    files are loaded through the file contexts [k], [k + 1], ... *)
Fixpoint files_func_names (fs : list File) : list string :=
  match fs with
  | [] => []
  | f :: fs' => file_func_names f ++ files_func_names fs'
  end.

Fixpoint files_methods (k : nat) (fs : list File) : list (string * string * methodDecl) :=
  match fs with
  | [] => []
  | f :: fs' => file_methods k f ++ files_methods (S k) fs'
  end.

(** The type [ty] of the session has the method [mn], bound to [m]. *)
Definition method_of (s : state) (ty : loc) (mn : string) (m : methodDecl) : Prop :=
  ∃ td ms, types s !! ty = Some td ∧ Alias td = false ∧
           Methods td = Some ms ∧ ms !! mn = Some m.

(** The package scope (address 0) holds the functions [F] and the methods
    [M], and nothing else. *)
Definition loaded (F : list string) (M : list (string * string * methodDecl))
    (s : state) : Prop :=
  ∃ b, blocks s !! 0 = Some b ∧ parent b = None ∧ vlist b = [] ∧
       (∀ n, n ∈ F → ∃ fn, syms b !! n = Some (SymFunc fn)) ∧
       (∀ tn mn m, (tn, mn, m) ∈ M →
                   ∃ ty, syms b !! tn = Some (SymType ty) ∧ method_of s ty mn m) ∧
       (∀ n sym, syms b !! n = Some sym →
                 (n ∈ F ∧ ∃ fn, sym = SymFunc fn) ∨
                 (n ∈ M.*1.*1 ∧ ∃ ty, sym = SymType ty)) ∧
       NoDup F ∧ NoDup M.*1 ∧ (∀ n, n ∈ F → n ∉ M.*1.*1).

(** What the loader takes without a panic: a spec of the kind of its
    declaration (an import neither blank nor dot), a declaration that is a
    function (no top-level [init]) or an import, type, const or var
    declaration. *)
Definition spec_accepted (tok : Token) (item : Spec) : Prop :=
  match tok, item with
  | IMPORT, SpecImport spec => is_Name spec ≠ Some "_" ∧ is_Name spec ≠ Some "."
  | TYPE, SpecType _ => True
  | VAR, SpecValue _ => True
  | CONST, _ => True
  | _, _ => False
  end.

Definition decl_accepted (d : Decl) : Prop :=
  match d with
  | DeclFunc fd => fd_Recv fd = None → fd_Name fd ≠ "init"
  | DeclGen g => gd_Tok g ≠ OtherToken ∧ Forall (spec_accepted (gd_Tok g)) (gd_Specs g)
  | DeclOther => False
  end.

(** Every scope was allocated after its parent. *)
Definition parents_below (s : state) : Prop :=
  ∀ p b q, blocks s !! p = Some b → parent b = Some q → q < p.

(** The scopes stay in place, each with its parent. *)
Definition parents_kept (s s' : state) : Prop :=
  length (blocks s') = length (blocks s) ∧
  ∀ p b b', blocks s !! p = Some b → blocks s' !! p = Some b' → parent b' = parent b.

(** The sessions that the operations of the file build from the empty one;
    a parent handed to [newGblBlockCtx] is a scope of the session. *)
Inductive built : state → Prop :=
| built_init depth : built (init_state depth)
| built_op s o s' :
    built s →
    (∀ q, o = OpNewGblBlockCtx (Some q) → q < length (blocks s)) →
    run_op o s = Ok s' →
    built s'.

End Compile.

(** * Concrete sessions, for the witnesses *)

Module Demo.

(** The syntax tree carries nothing beyond what the loader reads; a
    receiver is given by the triple that [astutil.ToRecv] extracts from it,
    a path literal by its text.  The import paths used below have a single
    segment, for which [path.Base] returns the path itself. *)
Definition ToRecv (r : recvInfo) : recvInfo := r.
Definition ToString (lit : string) : string := lit.
Definition path_Base (p : string) : string := p.

(** Two mutually recursive functions: [f] (symbol 0) calls [g] (symbol 1)
    twice, [g] calls [f]; a third function (symbol 2) is called by nobody. *)
Definition callees (f : loc) : list loc :=
  match f with
  | 0 => [1; 1]
  | 1 => [0]
  | _ => []
  end.

Definition fn (name : string) : @funcDecl unit unit :=
  {| fn_name := name; fn_typ := tt; fn_body := tt; fn_file := 0; used := false |}.

Definition sched0 : @state unit unit unit :=
  {| NestDepth := 0; usedfns := []; compiled := [];
     blocks := []; files := []; funcs := [fn "f"; fn "g"; fn "h"]; types := [] |}.

(** A syntax tree: declarations and files. *)
Abbreviation Decl := (@Decl unit unit recvInfo string unit unit).
Abbreviation File := (@File unit unit recvInfo string unit unit).
Abbreviation astPackage := (@astPackage unit unit recvInfo string unit unit).

Definition func (name : string) : Decl :=
  DeclFunc {| fd_Recv := None; fd_Name := name; fd_Type := tt; fd_Body := tt |}.

Definition method (typeName name : string) : Decl :=
  DeclFunc {| fd_Recv := Some {| recv_Name := "x"; recv_Type := typeName;
                                 recv_Pointer := false |};
              fd_Name := name; fd_Type := tt; fd_Body := tt |}.

Definition import (path : string) : Decl :=
  DeclGen {| gd_Tok := IMPORT;
             gd_Specs := [SpecImport {| is_Name := None; is_Path := path |}] |}.

(** [import "fmt"; func f()] and [func g()]. *)
Definition fileA : File := {| Decls := [import "fmt"; func "f"] |}.
Definition fileB : File := {| Decls := [func "g"] |}.

(** The session of [NewPackage] right after the package scope (address 0)
    has been created. *)
Definition session0 : @state unit unit unit := (newGblBlockCtx None (init_state 0)).2.

Definition loadFile := (@loadFile unit unit unit recvInfo string unit unit
                          ToRecv ToString path_Base).
Definition NewPackage := (@NewPackage unit unit unit recvInfo string unit unit
                            ToRecv ToString path_Base callees).
Definition load_package := (@load_package unit unit unit recvInfo string unit unit
                              ToRecv ToString path_Base).

(** An executable package that declares [f] and no [main]. *)
Definition pkg_no_main : astPackage :=
  {| pkg_Name := "main"; pkg_Files := [fileA] |}.

(** An executable package in which [main] is only the name of an import. *)
Definition pkg_import_main : astPackage :=
  {| pkg_Name := "main"; pkg_Files := [{| Decls := [import "main"] |}] |}.

(** An executable package whose [main] calls [g] (the call graph is
    [callees]: [main] is symbol 0, [g] symbol 1, [h] symbol 2). *)
Definition pkg_main : astPackage :=
  {| pkg_Name := "main"; pkg_Files := [{| Decls := [func "main"; func "g"] |};
                                       {| Decls := [func "h"] |}] |}.

(** The result of an operation that is known to succeed. *)
Definition after (r : res (@state unit unit unit)) : @state unit unit unit :=
  match r with
  | Ok s => s
  | _ => session0
  end.

(** The session after [fileA] has been loaded, and after [fileB] has been
    loaded next. *)
Definition sA : @state unit unit unit := after (loadFile 0 fileA session0).
Definition sAB : @state unit unit unit := after (loadFile 0 fileB sA).

(** The session after the files of [pkg_import_main] have been loaded. *)
Definition s_import_main : @state unit unit unit := after (load_package 0 pkg_import_main).

(** Three nested scopes: the package scope binds [x] and [y] to functions,
    a function scope declares a variable [x], and a block inside it
    declares nothing.  Their file imports [fmt]. *)
Definition vx : @Var unit :=
  {| var_typ := tt; var_name := "x"; var_depth := 1%Z; var_idx := 0%Z |}.

Definition b_global : @blockCtx unit :=
  {| file := Some 0; parent := None; vlist := [];
     syms := <["x" := SymFunc 0]> (<["y" := SymFunc 1]> ∅) |}.

Definition b_func : @blockCtx unit :=
  {| file := Some 0; parent := Some 0; vlist := [vx];
     syms := <["x" := SymVar vx]> ∅ |}.

Definition b_inner : @blockCtx unit :=
  {| file := Some 0; parent := Some 1; vlist := []; syms := ∅ |}.

Definition scopes : @state unit unit unit :=
  {| NestDepth := 2%Z; usedfns := []; compiled := [];
     blocks := [b_global; b_func; b_inner];
     files := [{| fc_block := 0; imports := <["fmt" := "fmt"]> ∅ |}];
     funcs := [fn "x"; fn "y"]; types := [] |}.

(** A method [m] with receiver [x T]. *)
Definition method_m : @methodDecl unit unit :=
  {| recv := "x"; pointer := false; m_typ := tt; m_body := tt; m_file := 0 |}.

(** Two variables, as [insertVar] returns them in the package scope of
    [sA] at depths 0 and 3. *)
Definition va : @Var unit :=
  {| var_typ := tt; var_name := "a"; var_depth := 0%Z; var_idx := 0%Z |}.
Definition vb : @Var unit :=
  {| var_typ := tt; var_name := "b"; var_depth := 3%Z; var_idx := 1%Z |}.

Abbreviation declares :=
  (@declares unit unit unit recvInfo string unit unit ToRecv ToString path_Base callees).
Abbreviation run_op :=
  (@run_op unit unit unit recvInfo string unit unit ToRecv ToString path_Base callees).

(** An executable package whose only declaration is [var main]: the loader
    of variable declarations is a stub. *)
Definition pkg_var_main : astPackage :=
  {| pkg_Name := "main";
     pkg_Files := [{| Decls := [DeclGen {| gd_Tok := VAR; gd_Specs := [SpecValue tt] |}] |}] |}.

(** An executable package in which [main] is the receiver type of a method. *)
Definition pkg_type_main : astPackage :=
  {| pkg_Name := "main"; pkg_Files := [{| Decls := [method "main" "m"] |}] |}.

(** A library package: [fileA], and a file that declares [g] and two
    methods of a type [T]. *)
Definition fileC : File := {| Decls := [func "g"; method "T" "m"; method "T" "n"] |}.

Definition pkg_lib : astPackage := {| pkg_Name := "lib"; pkg_Files := [fileA; fileC] |}.

Definition s_lib : @state unit unit unit := after (load_package 0 pkg_lib).

(** A file that imports two packages under the name [fmt]. *)
Definition import_as (name path : string) : Decl :=
  DeclGen {| gd_Tok := IMPORT;
             gd_Specs := [SpecImport {| is_Name := Some name; is_Path := path |}] |}.

Definition fileDup : File := {| Decls := [import "fmt"; import_as "fmt" "other"] |}.

Definition sDup : @state unit unit unit := after (loadFile 0 fileDup session0).

(** [sched0] after [f] and then [g] have been marked. *)
Definition sched_marked : @state unit unit unit := after (foldlM use [0; 1] sched0).

(** [sAB] with a block scope opened for [fileB]. *)
Definition s_nested : @state unit unit unit := after (run_op (OpNewBlockCtx 1) sAB).

(** [sA] after [k] has been declared as a function in the package scope,
    and after the method [m] of [T] has been registered. *)
Definition sA_k : @state unit unit unit := after (insertFunc 0 "k" 0 sA).
Definition sA_m : @state unit unit unit := after (insertMethod 0 "T" "m" method_m sA).

Abbreviation built :=
  (@built unit unit unit recvInfo string unit unit ToRecv ToString path_Base callees).

End Demo.

(** * Properties *)

Section Properties.

Context {rtype FuncType BlockStmt FieldList BasicLit TypeSpec ValueSpec : Type}.
Context (ToRecv : FieldList -> recvInfo).
Context (ToString : BasicLit -> string).
Context (path_Base : string -> string).
Context (callees : loc -> list loc).

Abbreviation state := (@state rtype FuncType BlockStmt).
Abbreviation funcDecl := (@funcDecl FuncType BlockStmt).
Abbreviation blockCtx := (@blockCtx rtype).
Abbreviation Var := (@Var rtype).
Abbreviation iSymbol := (@iSymbol rtype).
Abbreviation methodDecl := (@methodDecl FuncType BlockStmt).
Abbreviation typeDecl := (@typeDecl FuncType BlockStmt).
Abbreviation ImportSpec := (@ImportSpec BasicLit).
Abbreviation Spec := (@Spec BasicLit TypeSpec ValueSpec).
Abbreviation FuncDecl := (@FuncDecl FuncType BlockStmt FieldList).
Abbreviation GenDecl := (@GenDecl BasicLit TypeSpec ValueSpec).
Abbreviation Decl := (@Decl FuncType BlockStmt FieldList BasicLit TypeSpec ValueSpec).
Abbreviation File := (@File FuncType BlockStmt FieldList BasicLit TypeSpec ValueSpec).
Abbreviation astPackage := (@astPackage FuncType BlockStmt FieldList BasicLit TypeSpec ValueSpec).
Abbreviation Package := (@Package rtype).
Abbreviation op := (@op rtype FuncType BlockStmt FieldList BasicLit TypeSpec ValueSpec).
Abbreviation import_name := (@import_name BasicLit ToString path_Base).
Abbreviation decl_imports :=
  (@decl_imports FuncType BlockStmt FieldList BasicLit TypeSpec ValueSpec ToString path_Base).
Abbreviation file_import_list :=
  (@file_import_list FuncType BlockStmt FieldList BasicLit TypeSpec ValueSpec
     ToString path_Base).
Abbreviation import_table :=
  (@import_table FuncType BlockStmt FieldList BasicLit TypeSpec ValueSpec ToString path_Base).
Abbreviation justified := (@justified rtype FuncType BlockStmt callees).
Abbreviation callees_marked := (@callees_marked rtype FuncType BlockStmt callees).
Abbreviation declares :=
  (@declares rtype FuncType BlockStmt FieldList BasicLit TypeSpec ValueSpec
     ToRecv ToString path_Base callees).

(** ** The outcome monad *)

Lemma bind_Ok {A B : Type} (m : res A) (k : A → res B) (b : B) :
  (m ≫= k) = Ok b ↔ ∃ a, m = Ok a ∧ k a = Ok b.
Proof.
  destruct m as [a| |]; simpl; split.
  - intros H. by exists a.
  - by intros (a' & [= <-] & H).
  - discriminate.
  - by intros (a' & [=] & _).
  - discriminate.
  - by intros (a' & [=] & _).
Qed.

Lemma deref_Ok {A : Type} (arena : list A) (p : loc) (x : A) :
  deref arena p = Ok x ↔ arena !! p = Some x.
Proof. unfold deref. destruct (arena !! p); split; congruence. Qed.

Lemma deref_valid {A : Type} (arena : list A) (p : loc) :
  p < length arena → ∃ x, deref arena p = Ok x ∧ arena !! p = Some x.
Proof.
  intros Hp. destruct (lookup_lt_is_Some_2 arena p Hp) as [x Hx].
  exists x. split; [by apply deref_Ok | done].
Qed.

Ltac inv_bind H :=
  repeat match type of H with
  | (_ ≫= _) = Ok _ =>
      let a := fresh "a" in
      let Ha := fresh "Ha" in
      apply bind_Ok in H as (a & Ha & H)
  end.

Lemma foldlM_app {S X : Type} (body : X → S → res S) (xs ys : list X) (s : S) :
  foldlM body (xs ++ ys) s = (foldlM body xs s ≫= foldlM body ys).
Proof.
  revert s. induction xs as [|x xs IH]; intros s; simpl; [done|].
  destruct (body x s) as [s1| |]; simpl; [apply IH|done|done].
Qed.

(** An invariant of the body is an invariant of the loop. *)
Lemma foldlM_invariant {S X : Type} (I : S → Prop) (body : X → S → res S) (xs : list X) :
  (∀ x s s', x ∈ xs → I s → body x s = Ok s' → I s') →
  ∀ s s', I s → foldlM body xs s = Ok s' → I s'.
Proof.
  induction xs as [|x xs IH]; intros Hbody s s' HI H; simpl in H.
  - by injection H as <-.
  - apply bind_Ok in H as (s1 & H1 & H).
    eapply IH; [| |exact H].
    + intros y t t' Hy. apply Hbody. by right.
    + eapply Hbody; [by left|exact HI|exact H1].
Qed.

(** ** The scheduler: [use] *)

Lemma use_cases (f : loc) (s s' : state) :
  use f s = Ok s' →
  (is_used s f ∧ s' = s) ∨
  (∃ fd, funcs s !! f = Some fd ∧ used fd = false ∧
         s' = set_funcs (<[f := set_used true fd]> (funcs s))
                (set_usedfns (usedfns s ++ [f]) s)).
Proof.
  unfold use. intros H. apply bind_Ok in H as (fd & Hfd & H).
  apply deref_Ok in Hfd. destruct (used fd) eqn:Hu.
  - left. injection H as <-. split; [by exists fd|done].
  - right. exists fd. injection H as <-. done.
Qed.

Lemma use_defined (f : loc) (s : state) :
  f < length (funcs s) → ∃ s', use f s = Ok s'.
Proof.
  intros Hf. destruct (deref_valid _ _ Hf) as (fd & Hd & _).
  unfold use. rewrite Hd. simpl. destruct (used fd); eauto.
Qed.

Lemma use_unused (f : loc) (fd : funcDecl) (s : state) :
  funcs s !! f = Some fd → used fd = false →
  use f s = Ok (set_funcs (<[f := set_used true fd]> (funcs s))
                  (set_usedfns (usedfns s ++ [f]) s)).
Proof.
  intros Hf Hu. unfold use. apply deref_Ok in Hf. rewrite Hf. simpl. by rewrite Hu.
Qed.

Lemma use_used (f : loc) (s : state) : is_used s f → use f s = Ok s.
Proof.
  intros (fd & Hf & Hu). unfold use. apply deref_Ok in Hf. rewrite Hf. simpl.
  by rewrite Hu.
Qed.

Lemma is_used_insert (s : state) (f g : loc) (fd : funcDecl) (l : list loc) :
  funcs s !! f = Some fd →
  is_used (set_funcs (<[f := set_used true fd]> (funcs s)) (set_usedfns l s)) g
  ↔ is_used s g ∨ g = f.
Proof.
  intros Hf. unfold is_used. simpl. split.
  - intros (gd & Hg & Hu). destruct (decide (g = f)) as [->|Hne]; [by right|].
    left. rewrite list_lookup_insert_ne in Hg by done. by exists gd.
  - intros [(gd & Hg & Hu)| ->].
    + destruct (decide (g = f)) as [->|Hne].
      * exists (set_used true fd). split; [|done].
        apply list_lookup_insert_eq. by eapply lookup_lt_Some.
      * exists gd. by rewrite list_lookup_insert_ne.
    + exists (set_used true fd). split; [|done].
      apply list_lookup_insert_eq. by eapply lookup_lt_Some.
Qed.

Lemma use_length_funcs (f : loc) (s s' : state) :
  use f s = Ok s' → length (funcs s') = length (funcs s).
Proof.
  intros H. apply use_cases in H as [[_ ->]|(fd & _ & _ & ->)]; [done|].
  simpl. by rewrite length_insert.
Qed.

Lemma use_compiled (f : loc) (s s' : state) :
  use f s = Ok s' → compiled s' = compiled s.
Proof. intros H. by apply use_cases in H as [[_ ->]|(fd & _ & _ & ->)]. Qed.

Lemma use_is_used (f : loc) (s s' : state) : use f s = Ok s' → is_used s' f.
Proof.
  intros H. apply use_cases in H as [[Hu ->]|(fd & Hf & _ & ->)]; [done|].
  apply is_used_insert; auto.
Qed.

Lemma use_mono (f g : loc) (s s' : state) :
  use f s = Ok s' → is_used s g → is_used s' g.
Proof.
  intros H Hg. apply use_cases in H as [[_ ->]|(fd & Hf & _ & ->)]; [done|].
  apply is_used_insert; auto.
Qed.

(** ** The scheduler: termination of [resolveFuncs] *)

Lemma sum_weight_insert (l : list funcDecl) (i : nat) (fd : funcDecl) :
  l !! i = Some fd → used fd = false →
  sum_list (unused_weight <$> <[i := set_used true fd]> l) + 2
  = sum_list (unused_weight <$> l).
Proof.
  revert i. induction l as [|x l IH]; intros i Hi Hu; [done|].
  destruct i as [|i]; simpl in Hi.
  - injection Hi as ->. simpl. unfold unused_weight at 2. rewrite Hu. lia.
  - specialize (IH i Hi Hu). simpl in *. unfold fmap in *. lia.
Qed.

Lemma use_measure (f : loc) (s s' : state) :
  use f s = Ok s' → sched_measure s' ≤ sched_measure s.
Proof.
  intros H. apply use_cases in H as [[_ ->]|(fd & Hf & Hu & ->)]; [done|].
  unfold sched_measure. simpl. rewrite length_app. simpl.
  pose proof (sum_weight_insert _ _ _ Hf Hu). lia.
Qed.

Lemma foldlM_use_measure (fs : list loc) (s s' : state) :
  foldlM use fs s = Ok s' → sched_measure s' ≤ sched_measure s.
Proof.
  revert s. induction fs as [|f fs IH]; intros s H; simpl in H.
  - by injection H as <-.
  - apply bind_Ok in H as (s1 & H1 & H). apply use_measure in H1.
    apply IH in H. lia.
Qed.

Lemma compile_measure (f : loc) (s s' : state) :
  compile callees f s = Ok s' → sched_measure s' ≤ sched_measure s.
Proof.
  unfold compile. intros H. apply bind_Ok in H as (s1 & H1 & H).
  injection H as <-. apply foldlM_use_measure in H1. done.
Qed.

Lemma pop_measure (s : state) :
  length (usedfns s) ≠ 0 →
  S (sched_measure (set_usedfns (take (length (usedfns s) - 1) (usedfns s)) s))
  = sched_measure s.
Proof.
  intros Hn. unfold sched_measure. simpl. rewrite length_take.
  generalize (sum_list (unused_weight <$> funcs s)). intros w.
  rewrite Nat.min_l by lia. lia.
Qed.

(** With more fuel than the measure the loop does not run out of fuel. *)
Lemma resolveFuncs_loop_fuel (fuel : nat) (s : state) :
  sched_measure s < fuel → resolveFuncs_loop callees fuel s ≠ Diverge.
Proof.
  revert s. induction fuel as [|fuel IH]; intros s Hm; [lia|].
  simpl. case_decide as Hn; [done|].
  destruct (index (usedfns s) (length (usedfns s) - 1)) as [f| |] eqn:Hf; simpl;
    [|done|].
  - destruct (compile callees f _) as [s2| |] eqn:Hc; simpl; [|done|].
    + apply IH. apply compile_measure in Hc.
      pose proof (pop_measure s Hn). lia.
    + exfalso. unfold compile in Hc.
      destruct (foldlM use (callees f) _) as [s1| |] eqn:Hfold; simpl in Hc; try done.
      clear -Hfold. revert Hfold. generalize (set_usedfns (take (length (usedfns s) - 1) (usedfns s)) s).
      induction (callees f) as [|g gs IHg]; intros s0 H; simpl in H; [done|].
      destruct (use g s0) as [s1| |] eqn:Hu; simpl in H; [by eapply IHg|done|].
      unfold use in Hu. destruct (deref (funcs s0) g) as [fd| |] eqn:Hd; simpl in Hu.
      * by destruct (used fd).
      * done.
      * unfold deref in Hd. by destruct (funcs s0 !! g).
  - unfold index in Hf. by destruct (usedfns s !! _).
Qed.

(** Fuel beyond what the loop needs changes nothing. *)
Lemma resolveFuncs_loop_more (fuel fuel' : nat) (s : state) :
  resolveFuncs_loop callees fuel s ≠ Diverge → fuel ≤ fuel' →
  resolveFuncs_loop callees fuel' s = resolveFuncs_loop callees fuel s.
Proof.
  revert fuel' s. induction fuel as [|fuel IH]; intros fuel' s Hd Hle; [done|].
  destruct fuel' as [|fuel']; [lia|].
  simpl in *. case_decide; [done|].
  destruct (index _ _) as [f| |]; simpl in *; [|done|done].
  destruct (compile callees f _) as [s2| |]; simpl in *; [|done|done].
  apply IH; [done|lia].
Qed.

Lemma resolveFuncs_total (s : state) : resolveFuncs callees s ≠ Diverge.
Proof. apply resolveFuncs_loop_fuel. lia. Qed.

Lemma resolveFuncs_any_fuel (fuel : nat) (s : state) :
  sched_measure s < fuel →
  resolveFuncs_loop callees fuel s = resolveFuncs callees s.
Proof.
  intros Hm. unfold resolveFuncs. destruct (decide (fuel ≤ S (sched_measure s))).
  - symmetry. apply resolveFuncs_loop_more; [|done]. by apply resolveFuncs_loop_fuel.
  - apply resolveFuncs_loop_more; [apply resolveFuncs_loop_fuel|]; lia.
Qed.

(** ** The scheduler: every marked function is lowered once *)

Lemma fresh_sched_inv (s : state) : fresh_sched s → sched_inv [] s.
Proof.
  intros (Hu & Hc & Hf). unfold sched_inv. rewrite Hu, Hc. simpl. split.
  - constructor.
  - intros f. split; [|by intros ?%elem_of_nil].
    intros (fd & Hfd & Hused). rewrite (Hf _ _ Hfd) in Hused. done.
Qed.

Lemma use_sched_inv (pending : list loc) (f : loc) (s s' : state) :
  sched_inv pending s → use f s = Ok s' → sched_inv pending s'.
Proof.
  intros [Hnd Hiff] H.
  apply use_cases in H as [[_ ->]|(fd & Hf & Hu & ->)]; [done|].
  assert (Hnot : f ∉ pending ++ usedfns s ++ compiled s).
  { intros Hin. apply Hiff in Hin as (fd' & Hf' & Hu'). congruence. }
  assert (Hperm : pending ++ (usedfns s ++ [f]) ++ compiled s
                  ≡ₚ f :: pending ++ usedfns s ++ compiled s).
  { rewrite <- (assoc_L (++) (usedfns s) [f] (compiled s)). simpl.
    rewrite !(assoc_L (++) pending (usedfns s)). symmetry. apply Permutation_middle. }
  split; simpl.
  - rewrite Hperm. by constructor.
  - intros g. rewrite is_used_insert by done. rewrite Hperm, elem_of_cons, Hiff.
    tauto.
Qed.

Lemma foldlM_use_sched_inv (pending fs : list loc) (s s' : state) :
  sched_inv pending s → foldlM use fs s = Ok s' → sched_inv pending s'.
Proof.
  apply (foldlM_invariant (sched_inv pending)).
  intros f t t' _. apply use_sched_inv.
Qed.

Lemma foldlM_use_mono (fs : list loc) (g : loc) (s s' : state) :
  is_used s g → foldlM use fs s = Ok s' → is_used s' g.
Proof.
  apply (foldlM_invariant (fun s => is_used s g)).
  intros f t t' _ Hg Hu. by eapply use_mono.
Qed.

Lemma foldlM_use_compiled (fs : list loc) (s s' : state) :
  foldlM use fs s = Ok s' → compiled s' = compiled s.
Proof.
  intros H.
  apply (foldlM_invariant (fun t => compiled t = compiled s) use fs) with (s := s) (s' := s');
    [|done|done].
  intros f t t' _ Ht Hu. apply use_compiled in Hu. congruence.
Qed.

Lemma foldlM_use_length_funcs (fs : list loc) (s s' : state) :
  foldlM use fs s = Ok s' → length (funcs s') = length (funcs s).
Proof.
  intros H.
  apply (foldlM_invariant (fun t => length (funcs t) = length (funcs s)) use fs)
    with (s := s) (s' := s'); [|done|done].
  intros f t t' _ Ht Hu. apply use_length_funcs in Hu. congruence.
Qed.

Lemma foldlM_use_marks (fs : list loc) (s s' : state) :
  foldlM use fs s = Ok s' → ∀ f, f ∈ fs → is_used s' f.
Proof.
  revert s. induction fs as [|g fs IH]; intros s H f Hf; [by apply elem_of_nil in Hf|].
  simpl in H. apply bind_Ok in H as (s1 & H1 & H).
  apply elem_of_cons in Hf as [->|Hf].
  - eapply foldlM_use_mono; [|exact H]. by eapply use_is_used.
  - by eapply IH.
Qed.

Lemma foldlM_use_defined (fs : list loc) (s : state) :
  (∀ f, f ∈ fs → f < length (funcs s)) → ∃ s', foldlM use fs s = Ok s'.
Proof.
  revert s. induction fs as [|g fs IH]; intros s Hv; simpl; [by eexists|].
  destruct (use_defined g s) as [s1 H1]; [apply Hv; by left|].
  rewrite H1. simpl. apply IH. intros f Hf.
  rewrite (use_length_funcs _ _ _ H1). apply Hv. by right.
Qed.

(** A use made while [g], a member of [pending], is being lowered. *)
Lemma use_justified (direct pending : list loc) (g f : loc) (s s' : state) :
  g ∈ pending → f ∈ callees g →
  justified direct pending s → use f s = Ok s' → justified direct pending s'.
Proof.
  intros Hg Hfg Hj H h Hh.
  apply use_cases in H as [[_ ->]|(fd & Hf & Hu & ->)]; [by apply Hj|].
  apply (proj1 (is_used_insert s f h fd _ Hf)) in Hh as [Hh| ->].
  - by apply Hj.
  - right. exists g. split; [|done]. simpl. apply elem_of_app. by left.
Qed.

(** A use made by the caller of the scheduler. *)
Lemma use_justified_direct (direct : list loc) (f : loc) (s s' : state) :
  f ∈ direct → justified direct [] s → use f s = Ok s' → justified direct [] s'.
Proof.
  intros Hd Hj H h Hh.
  apply use_cases in H as [[_ ->]|(fd & Hf & Hu & ->)]; [by apply Hj|].
  apply (proj1 (is_used_insert s f h fd _ Hf)) in Hh as [Hh| ->]; [by apply Hj|by left].
Qed.

Lemma last_split (l : list loc) :
  length l ≠ 0 →
  ∃ f, index l (length l - 1) = Ok f ∧ l = take (length l - 1) l ++ [f].
Proof.
  intros Hn. destruct (lookup_lt_is_Some_2 l (length l - 1)) as [f Hf]; [lia|].
  exists f. unfold index. rewrite Hf. split; [done|].
  rewrite <- (take_drop (length l - 1) l) at 1. f_equal.
  rewrite (drop_S _ _ _ Hf). replace (S (length l - 1)) with (length l) by lia.
  by rewrite drop_all.
Qed.

(** One [f.compile()] call on a function just popped off the worklist. *)
Lemma compile_step (direct : list loc) (f : loc) (s : state) :
  call_graph_closed callees s →
  sched_inv [f] s → justified direct [f] s → callees_marked s →
  ∃ s', compile callees f s = Ok s' ∧
        sched_inv [] s' ∧ justified direct [] s' ∧ callees_marked s' ∧
        length (funcs s') = length (funcs s) ∧
        (∀ g, is_used s g → is_used s' g).
Proof.
  intros Hclosed Hinv Hj Hm.
  assert (Hf : f < length (funcs s)).
  { destruct Hinv as [_ Hiff]. destruct (proj2 (Hiff f)) as (fd & Hfd & _).
    - apply elem_of_app. left. by apply list_elem_of_singleton.
    - by eapply lookup_lt_Some. }
  destruct (foldlM_use_defined (callees f) s) as [s1 H1].
  { intros g Hg. by eapply Hclosed. }
  exists (set_compiled (compiled s1 ++ [f]) s1).
  unfold compile. rewrite H1. simpl. split; [done|].
  pose proof (foldlM_use_sched_inv _ _ _ _ Hinv H1) as [Hnd1 Hiff1].
  pose proof (foldlM_use_compiled _ _ _ H1) as Hc1.
  assert (Hperm : usedfns s1 ++ compiled s1 ++ [f] ≡ₚ [f] ++ usedfns s1 ++ compiled s1).
  { rewrite (assoc_L (++)). apply Permutation_app_comm. }
  repeat split.
  - simpl. by rewrite Hperm.
  - intros Hu. simpl. rewrite Hperm. by apply Hiff1.
  - simpl. rewrite Hperm. intros Hin. by apply Hiff1.
  - intros h Hh. simpl.
    assert (Hj1 : justified direct [f] s1).
    { revert Hj H1. apply (foldlM_invariant (justified direct [f])).
      intros g t t' Hg. apply (use_justified direct [f] f g); [|done].
      by apply list_elem_of_singleton. }
    destruct (Hj1 h Hh) as [Hd|(g & Hg & Hhg)]; [by left|].
    right. exists g. split; [|done].
    apply elem_of_app in Hg as [Hg|Hg]; apply elem_of_app; [right|left]; done.
  - intros g h Hg Hh. simpl in Hg.
    change (is_used s1 h).
    apply elem_of_app in Hg as [Hg|Hg].
    + eapply foldlM_use_mono; [|exact H1]. eapply Hm; [|exact Hh]. congruence.
    + apply list_elem_of_singleton in Hg as ->. by eapply foldlM_use_marks.
  - simpl. by eapply foldlM_use_length_funcs.
  - intros g Hg. change (is_used s1 g). by eapply foldlM_use_mono.
Qed.

Lemma resolveFuncs_loop_spec (direct : list loc) (fuel : nat) (s : state) :
  sched_measure s < fuel →
  call_graph_closed callees s →
  sched_inv [] s → justified direct [] s → callees_marked s →
  ∃ s', resolveFuncs_loop callees fuel s = Ok s' ∧ usedfns s' = [] ∧
        sched_inv [] s' ∧ justified direct [] s' ∧ callees_marked s' ∧
        (∀ g, is_used s g → is_used s' g).
Proof.
  revert s. induction fuel as [|fuel IH]; intros s Hfuel Hclosed Hinv Hj Hm; [lia|].
  simpl. case_decide as Hn.
  - exists s. apply length_zero_iff_nil in Hn. done.
  - destruct (last_split _ Hn) as (f & Hidx & Hsplit). rewrite Hidx. simpl.
    set (s1 := set_usedfns (take (length (usedfns s) - 1) (usedfns s)) s).
    assert (Hinv1 : sched_inv [f] s1).
    { destruct Hinv as [Hnd Hiff]. simpl in Hnd, Hiff.
      assert (Hperm : [f] ++ take (length (usedfns s) - 1) (usedfns s) ++ compiled s
                      ≡ₚ usedfns s ++ compiled s).
      { rewrite Hsplit at 3. rewrite <- (assoc_L (++)). simpl.
        apply Permutation_middle. }
      split; simpl usedfns; simpl compiled.
      - by rewrite Hperm.
      - intros g. rewrite Hperm. apply Hiff. }
    assert (Hj1 : justified direct [f] s1).
    { intros g Hg. destruct (Hj g Hg) as [Hd|(h & Hh & Hgh)]; [by left|].
      right. exists h. split; [|done]. apply elem_of_app. by right. }
    destruct (compile_step direct f s1 Hclosed Hinv1 Hj1 Hm)
      as (s2 & Hc & Hinv2 & Hj2 & Hm2 & Hlen & Hmono).
    rewrite Hc. simpl.
    destruct (IH s2) as (s' & Hloop & Hrest); try done.
    + apply compile_measure in Hc. pose proof (pop_measure s Hn). fold s1 in H. lia.
    + intros g h Hg. rewrite Hlen in *. by apply Hclosed.
    + exists s'. split; [done|]. destruct Hrest as (? & ? & ? & ? & Hmono').
      split_and!; [done..|]. intros g Hg. apply Hmono', Hmono. done.
Qed.

Lemma NoDup_count_one (l : list loc) (f : loc) :
  NoDup l → f ∈ l → count_occ Nat.eq_dec l f = 1.
Proof.
  intros Hnd Hf. apply NoDup_ListNoDup in Hnd.
  apply (proj1 (List.NoDup_count_occ' Nat.eq_dec l) Hnd). by apply list_elem_of_In.
Qed.

(** ** Shapes of the results of the scope operations *)

Ltac crack H :=
  repeat first
    [ progress inv_bind H
    | match type of H with
      | Panic _ = Ok _ => discriminate H
      | Diverge = Ok _ => discriminate H
      | Ok _ = Ok _ => injection H as H
      | (if ?c then _ else _) = Ok _ => destruct c eqn:?
      | (match ?x with _ => _ end) = Ok _ => destruct x eqn:?
      | (let '(_, _) := ?x in _) = Ok _ => destruct x eqn:?
      end
    | progress (simpl in H) ].

Lemma exists_true_iff (p : loc) (name : string) (s : state) (b : blockCtx) :
  blocks s !! p = Some b →
  is_Some (syms b !! name) → exists_ p name s = Ok true.
Proof.
  intros Hb [sym Hsym]. unfold exists_. apply deref_Ok in Hb. rewrite Hb. simpl.
  by rewrite Hsym.
Qed.

Lemma exists_false_unbound (p : loc) (name : string) (s : state) :
  exists_ p name s = Ok false →
  ∃ b, blocks s !! p = Some b ∧ syms b !! name = None.
Proof.
  unfold exists_. intros H. apply bind_Ok in H as (b & Hb & H).
  apply deref_Ok in Hb. exists b. split; [done|].
  by destruct (syms b !! name).
Qed.

Lemma insertVar_Ok (p : loc) (name : string) (typ : rtype) (s s' : state) (v : Var) :
  insertVar p name typ s = Ok (v, s') →
  ∃ b, blocks s !! p = Some b ∧ exists_ p name s = Ok false ∧
       v = {| var_typ := typ; var_name := name; var_depth := NestDepth s;
              var_idx := uint32 (Z.of_nat (length (vlist b))) |} ∧
       s' = set_blocks
              (<[p := {| file := file b; parent := parent b; vlist := vlist b ++ [v];
                         syms := <[name := SymVar v]> (syms b) |}]> (blocks s)) s.
Proof.
  unfold insertVar. intros H. apply bind_Ok in H as (ex & Hex & H).
  destruct ex; [done|]. apply bind_Ok in H as (b & Hb & H). apply deref_Ok in Hb.
  injection H as <- <-. exists b. done.
Qed.

Lemma insertFunc_Ok (p : loc) (name : string) (fn : loc) (s s' : state) :
  insertFunc p name fn s = Ok s' →
  ∃ b, blocks s !! p = Some b ∧ exists_ p name s = Ok false ∧
       s' = set_blocks (<[p := set_syms (<[name := SymFunc fn]> (syms b)) b]> (blocks s)) s.
Proof.
  unfold insertFunc. intros H. apply bind_Ok in H as (ex & Hex & H).
  destruct ex; [done|]. apply bind_Ok in H as (b & Hb & H). apply deref_Ok in Hb.
  injection H as <-. exists b. done.
Qed.

(** ** The [used] flag is never reset *)

Lemma is_used_funcs_app (s s' : state) (extra : list funcDecl) (f : loc) :
  funcs s' = funcs s ++ extra → is_used s f → is_used s' f.
Proof.
  intros Hext (fd & Hf & Hu). exists fd. split; [|done].
  rewrite Hext. by apply lookup_app_l_Some.
Qed.

Lemma is_used_funcs_eq (s s' : state) (f : loc) :
  funcs s' = funcs s → is_used s f → is_used s' f.
Proof. intros Heq. apply (is_used_funcs_app s s' []). by rewrite app_nil_r. Qed.

Lemma compile_mono (f g : loc) (s s' : state) :
  compile callees f s = Ok s' → is_used s g → is_used s' g.
Proof.
  unfold compile. intros H Hg. apply bind_Ok in H as (s1 & H1 & H).
  injection H as <-. change (is_used s1 g). by eapply foldlM_use_mono.
Qed.

Lemma resolveFuncs_loop_mono (fuel : nat) (g : loc) (s s' : state) :
  resolveFuncs_loop callees fuel s = Ok s' → is_used s g → is_used s' g.
Proof.
  revert s. induction fuel as [|fuel IH]; intros s H Hg; [done|].
  simpl in H. case_decide; [by injection H as <-|].
  apply bind_Ok in H as (f & Hf & H). apply bind_Ok in H as (s2 & H2 & H).
  eapply IH; [exact H|]. eapply compile_mono; [exact H2|]. done.
Qed.

Lemma insertMethod_Ok (p : loc) (tn mn : string) (m : methodDecl) (s s' : state) :
  insertMethod p tn mn m s = Ok s' →
  ∃ b typ s1 td,
    blocks s !! p = Some b ∧ parent b = None ∧
    ((findType p tn s = Ok (inl ErrNotFound) ∧ typ = length (types s) ∧
      s1 = with_placeholder p b tn s) ∨
     (findType p tn s = Ok (inr typ) ∧ s1 = s ∧
      ∃ td0, types s !! typ = Some td0 ∧ Alias td0 = false)) ∧
    types s1 !! typ = Some td ∧ ¬ has_method mn td ∧
    s' = set_types (<[typ := add_method mn m td]> (types s1)) s1.
Proof.
  unfold insertMethod. intros H. apply bind_Ok in H as (b & Hb & H).
  apply deref_Ok in Hb. destruct (parent b) eqn:Hpar; [done|].
  apply bind_Ok in H as (r & Hr & H). apply bind_Ok in H as ([typ s1] & H1 & H).
  apply bind_Ok in H as (td & Htd & H). apply deref_Ok in Htd.
  exists b, typ, s1, td. split; [done|]. split; [done|]. split.
  - destruct r as [e|t].
    + destruct e; try done. injection H1 as <- <-. by left.
    + apply bind_Ok in H1 as (td0 & Htd0 & H1). apply deref_Ok in Htd0.
      destruct (Alias td0) eqn:Hal; [done|]. injection H1 as <- <-.
      right. split; [done|]. split; [done|]. by exists td0.
  - split; [done|]. unfold add_method, has_method.
    destruct (Methods td) as [ms|] eqn:Hms.
    + destruct (ms !! mn) eqn:Hmn; [done|]. injection H as <-. split; [|done].
      intros (ms' & m' & [= <-] & Hm'). congruence.
    + injection H as <-. split; [|done]. by intros (ms' & m' & [=] & _).
Qed.

Lemma insertMethod_funcs (p : loc) (tn mn : string) (m : methodDecl) (s s' : state) :
  insertMethod p tn mn m s = Ok s' → funcs s' = funcs s.
Proof.
  intros H. apply insertMethod_Ok in H
    as (b & typ & s1 & td & _ & _ & [(_ & _ & ->)|(_ & -> & _)] & _ & _ & ->); done.
Qed.

Lemma loadImports_funcs (ctx : loc) (d : GenDecl) (s s' : state) :
  loadImports ToString path_Base ctx d s = Ok s' → funcs s' = funcs s.
Proof.
  unfold loadImports. intros H.
  apply (foldlM_invariant (fun t => funcs t = funcs s)) in H; [done| |done].
  intros item t t' _ Ht Hi. destruct item; try done.
  unfold loadImport in Hi. crack Hi; subst; done.
Qed.

Lemma loadTypes_same (d : GenDecl) (s s' : state) :
  loadTypes d s = Ok s' → s' = s.
Proof.
  unfold loadTypes. generalize (gd_Specs d). intros xs. revert s.
  induction xs as [|x xs IH]; simpl; intros s H; [by injection H|].
  destruct x; simpl in H; try done. by apply IH.
Qed.

Lemma loadVars_same (d : GenDecl) (s s' : state) :
  loadVars d s = Ok s' → s' = s.
Proof.
  unfold loadVars. generalize (gd_Specs d). intros xs. revert s.
  induction xs as [|x xs IH]; simpl; intros s H; [by injection H|].
  destruct x; simpl in H; try done. by apply IH.
Qed.

Lemma loadFunc_funcs (ctx : loc) (d : FuncDecl) (s s' : state) :
  loadFunc ToRecv ctx d s = Ok s' → ∃ extra, funcs s' = funcs s ++ extra.
Proof.
  unfold loadFunc. intros H. apply bind_Ok in H as (fc & Hfc & H).
  destruct (fd_Recv d).
  - apply insertMethod_funcs in H. exists []. by rewrite app_nil_r.
  - case_decide; [done|]. simpl in H. apply insertFunc_Ok in H as (b & _ & _ & ->).
    simpl. by eexists.
Qed.

Lemma loadDecl_funcs (ctx : loc) (decl : Decl) (s s' : state) :
  loadDecl ToRecv ToString path_Base ctx decl s = Ok s' →
  ∃ extra, funcs s' = funcs s ++ extra.
Proof.
  destruct decl as [d|d|]; simpl; [apply loadFunc_funcs| |done].
  intros H. exists []. rewrite app_nil_r.
  destruct (gd_Tok d); try done.
  - by eapply loadImports_funcs.
  - by apply loadTypes_same in H as ->.
  - by injection H as <-.
  - by apply loadVars_same in H as ->.
Qed.

Lemma loadFile_funcs (block : loc) (f : File) (s s' : state) :
  loadFile ToRecv ToString path_Base block f s = Ok s' →
  ∃ extra, funcs s' = funcs s ++ extra.
Proof.
  unfold loadFile. simpl. intros H. apply bind_Ok in H as (b & Hb & H).
  apply (foldlM_invariant (fun t => ∃ extra, funcs t = funcs s ++ extra)) in H;
    [done| |by exists []; rewrite app_nil_r].
  intros decl t t' _ [extra Ht] Hd. apply loadDecl_funcs in Hd as [extra' Hd].
  exists (extra ++ extra'). by rewrite Hd, Ht, (assoc_L (++)).
Qed.

Lemma run_op_mono (o : op) (g : loc) (s s' : state) :
  run_op ToRecv ToString path_Base callees o s = Ok s' → is_used s g → is_used s' g.
Proof.
  destruct o; simpl; intros H.
  - by eapply use_mono.
  - by eapply compile_mono.
  - by eapply resolveFuncs_loop_mono.
  - injection H as <-. by apply is_used_funcs_eq.
  - apply bind_Ok in H as (r & Hr & H). injection H as <-.
    unfold newBlockCtx in Hr. crack Hr. subst. by apply is_used_funcs_eq.
  - injection H as <-. by apply is_used_funcs_eq.
  - injection H as <-. by eapply is_used_funcs_app.
  - apply bind_Ok in H as ([v s1] & Hr & H). injection H as <-.
    apply insertVar_Ok in Hr as (b & _ & _ & _ & ->). by apply is_used_funcs_eq.
  - apply insertFunc_Ok in H as (b & _ & _ & ->). by apply is_used_funcs_eq.
  - apply insertMethod_funcs in H. by apply is_used_funcs_eq.
  - apply loadFile_funcs in H as [extra H]. by eapply is_used_funcs_app.
  - crack H. subst. by apply is_used_funcs_eq.
  - injection H as <-. by apply is_used_funcs_eq.
Qed.

Lemma run_ops_mono (ops : list op) (g : loc) (s s' : state) :
  foldlM (run_op ToRecv ToString path_Base callees) ops s = Ok s' →
  is_used s g → is_used s' g.
Proof.
  intros H Hg. revert Hg H. apply (foldlM_invariant (fun t => is_used t g)).
  intros o t t' _ Ht Ho. by eapply run_op_mono.
Qed.

(** ** Claims on the scheduler *)

(** C1. In a session whose static call graph is finite (the calls of each
    function symbol go to function symbols of the session), let the caller
    mark the functions of [direct] used on a scheduler that was asked
    nothing before.  Then [resolveFuncs] returns (the loop needs no more
    fuel than [sched_measure]), the worklist is empty afterwards, and
    [compile] has run exactly once for every function that [use] was called
    on: those of [direct], and the callees of every body that was lowered,
    cycles included.  Nothing else was lowered, and nothing twice. *)
Theorem resolveFuncs_lowers_marked_once (s : state) (direct : list loc) :
  fresh_sched s →
  call_graph_closed callees s →
  (∀ f, f ∈ direct → f < length (funcs s)) →
  ∃ s1 s2,
    foldlM use direct s = Ok s1 ∧
    resolveFuncs callees s1 = Ok s2 ∧
    (∀ fuel, sched_measure s1 < fuel → resolveFuncs_loop callees fuel s1 = Ok s2) ∧
    usedfns s2 = [] ∧
    (∀ f, f ∈ direct → times_compiled s2 f = 1) ∧
    (∀ g f, g ∈ compiled s2 → f ∈ callees g → times_compiled s2 f = 1) ∧
    (∀ f, f ∈ compiled s2 → f ∈ direct ∨ ∃ g, g ∈ compiled s2 ∧ f ∈ callees g) ∧
    (∀ f, times_compiled s2 f ≤ 1).
Proof.
  intros Hfresh Hclosed Hvalid.
  pose proof (fresh_sched_inv s Hfresh) as Hinv.
  destruct Hfresh as (Hu0 & Hc0 & Hf0).
  destruct (foldlM_use_defined direct s Hvalid) as [s1 H1].
  assert (Hj0 : justified direct [] s).
  { intros f (fd & Hfd & Hused). rewrite (Hf0 _ _ Hfd) in Hused. done. }
  assert (Hj1 : justified direct [] s1).
  { revert Hj0 H1. apply (foldlM_invariant (justified direct [])).
    intros f t t' Hf. by apply use_justified_direct. }
  assert (Hm1 : callees_marked s1).
  { intros g f Hg. rewrite (foldlM_use_compiled _ _ _ H1), Hc0 in Hg.
    by apply elem_of_nil in Hg. }
  assert (Hclosed1 : call_graph_closed callees s1).
  { intros f g. rewrite (foldlM_use_length_funcs _ _ _ H1). apply Hclosed. }
  pose proof (foldlM_use_sched_inv _ _ _ _ Hinv H1) as Hinv1.
  destruct (resolveFuncs_loop_spec direct (S (sched_measure s1)) s1)
    as (s2 & H2 & Hempty & [Hnd Hiff] & Hj2 & Hm2 & Hmono); try done; [lia|].
  rewrite Hempty in Hnd, Hiff. simpl in Hnd, Hiff.
  exists s1, s2. split_and!; try done.
  - intros fuel Hfuel. by rewrite resolveFuncs_any_fuel.
  - intros f Hf. apply NoDup_count_one; [done|]. apply Hiff, Hmono.
    by eapply foldlM_use_marks.
  - intros g f Hg Hf. apply NoDup_count_one; [done|]. apply Hiff. by eapply Hm2.
  - intros f Hf. apply Hiff in Hf. apply Hj2 in Hf. done.
  - apply NoDup_ListNoDup in Hnd. by apply (List.NoDup_count_occ Nat.eq_dec).
Qed.

(** C2. On a function symbol [f] whose flag is not yet set, [N >= 1] calls
    of [use f] leave the session exactly as the first call does: [f] was
    appended to the worklist once and its flag was set; one more call
    changes nothing; and after any later sequence of operations of the
    session the flag is still set and [use f] still changes nothing. *)
Theorem use_appends_once (s : state) (f : loc) (fd : funcDecl) (N : nat) :
  funcs s !! f = Some fd → used fd = false → 1 ≤ N →
  ∃ s',
    iterM N (use f) s = Ok s' ∧
    use f s = Ok s' ∧
    usedfns s' = usedfns s ++ [f] ∧
    is_used s' f ∧
    use f s' = Ok s' ∧
    (∀ (ops : list op) s'',
        foldlM (run_op ToRecv ToString path_Base callees) ops s' = Ok s'' →
        is_used s'' f ∧ use f s'' = Ok s'').
Proof.
  intros Hf Hu HN.
  set (s' := set_funcs (<[f := set_used true fd]> (funcs s))
               (set_usedfns (usedfns s ++ [f]) s)).
  assert (H1 : use f s = Ok s') by by apply use_unused.
  assert (Hused : is_used s' f) by by eapply use_is_used.
  assert (Hnoop : use f s' = Ok s') by by apply use_used.
  exists s'. split_and!; try done.
  - destruct N as [|N]; [lia|]. simpl. rewrite H1. simpl. clear HN.
    induction N as [|N IH]; simpl; [done|]. by rewrite Hnoop.
  - intros ops s'' Hops.
    assert (Hused'' : is_used s'' f) by by eapply run_ops_mono.
    split; [done|by apply use_used].
Qed.

(** ** Scope chains and [find] *)

Lemma scope_chain_head (s : state) (p : loc) (bs : list blockCtx) :
  scope_chain s p bs → ∃ b bs', bs = b :: bs' ∧ blocks s !! p = Some b.
Proof. intros H. destruct H; eauto. Qed.

Lemma scope_chain_unique (s : state) (p : loc) (bs1 bs2 : list blockCtx) :
  scope_chain s p bs1 → scope_chain s p bs2 → bs1 = bs2.
Proof.
  intros H1. revert bs2.
  induction H1 as [p b Hb Hpar|p b q bs Hb Hpar Hq IH]; intros bs2 H2.
  - destruct H2 as [p b' Hb' Hpar'|p b' q' bs' Hb' Hpar' Hq']; congruence.
  - destruct H2 as [p b' Hb' Hpar'|p b' q' bs' Hb' Hpar' Hq']; [congruence|].
    assert (b' = b) as -> by congruence.
    assert (q' = q) as -> by congruence.
    f_equal. by apply IH.
Qed.

(** The pointers along a chain: the scope at position [i] heads the rest of
    the chain from [i] on. *)
Lemma scope_chain_ptrs (s : state) (p : loc) (bs : list blockCtx) :
  scope_chain s p bs →
  ∃ ps : list loc,
    length ps = length bs ∧
    ∀ i r, ps !! i = Some r → scope_chain s r (drop i bs).
Proof.
  induction 1 as [p b Hb Hpar|p b q bs Hb Hpar Hq (ps & Hlen & Hps)].
  - exists [p]. split; [done|]. intros [|i] r Hr; [|done].
    injection Hr as <-. by constructor.
  - exists (p :: ps). split; [simpl; by rewrite Hlen|].
    intros [|i] r Hr; simpl in *.
    + injection Hr as <-. by econstructor.
    + by apply Hps.
Qed.

Lemma NoDup_bounded_length (ps : list loc) (n : nat) :
  NoDup ps → (∀ r, r ∈ ps → r < n) → length ps ≤ n.
Proof.
  intros Hnd Hlt.
  assert (Hsub : ps ⊆+ seq 0 n).
  { apply NoDup_submseteq; [done|]. intros r Hr. apply elem_of_seq.
    specialize (Hlt r Hr). lia. }
  apply submseteq_length in Hsub. by rewrite length_seq in Hsub.
Qed.

(** A chain never visits a scope twice, so it is no longer than the arena. *)
Lemma scope_chain_length (s : state) (p : loc) (bs : list blockCtx) :
  scope_chain s p bs → length bs ≤ length (blocks s).
Proof.
  intros H. destruct (scope_chain_ptrs s p bs H) as (ps & Hlen & Hps).
  rewrite <- Hlen. apply NoDup_bounded_length.
  - apply NoDup_alt. intros i j r Hi Hj.
    pose proof (scope_chain_unique _ _ _ _ (Hps _ _ Hi) (Hps _ _ Hj)) as Heq.
    apply (f_equal length) in Heq. rewrite !length_drop in Heq.
    apply lookup_lt_Some in Hi, Hj. lia.
  - intros r Hr. apply list_elem_of_lookup in Hr as [i Hi].
    destruct (scope_chain_head _ _ _ (Hps _ _ Hi)) as (b & bs' & _ & Hb).
    by eapply lookup_lt_Some.
Qed.

Lemma find_loop_chain (s : state) (p : loc) (bs : list blockCtx) (name : string)
    (fuel : nat) :
  scope_chain s p bs → length bs ≤ fuel →
  find_loop fuel (Some p) name s = Ok (first_binding name bs).
Proof.
  intros H. revert fuel.
  induction H as [p b Hb Hpar|p b q bs Hb Hpar Hq IH]; intros fuel Hfuel;
    (destruct fuel as [|fuel]; [simpl in Hfuel; lia|]); simpl;
    apply deref_Ok in Hb; rewrite Hb; simpl;
    destruct (syms b !! name); try done; rewrite Hpar.
  - by destruct fuel.
  - apply IH. simpl in Hfuel. lia.
Qed.

Lemma find_chain (s : state) (p : loc) (b : blockCtx) (bs : list blockCtx)
    (name : string) :
  scope_chain s p (b :: bs) →
  find p name s =
    match first_binding name (b :: bs) with
    | Some sym => Ok (Some sym)
    | None => im ← file_imports (file b) s; Ok (SymPkg <$> im !! name)
    end.
Proof.
  intros H. unfold find.
  rewrite (find_loop_chain s p (b :: bs) name);
    [|done|by apply Nat.le_le_succ_r, (scope_chain_length s p)].
  simpl. destruct (scope_chain_head _ _ _ H) as (b' & bs' & [= <- <-] & Hb).
  apply deref_Ok in Hb. rewrite Hb. done.
Qed.

Lemma first_binding_unbound (name : string) (bs : list blockCtx) :
  Forall (unbound name) bs → first_binding name bs = None.
Proof.
  induction 1 as [|b bs Hb _ IH]; simpl; [done|]. by rewrite Hb.
Qed.

Lemma first_binding_app (name : string) (inner outer : list blockCtx) :
  Forall (unbound name) inner →
  first_binding name (inner ++ outer) = first_binding name outer.
Proof.
  induction 1 as [|b bs Hb _ IH]; simpl; [done|]. by rewrite Hb.
Qed.

(** C3. Along every scope chain, [find] returns the binding of the first
    scope, counted from the starting scope outward, whose symbol map binds
    the name: a binding in an inner scope hides every binding further out.
    Only when no scope of the chain binds the name does [find] consult the
    import table, and it is the table of the file of the scope where the
    search started (with a nil [file] the access faults). *)
Theorem find_innermost_first (s : state) (p : loc) (bs : list blockCtx) (name : string) :
  scope_chain s p bs →
  (∀ inner b outer sym,
      bs = inner ++ b :: outer → Forall (unbound name) inner →
      syms b !! name = Some sym →
      find p name s = Ok (Some sym)) ∧
  (Forall (unbound name) bs →
   ∃ b0, blocks s !! p = Some b0 ∧ head bs = Some b0 ∧
         find p name s = (im ← file_imports (file b0) s; Ok (SymPkg <$> im !! name))).
Proof.
  intros H. destruct (scope_chain_head _ _ _ H) as (b0 & bs' & -> & Hb0).
  rewrite (find_chain s p b0 bs' name H). split.
  - intros inner b outer sym Heq Hinner Hsym.
    rewrite Heq, first_binding_app by done. simpl. by rewrite Hsym.
  - intros Hun. exists b0. rewrite first_binding_unbound by done. done.
Qed.

(** ** Declarations in one scope *)

Lemma exists_bound_after_insert (p : loc) (name : string) (b : blockCtx) (sym : iSymbol)
    (vl : list Var) (s : state) :
  blocks s !! p = Some b →
  exists_ p name
    (set_blocks (<[p := {| file := file b; parent := parent b; vlist := vl;
                           syms := <[name := sym]> (syms b) |}]> (blocks s)) s)
  = Ok true.
Proof.
  intros Hb. eapply exists_true_iff.
  - simpl. apply list_lookup_insert_eq. by eapply lookup_lt_Some.
  - simpl. rewrite lookup_insert_eq. by eexists.
Qed.

Lemma insertVar_bound (p : loc) (name : string) (typ : rtype) (s : state) :
  exists_ p name s = Ok true →
  insertVar p name typ s = Panic (LogPanic "insertVar failed: symbol exists -").
Proof. intros H. unfold insertVar. by rewrite H. Qed.

Lemma insertFunc_bound (p : loc) (name : string) (fn : loc) (s : state) :
  exists_ p name s = Ok true →
  insertFunc p name fn s = Panic (LogPanic "insertFunc failed: symbol exists -").
Proof. intros H. unfold insertFunc. by rewrite H. Qed.

(** C9. After [insertVar] or [insertFunc] has declared [name] in the scope
    [p], [exists] answers true for [name] in [p], and declaring [name] in
    [p] once more, as a variable or as a function, panics.  More generally
    a declaration of a name for which [exists] answers true panics. *)
Theorem redeclaration_fails (s s' : state) (p : loc) (name : string) :
  (∃ typ v, insertVar p name typ s = Ok (v, s')) ∨
  (∃ fn, insertFunc p name fn s = Ok s') →
  exists_ p name s' = Ok true ∧
  (∀ typ, insertVar p name typ s' = Panic (LogPanic "insertVar failed: symbol exists -")) ∧
  (∀ fn, insertFunc p name fn s' = Panic (LogPanic "insertFunc failed: symbol exists -")) ∧
  (∀ t : state, exists_ p name t = Ok true →
     (∀ typ, insertVar p name typ t = Panic (LogPanic "insertVar failed: symbol exists -")) ∧
     (∀ fn, insertFunc p name fn t = Panic (LogPanic "insertFunc failed: symbol exists -"))).
Proof.
  intros H.
  assert (Hex : exists_ p name s' = Ok true).
  { destruct H as [(typ & v & H)|(fn & H)].
    - apply insertVar_Ok in H as (b & Hb & _ & _ & ->).
      by apply exists_bound_after_insert.
    - apply insertFunc_Ok in H as (b & Hb & _ & ->).
      by apply (exists_bound_after_insert p name b (SymFunc fn) (vlist b)). }
  split_and!; try done.
  - intros typ. by apply insertVar_bound.
  - intros fn. by apply insertFunc_bound.
  - intros t Ht. split; intros ?; [by apply insertVar_bound|by apply insertFunc_bound].
Qed.

(** ** Methods *)

Lemma find_frame (p : loc) (name : string) (s s' : state) :
  blocks s' = blocks s → files s' = files s → find p name s' = find p name s.
Proof.
  intros Hb Hf. unfold find. rewrite Hb.
  assert (Hloop : ∀ fuel q, find_loop fuel q name s' = find_loop fuel q name s).
  { induction fuel as [|fuel IH]; intros [q|]; simpl; try done.
    rewrite Hb. destruct (deref (blocks s) q) as [b| |]; simpl; try done.
    destruct (syms b !! name); [done|]. apply IH. }
  rewrite Hloop. destruct (find_loop _ _ _ s) as [[sym|]| |]; simpl; try done.
  destruct (deref (blocks s) p) as [b| |]; simpl; try done.
  unfold file_imports. by rewrite Hf.
Qed.

Lemma find_global (p : loc) (b : blockCtx) (name : string) (s : state) :
  blocks s !! p = Some b → parent b = None →
  find p name s =
    match syms b !! name with
    | Some sym => Ok (Some sym)
    | None => im ← file_imports (file b) s; Ok (SymPkg <$> im !! name)
    end.
Proof.
  intros Hb Hpar. rewrite (find_chain s p b []) by by constructor.
  simpl. by destruct (syms b !! name).
Qed.

Lemma find_None_unbound (p : loc) (b : blockCtx) (name : string) (s : state) :
  blocks s !! p = Some b → find p name s = Ok None → syms b !! name = None.
Proof.
  intros Hb H. unfold find in H. apply bind_Ok in H as (r & Hr & H).
  simpl in Hr. apply deref_Ok in Hb. rewrite Hb in Hr. simpl in Hr.
  destruct (syms b !! name) as [sym|]; [|done].
  injection Hr as <-. done.
Qed.

Lemma findType_find (p : loc) (name : string) (s : state) :
  findType p name s =
    (v ← find p name s;
     match v with
     | None => Ok (inl ErrNotFound)
     | Some (SymType decl) => Ok (inr decl)
     | Some _ => Ok (inl ErrSymbolNotType)
     end).
Proof. done. Qed.

Lemma has_method_dec (mn : string) (td : typeDecl) :
  {has_method mn td} + {¬ has_method mn td}.
Proof.
  unfold has_method. destruct (Methods td) as [ms|].
  - destruct (ms !! mn) as [m|] eqn:Hm.
    + left. by exists ms, m.
    + right. intros (ms' & m' & [= <-] & Hm'). congruence.
  - right. by intros (ms' & m' & [=] & _).
Qed.

Lemma add_method_has (mn : string) (m : methodDecl) (td : typeDecl) :
  Methods (add_method mn m td)
  = Some (match Methods td with None => {[mn := m]} | Some ms => <[mn := m]> ms end) ∧
  has_method mn (add_method mn m td) ∧ Alias (add_method mn m td) = Alias td.
Proof.
  unfold add_method, has_method. simpl. split; [done|]. split; [|done].
  destruct (Methods td) as [ms|]; eexists _, m; (split; [done|]).
  - apply lookup_insert_eq.
  - apply lookup_singleton_eq.
Qed.

(** The second half of [insertMethod], from the type symbol on. *)
Lemma insertMethod_on_type (p : loc) (b : blockCtx) (tn mn : string) (m : methodDecl)
    (t : loc) (td : typeDecl) (s : state) :
  blocks s !! p = Some b → parent b = None →
  find p tn s = Ok (Some (SymType t)) → types s !! t = Some td →
  insertMethod p tn mn m s =
    if Alias td then Panic (LogPanic "insertMethod failed: alias?")
    else if has_method_dec mn td then Panic (LogPanic "insertMethod failed: method exists -")
    else Ok (set_types (<[t := add_method mn m td]> (types s)) s).
Proof.
  intros Hb Hpar Hfind Htd. unfold insertMethod.
  apply deref_Ok in Hb. rewrite Hb. simpl. rewrite Hpar, findType_find, Hfind. simpl.
  apply deref_Ok in Htd. rewrite Htd. simpl. destruct (Alias td); [done|]. simpl.
  rewrite Htd. simpl. unfold add_method.
  destruct (has_method_dec mn td) as [(ms & m' & Hms & Hm')|Hno].
  - by rewrite Hms, Hm'.
  - destruct (Methods td) as [ms|] eqn:Hms; [|done].
    destruct (ms !! mn) as [m'|] eqn:Hm'; [|done].
    destruct Hno. by exists ms, m'.
Qed.

Lemma findType_inr (p : loc) (name : string) (t : loc) (s : state) :
  findType p name s = Ok (inr t) → find p name s = Ok (Some (SymType t)).
Proof.
  rewrite findType_find. intros H. apply bind_Ok in H as (v & Hv & H).
  destruct v as [[]|]; try done. by injection H as ->.
Qed.

Lemma findType_NotFound (p : loc) (name : string) (s : state) :
  findType p name s = Ok (inl ErrNotFound) → find p name s = Ok None.
Proof.
  rewrite findType_find. intros H. apply bind_Ok in H as (v & Hv & H).
  by destruct v as [[]|].
Qed.

Lemma insertMethod_placeholder (p : loc) (b : blockCtx) (tn mn : string)
    (m : methodDecl) (s : state) :
  blocks s !! p = Some b → parent b = None → find p tn s = Ok None →
  insertMethod p tn mn m s
  = Ok (set_types (<[length (types s) :=
                       {| Alias := false; Methods := Some {[mn := m]} |}]>
                     (types (with_placeholder p b tn s)))
          (with_placeholder p b tn s)).
Proof.
  intros Hb Hpar Hfind. unfold insertMethod.
  apply deref_Ok in Hb. rewrite Hb. simpl. rewrite Hpar, findType_find, Hfind. simpl.
  unfold deref. rewrite list_lookup_middle by done. done.
Qed.

Lemma insertMethod_nested (p : loc) (b : blockCtx) (q : loc) (tn mn : string)
    (m : methodDecl) (s : state) :
  blocks s !! p = Some b → parent b = Some q →
  insertMethod p tn mn m s
  = Panic (LogPanic "insertMethod failed: unexpected - non global method declaration?").
Proof.
  intros Hb Hpar. unfold insertMethod. apply deref_Ok in Hb. rewrite Hb. simpl.
  by rewrite Hpar.
Qed.

(** C7. On the package scope [p] (the scope without parent):
    - when no symbol is named [tn], [insertMethod] creates a placeholder
      type, binds [tn] to it in [p] and gives it the method;
    - when [tn] resolves to a symbol that is not a type, it panics;
    - when [tn] resolves to a type, it panics if the type is an alias or
      already has a method [mn], and adds the method otherwise;
    - after a successful call, a second call for the same type name and
      method name panics. *)
Theorem insertMethod_cases (s : state) (p : loc) (b : blockCtx) (tn mn : string)
    (m : methodDecl) :
  blocks s !! p = Some b → parent b = None →
  (find p tn s = Ok None →
   ∃ s', insertMethod p tn mn m s = Ok s' ∧
         find p tn s' = Ok (Some (SymType (length (types s)))) ∧
         types s' !! length (types s)
         = Some {| Alias := false; Methods := Some {[mn := m]} |} ∧
         length (types s') = S (length (types s))) ∧
  (∀ sym, find p tn s = Ok (Some sym) → (∀ t, sym ≠ SymType t) →
          insertMethod p tn mn m s = Panic (LogPanic "insertMethod failed:")) ∧
  (∀ t td, find p tn s = Ok (Some (SymType t)) → types s !! t = Some td →
     (Alias td = true →
      insertMethod p tn mn m s = Panic (LogPanic "insertMethod failed: alias?")) ∧
     (Alias td = false → has_method mn td →
      insertMethod p tn mn m s = Panic (LogPanic "insertMethod failed: method exists -")) ∧
     (Alias td = false → ¬ has_method mn td →
      insertMethod p tn mn m s
      = Ok (set_types (<[t := add_method mn m td]> (types s)) s))) ∧
  (∀ s', insertMethod p tn mn m s = Ok s' →
         ∀ m', insertMethod p tn mn m' s'
               = Panic (LogPanic "insertMethod failed: method exists -")).
Proof.
  intros Hb Hpar. split_and!.
  - intros Hfind. eexists. split; [by apply insertMethod_placeholder|].
    split_and!.
    + erewrite find_global; cycle 1.
      * simpl. apply list_lookup_insert_eq. by eapply lookup_lt_Some.
      * done.
      * simpl. by rewrite lookup_insert_eq.
    + simpl. apply list_lookup_insert_eq. rewrite length_app. simpl. lia.
    + simpl. rewrite length_insert, length_app. simpl. lia.
  - intros sym Hfind Hsym. unfold insertMethod.
    apply deref_Ok in Hb. rewrite Hb. simpl. rewrite Hpar, findType_find, Hfind. simpl.
    destruct sym as [v|path|f|t]; try done. by destruct (Hsym t).
  - intros t td Hfind Htd.
    rewrite (insertMethod_on_type p b tn mn m t td s) by done.
    split_and!.
    + by intros ->.
    + intros -> Hhas. by destruct (has_method_dec mn td).
    + intros -> Hno. by destruct (has_method_dec mn td).
  - intros s' H m'.
    apply insertMethod_Ok in H
      as (b0 & typ & s1 & td & Hb0 & _ & Hcase & Htd & _ & ->).
    assert (b0 = b) as -> by congruence.
    assert (Hs1 : ∃ b1, blocks s1 !! p = Some b1 ∧ parent b1 = None ∧
                        find p tn s1 = Ok (Some (SymType typ)) ∧ Alias td = false).
    { destruct Hcase as [(Hnf & -> & ->)|(Hfound & -> & td0 & Htd0 & Hal)].
      - eexists. split_and!.
        + simpl. apply list_lookup_insert_eq. by eapply lookup_lt_Some.
        + done.
        + erewrite find_global; cycle 1.
          * simpl. apply list_lookup_insert_eq. by eapply lookup_lt_Some.
          * done.
          * simpl. by rewrite lookup_insert_eq.
        + simpl in Htd. rewrite list_lookup_middle in Htd by done.
          by injection Htd as <-.
      - exists b. split_and!; try done.
        + by apply findType_inr.
        + congruence. }
    destruct Hs1 as (b1 & Hb1 & Hpar1 & Hfind1 & Hal).
    rewrite (insertMethod_on_type p b1 tn mn m' typ (add_method mn m td)); try done.
    + destruct (add_method_has mn m td) as (_ & Hhas & ->). rewrite Hal.
      by destruct (has_method_dec mn (add_method mn m td)).
    + transitivity (find p tn s1); [by apply find_frame|done].
    + simpl. apply list_lookup_insert_eq. by eapply lookup_lt_Some.
Qed.

(** ** What an operation leaves of a scope *)

Lemma block_kept_eq (p : loc) (s s' : state) :
  blocks s' = blocks s → block_kept p s s'.
Proof. intros Heq b Hb. exists b. by rewrite Heq. Qed.

Lemma block_kept_trans (p : loc) (s1 s2 s3 : state) :
  block_kept p s1 s2 → block_kept p s2 s3 → block_kept p s1 s3.
Proof.
  intros H12 H23 b Hb. destruct (H12 b Hb) as (b2 & Hb2 & Hp2 & Hv2 & Hs2).
  destruct (H23 b2 Hb2) as (b3 & Hb3 & Hp3 & Hv3 & Hs3).
  exists b3. split_and!; try congruence. by transitivity (syms b2).
Qed.

Lemma block_kept_app (p : loc) (s s' : state) (extra : list blockCtx) :
  blocks s' = blocks s ++ extra → block_kept p s s'.
Proof.
  intros Heq b Hb. exists b. rewrite Heq. split; [by apply lookup_app_l_Some|done].
Qed.

(** A write to the scope [q] that keeps what [block_kept] asks for. *)
Lemma block_kept_insert (p q : loc) (bq bq' : blockCtx) (s s' : state) :
  blocks s !! q = Some bq → blocks s' = <[q := bq']> (blocks s) →
  (p = q → parent bq' = parent bq ∧ vlist bq' = vlist bq ∧ syms bq ⊆ syms bq') →
  block_kept p s s'.
Proof.
  intros Hq Heq Hrel b Hb. rewrite Heq. destruct (decide (p = q)) as [->|Hne].
  - exists bq'. assert (b = bq) as -> by congruence.
    split; [|by apply Hrel]. apply list_lookup_insert_eq. by eapply lookup_lt_Some.
  - exists b. by rewrite list_lookup_insert_ne.
Qed.

Lemma use_scopes (f : loc) (s s' : state) :
  use f s = Ok s' →
  blocks s' = blocks s ∧ files s' = files s ∧ types s' = types s ∧
  NestDepth s' = NestDepth s.
Proof. intros H. by apply use_cases in H as [[_ ->]|(fd & _ & _ & ->)]. Qed.

Lemma foldlM_use_scopes (fs : list loc) (s s' : state) :
  foldlM use fs s = Ok s' →
  blocks s' = blocks s ∧ files s' = files s ∧ types s' = types s ∧
  NestDepth s' = NestDepth s.
Proof.
  intros H.
  apply (foldlM_invariant
           (fun t => blocks t = blocks s ∧ files t = files s ∧ types t = types s ∧
                     NestDepth t = NestDepth s)) in H; [done| |done].
  intros f t t' _ (? & ? & ? & ?) Hu. apply use_scopes in Hu as (? & ? & ? & ?).
  split_and!; congruence.
Qed.

Lemma compile_scopes (f : loc) (s s' : state) :
  compile callees f s = Ok s' →
  blocks s' = blocks s ∧ files s' = files s ∧ types s' = types s ∧
  NestDepth s' = NestDepth s.
Proof.
  unfold compile. intros H. apply bind_Ok in H as (s1 & H1 & H). injection H as <-.
  by apply foldlM_use_scopes in H1.
Qed.

Lemma resolveFuncs_loop_scopes (fuel : nat) (s s' : state) :
  resolveFuncs_loop callees fuel s = Ok s' →
  blocks s' = blocks s ∧ files s' = files s ∧ types s' = types s ∧
  NestDepth s' = NestDepth s.
Proof.
  revert s. induction fuel as [|fuel IH]; intros s H; [done|].
  simpl in H. case_decide; [by injection H as <-|].
  apply bind_Ok in H as (f & Hf & H). apply bind_Ok in H as (s2 & H2 & H).
  apply IH in H as (? & ? & ? & ?). apply compile_scopes in H2 as (? & ? & ? & ?).
  simpl in *. split_and!; congruence.
Qed.

Lemma insertFunc_block_kept (p q : loc) (name : string) (fn : loc) (s s' : state) :
  insertFunc q name fn s = Ok s' → block_kept p s s'.
Proof.
  intros H. apply insertFunc_Ok in H as (b & Hb & Hex & ->).
  apply exists_false_unbound in Hex as (b' & Hb' & Hun).
  assert (b' = b) as -> by congruence.
  eapply block_kept_insert; [exact Hb|done|]. intros _. simpl.
  split_and!; try done. by apply insert_subseteq.
Qed.

Lemma insertMethod_block_kept (p q : loc) (tn mn : string) (m : methodDecl)
    (s s' : state) :
  insertMethod q tn mn m s = Ok s' → block_kept p s s'.
Proof.
  intros H. apply insertMethod_Ok in H
    as (b & typ & s1 & td & Hb & _ & [(Hnf & _ & ->)|(_ & -> & _)] & _ & _ & ->).
  - apply findType_NotFound in Hnf.
    pose proof (find_None_unbound _ _ _ _ Hb Hnf) as Hun.
    eapply block_kept_insert; [exact Hb|done|]. intros _. simpl.
    split_and!; try done. by apply insert_subseteq.
  - by apply block_kept_eq.
Qed.

Lemma loadImports_scopes (ctx : loc) (d : GenDecl) (s s' : state) :
  loadImports ToString path_Base ctx d s = Ok s' →
  blocks s' = blocks s ∧ types s' = types s.
Proof.
  unfold loadImports. intros H.
  apply (foldlM_invariant (fun t => blocks t = blocks s ∧ types t = types s)) in H;
    [done| |done].
  intros item t t' _ [Ht1 Ht2] Hi. destruct item; try done.
  unfold loadImport in Hi. crack Hi; subst; done.
Qed.

Lemma loadDecl_block_kept (p ctx : loc) (decl : Decl) (s s' : state) :
  loadDecl ToRecv ToString path_Base ctx decl s = Ok s' → block_kept p s s'.
Proof.
  destruct decl as [d|d|]; simpl; intros H; [| |done].
  - unfold loadFunc in H. apply bind_Ok in H as (fc & _ & H).
    destruct (fd_Recv d).
    + by eapply insertMethod_block_kept.
    + case_decide; [done|]. simpl in H.
      eapply block_kept_trans; [|by eapply insertFunc_block_kept].
      by apply block_kept_eq.
  - destruct (gd_Tok d); try done.
    + apply loadImports_scopes in H as [? _]. by apply block_kept_eq.
    + apply loadTypes_same in H as ->. by apply block_kept_eq.
    + injection H as <-. by apply block_kept_eq.
    + apply loadVars_same in H as ->. by apply block_kept_eq.
Qed.

Lemma loadFile_block_kept (p block : loc) (f : File) (s s' : state) :
  loadFile ToRecv ToString path_Base block f s = Ok s' → block_kept p s s'.
Proof.
  unfold loadFile. simpl. intros H. apply bind_Ok in H as (b & Hb & H).
  apply deref_Ok in Hb. simpl in Hb.
  match type of H with foldlM _ _ ?t = _ => set (s2 := t) in H end.
  apply (block_kept_trans p s s2 s').
  - by apply (block_kept_insert p block b (set_file (Some (length (files s))) b) s).
  - revert H. apply (foldlM_invariant (fun t => block_kept p s2 t)).
    + intros decl t t' _ Ht Hd. eapply block_kept_trans; [exact Ht|].
      by eapply loadDecl_block_kept.
    + by apply block_kept_eq.
Qed.

Lemma run_op_block_kept (p : loc) (o : op) (s s' : state) :
  (∀ name typ, o ≠ OpInsertVar p name typ) →
  run_op ToRecv ToString path_Base callees o s = Ok s' → block_kept p s s'.
Proof.
  intros Hne. destruct o; simpl; intros H.
  - apply use_scopes in H as [? _]. by apply block_kept_eq.
  - apply compile_scopes in H as [? _]. by apply block_kept_eq.
  - apply resolveFuncs_loop_scopes in H as [? _]. by apply block_kept_eq.
  - injection H as <-. by apply block_kept_eq.
  - apply bind_Ok in H as ([q s1] & Hr & H). injection H as <-.
    unfold newBlockCtx in Hr. crack Hr. subst. by eapply block_kept_app.
  - injection H as <-. by eapply block_kept_app.
  - injection H as <-. by apply block_kept_eq.
  - apply bind_Ok in H as ([v s1] & Hr & H). injection H as <-.
    apply insertVar_Ok in Hr as (b & Hb & _ & _ & ->).
    eapply block_kept_insert; [exact Hb|done|]. intros ->. by destruct (Hne name typ).
  - by eapply insertFunc_block_kept.
  - by eapply insertMethod_block_kept.
  - by eapply loadFile_block_kept.
  - apply bind_Ok in H as (b & Hb & H). apply deref_Ok in Hb. injection H as <-.
    eapply (block_kept_insert p p0 b (set_file _ b) s); [exact Hb|done|by intros _].
  - injection H as <-. by apply block_kept_eq.
Qed.

(** C8. Start from a scope [p] with no variable yet and let the session
    run; [l] lists what the successful [insertVar] calls on [p] returned,
    in order, each with the nesting depth of the backend when it was
    called.  Whatever else ran in between, the [i]-th variable of [l] has
    slot [uint32 i], which is [i] below 2^32, and the depth of its call;
    and [l] is the variable list of [p]. *)
Theorem insertVar_slots (p : loc) (s s' : state) (l : list (Var * Z)) (b : blockCtx) :
  declares p s l s' →
  blocks s !! p = Some b → vlist b = [] →
  (∃ b', blocks s' !! p = Some b' ∧ vlist b' = l.*1) ∧
  (∀ i v d, l !! i = Some (v, d) →
            var_idx v = uint32 (Z.of_nat i) ∧
            var_depth v = d ∧
            ((Z.of_nat i < 2 ^ 32)%Z → var_idx v = Z.of_nat i)).
Proof.
  intros H Hb Hnil.
  assert (Hgoal :
    (∃ b', blocks s' !! p = Some b' ∧ vlist b' = l.*1) ∧
    (∀ i v d, l !! i = Some (v, d) →
              var_idx v = uint32 (Z.of_nat i) ∧ var_depth v = d)).
  { induction H as [s|s l s1 name typ v s2 Hd IH Hins|s l s1 o s2 Hd IH Hne Hrun].
    - split; [exists b; by rewrite Hnil|]. intros i v d Hi. by rewrite lookup_nil in Hi.
    - destruct (IH Hb) as [(b1 & Hb1 & Hv1) Hl].
      apply insertVar_Ok in Hins as (b1' & Hb1' & _ & Hv & ->).
      assert (b1' = b1) as -> by congruence.
      split.
      + eexists. split.
        * simpl. apply list_lookup_insert_eq. by eapply lookup_lt_Some.
        * simpl. by rewrite fmap_app, Hv1.
      + intros i w d Hi. apply lookup_app_Some in Hi as [Hi|[Hlen Hi]]; [by apply Hl|].
        destruct (i - length l) as [|k] eqn:Hk; [|done]. simpl in Hi.
        injection Hi as <- <-. assert (i = length l) as -> by lia.
        rewrite Hv. simpl. rewrite Hv1, length_fmap. done.
    - destruct (IH Hb) as [(b1 & Hb1 & Hv1) Hl]. split; [|done].
      destruct (run_op_block_kept p o s1 s2 Hne Hrun b1 Hb1) as (b2 & Hb2 & _ & Hv2 & _).
      exists b2. split; [done|congruence]. }
  destruct Hgoal as [Hvl Hl]. split; [done|].
  intros i v d Hi. destruct (Hl i v d Hi) as [Hidx Hdepth]. split_and!; try done.
  intros Hlt. rewrite Hidx. unfold uint32. apply Z.mod_small. lia.
Qed.

(** ** The declaration loader *)

Lemma file_kept_eq (p : loc) (s s' : state) :
  blocks s' = blocks s → file_kept p s s'.
Proof. intros Heq b Hb. exists b. by rewrite Heq. Qed.

Lemma file_kept_set_syms (p q : loc) (bq : blockCtx) (m : gmap string iSymbol)
    (s s' : state) :
  blocks s !! q = Some bq → blocks s' = <[q := set_syms m bq]> (blocks s) →
  file_kept p s s'.
Proof.
  intros Hq Heq b Hb. rewrite Heq. destruct (decide (p = q)) as [->|Hne].
  - exists (set_syms m bq). assert (b = bq) as -> by congruence.
    split; [|done]. apply list_lookup_insert_eq. by eapply lookup_lt_Some.
  - exists b. by rewrite list_lookup_insert_ne.
Qed.

Lemma insertFunc_frame (p q : loc) (name : string) (fn : loc) (s s' : state) :
  insertFunc q name fn s = Ok s' →
  file_kept p s s' ∧ files s' = files s ∧ funcs s' = funcs s.
Proof.
  intros H. apply insertFunc_Ok in H as (b & Hb & _ & ->).
  split; [|done]. by eapply file_kept_set_syms.
Qed.

Lemma insertMethod_frame (p q : loc) (tn mn : string) (m : methodDecl) (s s' : state) :
  insertMethod q tn mn m s = Ok s' →
  file_kept p s s' ∧ files s' = files s ∧ funcs s' = funcs s.
Proof.
  intros H. apply insertMethod_Ok in H
    as (b & typ & s1 & td & Hb & _ & [(_ & _ & ->)|(_ & -> & _)] & _ & _ & ->).
  - split; [|done]. by eapply file_kept_set_syms.
  - split; [|done]. by apply file_kept_eq.
Qed.

Lemma import_table_fold (f : File) :
  import_table f = foldl bind_import ∅ (file_import_list f).
Proof. done. Qed.

Lemma loadImport_current (files0 : list fileCtx) (g : loc) (m : gmap string string)
    (spec : ImportSpec) (s s' : state) :
  current_file files0 g m s →
  loadImport ToString path_Base (length files0) spec s = Ok s' →
  current_file files0 g
    (bind_import m (import_name spec, ToString (is_Path spec))) s' ∧
  blocks s' = blocks s ∧ funcs s' = funcs s.
Proof.
  unfold current_file, loadImport, import_name. intros Hcur H.
  apply bind_Ok in H as (name & Hname & H). apply bind_Ok in H as (fc & Hfc & H).
  apply deref_Ok in Hfc. rewrite Hcur, list_lookup_middle in Hfc by done.
  injection Hfc as <-. injection H as <-. simpl. split; [|done].
  rewrite Hcur, insert_app_r_alt by lia. rewrite Nat.sub_diag. simpl.
  unfold bind_import, set_imports. simpl. do 3 f_equal.
  destruct (is_Name spec) as [n|]; [|by injection Hname as <-].
  case_decide; [done|]. by injection Hname as <-.
Qed.

Lemma loadImports_current (files0 : list fileCtx) (g : loc) (m : gmap string string)
    (d : GenDecl) (s s' : state) :
  gd_Tok d = IMPORT →
  current_file files0 g m s →
  loadImports ToString path_Base (length files0) d s = Ok s' →
  current_file files0 g
    (foldl bind_import m (decl_imports (DeclGen d))) s' ∧
  blocks s' = blocks s ∧ funcs s' = funcs s.
Proof.
  intros Htok. unfold loadImports. simpl. rewrite Htok.
  generalize (gd_Specs d). intros specs. revert m s.
  induction specs as [|item specs IH]; intros m s Hcur H; simpl in H.
  - by injection H as <-.
  - apply bind_Ok in H as (s1 & H1 & H). destruct item as [spec| |]; try done.
    apply (loadImport_current files0 g m) in H1 as (Hcur1 & Hb1 & Hf1); [|done].
    apply (IH _ _ Hcur1) in H as (Hcur' & Hb' & Hf'). simpl.
    split_and!; [done|congruence|congruence].
Qed.

Lemma decl_imports_not_import (d : GenDecl) :
  gd_Tok d ≠ IMPORT → decl_imports (DeclGen d) = [].
Proof. simpl. by destruct (gd_Tok d). Qed.

Lemma loadDecl_current (files0 : list fileCtx) (g : loc) (m : gmap string string)
    (decl : Decl) (s s' : state) :
  current_file files0 g m s →
  loadDecl ToRecv ToString path_Base (length files0) decl s = Ok s' →
  current_file files0 g (foldl bind_import m (decl_imports decl)) s' ∧
  file_kept g s s'.
Proof.
  intros Hcur H. destruct decl as [d|d|]; [| |done].
  - simpl in *. unfold loadFunc in H. apply bind_Ok in H as (fc & Hfc & H).
    destruct (fd_Recv d).
    + apply (insertMethod_frame g) in H as (Hk & Hfiles & _).
      split; [|done]. unfold current_file. by rewrite Hfiles.
    + case_decide; [done|]. simpl in H.
      apply (insertFunc_frame g) in H as (Hk & Hfiles & _).
      split; [|done]. unfold current_file. by rewrite Hfiles.
  - destruct (gd_Tok d) eqn:Htok.
    + simpl in H. rewrite Htok in H.
      apply (loadImports_current files0 g m) in H as (Hcur' & Hb & _); try done.
      split; [done|by apply file_kept_eq].
    + rewrite decl_imports_not_import by congruence. simpl in H. rewrite Htok in H.
      apply loadTypes_same in H as ->. split; [done|by apply file_kept_eq].
    + rewrite decl_imports_not_import by congruence. simpl in H. rewrite Htok in H.
      injection H as <-. split; [done|by apply file_kept_eq].
    + rewrite decl_imports_not_import by congruence. simpl in H. rewrite Htok in H.
      apply loadVars_same in H as ->. split; [done|by apply file_kept_eq].
    + simpl in H. by rewrite Htok in H.
Qed.

Lemma loadDecls_current (files0 : list fileCtx) (g : loc) (decls : list Decl)
    (m : gmap string string) (s s' : state) :
  current_file files0 g m s →
  foldlM (loadDecl ToRecv ToString path_Base (length files0)) decls s = Ok s' →
  current_file files0 g
    (foldl bind_import m (concat (decl_imports <$> decls))) s' ∧
  file_kept g s s'.
Proof.
  revert m s. induction decls as [|decl decls IH]; intros m s Hcur H; simpl in H.
  - injection H as <-. split; [done|by apply file_kept_eq].
  - apply bind_Ok in H as (s1 & H1 & H).
    apply (loadDecl_current files0 g m) in H1 as [Hcur1 Hk1]; [|done].
    apply (IH _ _ Hcur1) in H as [Hcur' Hk']. split.
    + rewrite fmap_cons. simpl. by rewrite foldl_app.
    + intros b Hb. destruct (Hk1 b Hb) as (b1 & Hb1 & Hf1).
      destruct (Hk' b1 Hb1) as (b' & Hb' & Hf'). exists b'. split; [done|congruence].
Qed.

(** What [loadFile] leaves behind: a new file context whose import table
    holds the imports of the file, and the scope it was given pointing to
    that context. *)
Lemma loadFile_spec (g : loc) (f : File) (s s' : state) :
  loadFile ToRecv ToString path_Base g f s = Ok s' →
  files s' = files s ++ [{| fc_block := g; imports := import_table f |}] ∧
  ∃ b', blocks s' !! g = Some b' ∧ file b' = Some (length (files s)).
Proof.
  unfold loadFile. simpl. intros H. apply bind_Ok in H as (b & Hb & H).
  apply deref_Ok in Hb. simpl in Hb.
  apply (loadDecls_current (files s) g (Decls f) ∅) in H as [Hcur Hk]; [|done].
  split; [done|].
  destruct (Hk (set_file (Some (length (files s))) b)) as (b' & Hb' & Hf').
  { simpl. apply list_lookup_insert_eq. by eapply lookup_lt_Some. }
  by exists b'.
Qed.

Lemma func_bound_kept (g : loc) (name : string) (fn ctx : loc) (s s' : state) :
  block_kept g s s' → (∃ extra, funcs s' = funcs s ++ extra) →
  func_bound g name fn ctx s → func_bound g name fn ctx s'.
Proof.
  intros Hk [extra Hext] (b & fdecl & Hb & Hsym & Hfn & Hfile & Hname).
  destruct (Hk b Hb) as (b' & Hb' & _ & _ & Hsub).
  exists b', fdecl. split_and!; try done.
  - by eapply lookup_weaken.
  - rewrite Hext. by apply lookup_app_l_Some.
Qed.

Lemma loadDecls_func_bound_kept (g ctx : loc) (name : string) (fn c : loc)
    (decls : list Decl) (s s' : state) :
  foldlM (loadDecl ToRecv ToString path_Base ctx) decls s = Ok s' →
  func_bound g name fn c s → func_bound g name fn c s'.
Proof.
  intros H Hbound. revert Hbound H.
  apply (foldlM_invariant (func_bound g name fn c)).
  intros decl t t' _ Hb Hd. eapply func_bound_kept; [| |exact Hb].
  - by eapply loadDecl_block_kept.
  - by eapply loadDecl_funcs.
Qed.

Lemma loadFile_func_bound_kept (g block : loc) (name : string) (fn c : loc)
    (f : File) (s s' : state) :
  loadFile ToRecv ToString path_Base block f s = Ok s' →
  func_bound g name fn c s → func_bound g name fn c s'.
Proof.
  intros H. apply func_bound_kept.
  - by eapply loadFile_block_kept.
  - by eapply loadFile_funcs.
Qed.

Lemma loadFunc_declares (ctx : loc) (fc : fileCtx) (d : FuncDecl) (s s' : state) :
  files s !! ctx = Some fc → fd_Recv d = None →
  loadFunc ToRecv ctx d s = Ok s' →
  func_bound (fc_block fc) (fd_Name d) (length (funcs s)) ctx s'.
Proof.
  intros Hfc Hrecv H. unfold loadFunc in H. apply deref_Ok in Hfc. rewrite Hfc in H.
  simpl in H. rewrite Hrecv in H. case_decide; [done|]. simpl in H.
  apply insertFunc_Ok in H as (b & Hb & _ & ->). simpl in Hb.
  eexists _, _. split_and!.
  - simpl. apply list_lookup_insert_eq. by eapply lookup_lt_Some.
  - simpl. by rewrite lookup_insert_eq.
  - simpl. by apply list_lookup_middle.
  - done.
  - done.
Qed.

(** A function declared without receiver by a file is bound in the scope
    that the file was loaded into. *)
Lemma loadFile_declares (g : loc) (f : File) (d : FuncDecl) (s s' : state) :
  loadFile ToRecv ToString path_Base g f s = Ok s' →
  DeclFunc d ∈ Decls f → fd_Recv d = None →
  ∃ fn, func_bound g (fd_Name d) fn (length (files s)) s'.
Proof.
  unfold loadFile. simpl. intros H Hin Hrecv. apply bind_Ok in H as (b & Hb & H).
  apply list_elem_of_split in Hin as (pre & post & Hsplit). rewrite Hsplit in H.
  rewrite foldlM_app in H. apply bind_Ok in H as (t & Hpre & H).
  simpl in H. apply bind_Ok in H as (t1 & Hd & H).
  apply (loadDecls_current (files s) g pre ∅) in Hpre as [Hcur _]; [|done].
  simpl in Hd.
  apply (loadFunc_declares _
           {| fc_block := g;
              imports := foldl bind_import ∅ (concat (decl_imports <$> pre)) |}) in Hd;
    [|by rewrite Hcur; apply list_lookup_middle|done].
  eexists. eapply loadDecls_func_bound_kept; [exact H|]. exact Hd.
Qed.

Lemma newBlockCtx_chain (ctx g : loc) (fc : fileCtx) (bg : blockCtx) (s : state) :
  files s !! ctx = Some fc → fc_block fc = g →
  blocks s !! g = Some bg → parent bg = None →
  ∃ s', newBlockCtx ctx s = Ok (length (blocks s), s') ∧
        files s' = files s ∧ funcs s' = funcs s ∧
        scope_chain s' (length (blocks s))
          [{| file := Some ctx; parent := Some g; vlist := []; syms := ∅ |}; bg].
Proof.
  intros Hfc <- Hbg Hpar. unfold newBlockCtx, deref.
  rewrite Hfc. simpl. rewrite Hbg. simpl.
  eexists. split; [done|]. split; [done|]. split; [done|].
  eapply chain_nested.
  - simpl. by apply list_lookup_middle.
  - done.
  - apply chain_global; [|done]. simpl. by apply lookup_app_l_Some.
Qed.

(** Resolution from a scope just opened for the file [ctx] under the
    package scope [g]. *)
Lemma find_in_file_scope (ctx g : loc) (fc : fileCtx) (bg : blockCtx) (name : string)
    (s s3 : state) (blk : loc) :
  files s !! ctx = Some fc → fc_block fc = g →
  blocks s !! g = Some bg → parent bg = None →
  newBlockCtx ctx s = Ok (blk, s3) →
  find blk name s3 =
    match syms bg !! name with
    | Some sym => Ok (Some sym)
    | None => Ok (SymPkg <$> imports fc !! name)
    end.
Proof.
  intros Hfc Hg Hbg Hpar Hnew.
  destruct (newBlockCtx_chain ctx g fc bg s Hfc Hg Hbg Hpar)
    as (s3' & Hnew' & Hfiles3 & _ & Hchain).
  rewrite Hnew' in Hnew. injection Hnew as <- <-.
  rewrite (find_chain _ _ _ _ name Hchain). simpl. rewrite lookup_empty.
  destruct (syms bg !! name); [done|]. simpl.
  unfold deref. by rewrite Hfiles3, Hfc.
Qed.

(** C4. Load file [A] and then file [B] into the package scope [g].
    - A name that [A] imports, that [B] does not import and that the
      package scope does not bind resolves to the import while [A] is the
      file being loaded, and is not found once [B] is: neither from the
      package scope nor from a scope opened for file [B]; a scope opened
      for file [A] still resolves it.
    - A name that only [B] imports is not found from a scope opened for
      file [A].
    - A function that [A] declares without receiver resolves to that
      function, from the package scope and from a scope opened for [B].
    ([B] may be the part of a file loaded so far.) *)
Theorem imports_per_file_declarations_per_package
    (s s1 s2 : state) (g : loc) (bg : blockCtx) (A B : File) :
  blocks s !! g = Some bg → parent bg = None →
  loadFile ToRecv ToString path_Base g A s = Ok s1 →
  loadFile ToRecv ToString path_Base g B s1 = Ok s2 →
  (∀ name path b2,
     import_table A !! name = Some path → import_table B !! name = None →
     blocks s2 !! g = Some b2 → unbound name b2 →
     find g name s1 = Ok (Some (SymPkg path)) ∧
     find g name s2 = Ok None ∧
     (∀ blk s3, newBlockCtx (length (files s1)) s2 = Ok (blk, s3) →
                find blk name s3 = Ok None) ∧
     (∀ blk s3, newBlockCtx (length (files s)) s2 = Ok (blk, s3) →
                find blk name s3 = Ok (Some (SymPkg path)))) ∧
  (∀ name path b2,
     import_table B !! name = Some path → import_table A !! name = None →
     blocks s2 !! g = Some b2 → unbound name b2 →
     ∀ blk s3, newBlockCtx (length (files s)) s2 = Ok (blk, s3) →
               find blk name s3 = Ok None) ∧
  (∀ d, DeclFunc d ∈ Decls A → fd_Recv d = None →
     ∃ fn fdecl,
       funcs s2 !! fn = Some fdecl ∧ fn_file fdecl = length (files s) ∧
       find g (fd_Name d) s2 = Ok (Some (SymFunc fn)) ∧
       findFunc g (fd_Name d) s2 = Ok (inr fn) ∧
       ∀ blk s3, newBlockCtx (length (files s1)) s2 = Ok (blk, s3) →
                 find blk (fd_Name d) s3 = Ok (Some (SymFunc fn))).
Proof.
  intros Hbg Hpar HA HB.
  destruct (loadFile_spec g A s s1 HA) as (HfA & bA & HbA & HfileA).
  destruct (loadFile_spec g B s1 s2 HB) as (HfB & bB & HbB & HfileB).
  destruct (loadFile_block_kept g g A s s1 HA bg Hbg) as (bA' & HbA' & HparA & _ & _).
  assert (bA' = bA) as -> by congruence.
  destruct (loadFile_block_kept g g B s1 s2 HB bA HbA) as (bB' & HbB' & HparB & _ & HsubB).
  assert (bB' = bB) as -> by congruence.
  assert (HparA' : parent bA = None) by congruence.
  assert (HparB' : parent bB = None) by congruence.
  assert (HctxA1 : files s1 !! length (files s)
                   = Some {| fc_block := g; imports := import_table A |}).
  { rewrite HfA. by apply list_lookup_middle. }
  assert (HctxA : files s2 !! length (files s)
                  = Some {| fc_block := g; imports := import_table A |}).
  { rewrite HfB. by apply lookup_app_l_Some. }
  assert (HctxB : files s2 !! length (files s1)
                  = Some {| fc_block := g; imports := import_table B |}).
  { rewrite HfB. by apply list_lookup_middle. }
  split_and!.
  - intros name path b2 HimpA HimpB Hb2 Hun. assert (b2 = bB) as -> by congruence.
    unfold unbound in Hun.
    assert (HunA : syms bA !! name = None) by by eapply lookup_weaken_None.
    split_and!.
    + rewrite (find_global g bA name s1) by done. rewrite HunA, HfileA. simpl.
      unfold deref. rewrite HctxA1. simpl. by rewrite HimpA.
    + rewrite (find_global g bB name s2) by done. rewrite Hun, HfileB. simpl.
      unfold deref. rewrite HctxB. simpl. by rewrite HimpB.
    + intros blk s3 Hnew.
      rewrite (find_in_file_scope _ g _ bB name s2 s3 blk HctxB eq_refl HbB HparB' Hnew).
      rewrite Hun. simpl. by rewrite HimpB.
    + intros blk s3 Hnew.
      rewrite (find_in_file_scope _ g _ bB name s2 s3 blk HctxA eq_refl HbB HparB' Hnew).
      rewrite Hun. simpl. by rewrite HimpA.
  - intros name path b2 HimpB HimpA Hb2 Hun blk s3 Hnew.
    assert (b2 = bB) as -> by congruence. unfold unbound in Hun.
    rewrite (find_in_file_scope _ g _ bB name s2 s3 blk HctxA eq_refl HbB HparB' Hnew).
    rewrite Hun. simpl. by rewrite HimpA.
  - intros d Hd Hrecv.
    destruct (loadFile_declares g A d s s1 HA Hd Hrecv) as (fn & Hbound).
    apply (loadFile_func_bound_kept g g _ _ _ B s1 s2 HB) in Hbound
      as (b2 & fdecl & Hb2 & Hsym & Hfn & Hfile & _).
    assert (b2 = bB) as -> by congruence.
    assert (Hfind : find g (fd_Name d) s2 = Ok (Some (SymFunc fn))).
    { rewrite (find_global g bB _ s2) by done. by rewrite Hsym. }
    exists fn, fdecl. split_and!; try done.
    + unfold findFunc. by rewrite Hfind.
    + intros blk s3 Hnew.
      rewrite (find_in_file_scope _ g _ bB _ s2 s3 blk HctxB eq_refl HbB HparB' Hnew).
      by rewrite Hsym.
Qed.

(** A scope without file context cannot resolve a name that its chain does
    not bind. *)
Lemma find_without_file (s : state) (p : loc) (b : blockCtx) (bs : list blockCtx)
    (name : string) :
  scope_chain s p (b :: bs) → Forall (unbound name) (b :: bs) → file b = None →
  find p name s = Panic NilDeref.
Proof.
  intros Hchain Hun Hfile.
  rewrite (find_chain s p b bs name Hchain), first_binding_unbound by done.
  by rewrite Hfile.
Qed.

(** ** The package assembler *)

Abbreviation NewPackage := (@NewPackage rtype FuncType BlockStmt FieldList BasicLit
                              TypeSpec ValueSpec ToRecv ToString path_Base callees).
Abbreviation load_package := (@load_package rtype FuncType BlockStmt FieldList BasicLit
                                TypeSpec ValueSpec ToRecv ToString path_Base).

(** [NewPackage] on an executable package, from the entry-point lookup on. *)
Lemma NewPackage_main (depth : Z) (pkg : astPackage) (s1 : state) :
  pkg_Name pkg = "main" → load_package depth pkg = Ok s1 →
  ∀ r, findFunc 0 "main" s1 = Ok r →
  ∀ err, r = inl err →
  NewPackage depth pkg
  = Ok (emptyPackage,
        Some (if decide (err = ErrNotFound) then ErrMainFuncNotFound else err)).
Proof.
  intros Hname Hload r Hr err ->.
  unfold NewPackage, NewPackage_session. simpl.
  unfold load_package in Hload. simpl in Hload.
  rewrite Hload. simpl. rewrite Hname. simpl. rewrite Hr. done.
Qed.

Lemma NewPackage_main_panics (depth : Z) (pkg : astPackage) (s1 : state) (e : panic) :
  pkg_Name pkg = "main" → load_package depth pkg = Ok s1 →
  findFunc 0 "main" s1 = Panic e →
  NewPackage depth pkg = Panic e.
Proof.
  intros Hname Hload Hr.
  unfold NewPackage, NewPackage_session. simpl.
  unfold load_package in Hload. simpl in Hload.
  rewrite Hload. simpl. rewrite Hname. simpl. rewrite Hr. done.
Qed.

Lemma load_package_global (depth : Z) (pkg : astPackage) (s1 : state) :
  load_package depth pkg = Ok s1 →
  ∃ b, blocks s1 !! 0 = Some b ∧ parent b = None.
Proof.
  unfold load_package. intros H.
  assert (Hk : block_kept 0 (newGblBlockCtx None (init_state depth)).2 s1).
  { revert H. apply (foldlM_invariant (fun t => block_kept 0 _ t)).
    - intros f t t' _ Ht Hf. eapply block_kept_trans; [exact Ht|].
      by eapply loadFile_block_kept.
    - by apply block_kept_eq. }
  destruct (Hk {| file := None; parent := None; vlist := []; syms := ∅ |})
    as (b & Hb & Hpar & _); [done|].
  by exists b.
Qed.

(** Once a file has been loaded, the package scope has a file context and
    a lookup from it returns. *)
Lemma find_after_load (depth : Z) (pkg : astPackage) (s1 : state) (name : string) :
  pkg_Files pkg ≠ [] → load_package depth pkg = Ok s1 →
  ∃ r, find 0 name s1 = Ok r.
Proof.
  intros Hne Hload.
  destruct (load_package_global depth pkg s1 Hload) as (b & Hb & Hpar).
  unfold load_package in Hload.
  destruct (pkg_Files pkg) as [|f0 fs] using rev_ind; [done|]. clear IHfs Hne.
  rewrite foldlM_app in Hload. apply bind_Ok in Hload as (t & _ & Hlast).
  simpl in Hlast. apply bind_Ok in Hlast as (t1 & Hlast & Heq). injection Heq as ->.
  destruct (loadFile_spec 0 f0 t s1 Hlast) as (Hfiles & b' & Hb' & Hfile).
  assert (b' = b) as -> by congruence.
  rewrite (find_global 0 b name s1) by done.
  destruct (syms b !! name); [by eexists|].
  rewrite Hfile. simpl. unfold deref. rewrite Hfiles, list_lookup_middle by done.
  simpl. by eexists.
Qed.

(** For an executable package with at least one file, the lookup of the
    entry point returns, and [NewPackage] answers an absent [main] with
    [ErrMainFuncNotFound] and a [main] that is not a function with
    [ErrSymbolNotFunc]. *)
Lemma NewPackage_entry_errors (depth : Z) (pkg : astPackage) (s1 : state) :
  pkg_Name pkg = "main" → load_package depth pkg = Ok s1 →
  (pkg_Files pkg ≠ [] → ∃ r, find 0 "main" s1 = Ok r) ∧
  (find 0 "main" s1 = Ok None →
   NewPackage depth pkg = Ok (emptyPackage, Some ErrMainFuncNotFound)) ∧
  (∀ sym, find 0 "main" s1 = Ok (Some sym) → (∀ f, sym ≠ SymFunc f) →
          NewPackage depth pkg = Ok (emptyPackage, Some ErrSymbolNotFunc)).
Proof.
  intros Hname Hload. split_and!.
  - intros Hne. by eapply find_after_load.
  - intros Hfind.
    rewrite (NewPackage_main depth pkg s1 Hname Hload (inl ErrNotFound)) with (err := ErrNotFound);
      [done| |done].
    unfold findFunc. by rewrite Hfind.
  - intros sym Hfind Hsym.
    rewrite (NewPackage_main depth pkg s1 Hname Hload (inl ErrSymbolNotFunc))
      with (err := ErrSymbolNotFunc); [done| |done].
    unfold findFunc. rewrite Hfind. simpl.
    destruct sym as [v|path|f|t]; try done. by destruct (Hsym f).
Qed.

(** C5, on the code: for the executable package without any file the
    package scope was never given a file context, and the lookup of
    [main] dereferences the nil [file]: [NewPackage] panics instead of
    returning [ErrMainFuncNotFound]. *)
Theorem NewPackage_main_without_files_panics (depth : Z) :
  NewPackage depth {| pkg_Name := "main"; pkg_Files := [] |} = Panic NilDeref.
Proof.
  set (b := {| file := None; parent := None; vlist := []; syms := ∅ |} : blockCtx).
  set (s0 := (newGblBlockCtx None (init_state depth)).2 : state).
  assert (Hfind : find 0 "main" s0 = Panic NilDeref).
  { apply (find_without_file s0 0 b []); [by apply chain_global| |done].
    by repeat constructor. }
  apply (NewPackage_main_panics depth _ s0); [done|done|].
  unfold findFunc. by rewrite Hfind.
Qed.

(** C6. When [NewPackage] returns an error, the package it returns with it
    is the zero value [&Package{}]: no variable and a nil symbol table,
    whatever has been loaded. *)
Theorem NewPackage_error_returns_empty (depth : Z) (pkg : astPackage) (p : Package)
    (e : error) :
  NewPackage depth pkg = Ok (p, Some e) → p = emptyPackage.
Proof.
  unfold NewPackage, NewPackage_session. simpl. intros H.
  apply bind_Ok in H as ([[p' e'] s'] & H & Heq). simpl in Heq.
  injection Heq as -> ->.
  apply bind_Ok in H as (s1 & _ & H). case_decide.
  - apply bind_Ok in H as (r & _ & H). destruct r as [err|entry].
    + by injection H as <- _ _.
    + apply bind_Ok in H as (fd & _ & H). apply bind_Ok in H as (b & _ & H).
      apply bind_Ok in H as (s3 & _ & H). apply bind_Ok in H as (s4 & _ & H).
      apply bind_Ok in H as (b4 & _ & H). by injection H.
  - apply bind_Ok in H as (b & _ & H). by injection H.
Qed.

(** C10. A name that no scope of the chain binds and that the import table
    of the starting scope's file binds is found by [find], as the package
    path, so that each typed lookup answers with its kind-mismatch error
    and not with [ErrNotFound].  When the session is that of an executable
    package after loading, the scope is the package scope and the name is
    [main], [NewPackage] returns [ErrSymbolNotFunc]. *)
Theorem import_only_name_is_kind_mismatch
    (s : state) (p : loc) (bs : list blockCtx) (name : string)
    (b0 : blockCtx) (fp : loc) (fc : fileCtx) (path : string) :
  scope_chain s p bs → Forall (unbound name) bs →
  blocks s !! p = Some b0 → file b0 = Some fp → files s !! fp = Some fc →
  imports fc !! name = Some path →
  find p name s = Ok (Some (SymPkg path)) ∧
  findFunc p name s = Ok (inl ErrSymbolNotFunc) ∧
  findVar p name s = Ok (inl ErrSymbolNotVariable) ∧
  findType p name s = Ok (inl ErrSymbolNotType) ∧
  (∀ depth pkg,
     pkg_Name pkg = "main" → load_package depth pkg = Ok s → p = 0 → name = "main" →
     NewPackage depth pkg = Ok (emptyPackage, Some ErrSymbolNotFunc)).
Proof.
  intros Hchain Hun Hb0 Hfile Hfc Himp.
  assert (Hfind : find p name s = Ok (Some (SymPkg path))).
  { destruct (scope_chain_head _ _ _ Hchain) as (b & bs' & -> & Hb).
    assert (b = b0) as -> by congruence.
    rewrite (find_chain s p b0 bs' name Hchain), first_binding_unbound by done.
    rewrite Hfile. simpl. apply deref_Ok in Hfc. rewrite Hfc. simpl. by rewrite Himp. }
  assert (HfindFunc : findFunc p name s = Ok (inl ErrSymbolNotFunc)).
  { unfold findFunc. by rewrite Hfind. }
  split_and!; try done.
  - unfold findVar. by rewrite Hfind.
  - unfold findType. by rewrite Hfind.
  - intros depth pkg Hname Hload -> ->.
    by rewrite (NewPackage_main depth pkg s Hname Hload (inl ErrSymbolNotFunc))
      with (err := ErrSymbolNotFunc).
Qed.

(** ** The assembler as a whole *)

(** The loader leaves the scheduler alone: it only creates function
    symbols, none of them used. *)
Lemma sched_untouched_refl (s : state) : sched_untouched s s.
Proof. split_and!; try done. exists []. by rewrite app_nil_r. Qed.

Lemma sched_untouched_trans (s1 s2 s3 : state) :
  sched_untouched s1 s2 → sched_untouched s2 s3 → sched_untouched s1 s3.
Proof.
  intros (Hu1 & Hc1 & e1 & Hf1 & He1) (Hu2 & Hc2 & e2 & Hf2 & He2).
  split_and!; try congruence. exists (e1 ++ e2). split.
  - by rewrite Hf2, Hf1, (assoc_L (++)).
  - by apply Forall_app.
Qed.

Lemma sched_untouched_eq (s s' : state) :
  usedfns s' = usedfns s → compiled s' = compiled s → funcs s' = funcs s →
  sched_untouched s s'.
Proof. intros ? ? Hf. split_and!; try done. exists []. by rewrite app_nil_r. Qed.

Lemma loadDecl_sched_untouched (ctx : loc) (decl : Decl) (s s' : state) :
  loadDecl ToRecv ToString path_Base ctx decl s = Ok s' → sched_untouched s s'.
Proof.
  destruct decl as [d|d|]; simpl; intros H; [| |done].
  - unfold loadFunc in H. apply bind_Ok in H as (fc & _ & H).
    destruct (fd_Recv d).
    + apply insertMethod_Ok in H
        as (b & typ & s1 & td & _ & _ & [(_ & _ & ->)|(_ & -> & _)] & _ & _ & ->);
        by apply sched_untouched_eq.
    + case_decide; [done|]. simpl in H. apply insertFunc_Ok in H as (b & _ & _ & ->).
      split_and!; try done. eexists. split; [done|]. by repeat constructor.
  - destruct (gd_Tok d); try done.
    + unfold loadImports in H. revert H.
      apply (foldlM_invariant (sched_untouched s)); [|apply sched_untouched_refl].
      intros item t t' _ Ht Hi. destruct item; try done.
      eapply sched_untouched_trans; [exact Ht|].
      unfold loadImport in Hi. crack Hi; subst; by apply sched_untouched_eq.
    + apply loadTypes_same in H as ->. apply sched_untouched_refl.
    + injection H as <-. apply sched_untouched_refl.
    + apply loadVars_same in H as ->. apply sched_untouched_refl.
Qed.

Lemma loadFile_sched_untouched (block : loc) (f : File) (s s' : state) :
  loadFile ToRecv ToString path_Base block f s = Ok s' → sched_untouched s s'.
Proof.
  unfold loadFile. simpl. intros H. apply bind_Ok in H as (b & Hb & H).
  match type of H with foldlM _ _ ?t = _ => set (s2 := t) in H end.
  apply (sched_untouched_trans s s2 s'); [by apply sched_untouched_eq|].
  revert H. apply (foldlM_invariant (sched_untouched s2)); [|apply sched_untouched_refl].
  intros decl t t' _ Ht Hd. eapply sched_untouched_trans; [exact Ht|].
  by eapply loadDecl_sched_untouched.
Qed.

Lemma load_package_fresh (depth : Z) (pkg : astPackage) (s1 : state) :
  load_package depth pkg = Ok s1 → fresh_sched s1.
Proof.
  unfold load_package. intros H.
  assert (Hu : sched_untouched (newGblBlockCtx None (init_state depth)).2 s1).
  { revert H. apply (foldlM_invariant (sched_untouched _)); [|apply sched_untouched_refl].
    intros f t t' _ Ht Hf. eapply sched_untouched_trans; [exact Ht|].
    by eapply loadFile_sched_untouched. }
  destruct Hu as (Hu & Hc & extra & Hf & Hextra). simpl in *.
  split_and!; try done. intros f fd Hfd. rewrite Hf in Hfd.
  eapply (proj1 (Forall_forall _ _) Hextra). apply list_elem_of_lookup. by exists f.
Qed.

(** Every function symbol bound in a scope has been allocated. *)
Lemma insert_syms_bound (q : loc) (bq : blockCtx) (name : string) (sym : iSymbol)
    (s s' : state) :
  blocks s !! q = Some bq →
  blocks s' = <[q := set_syms (<[name := sym]> (syms bq)) bq]> (blocks s) →
  length (funcs s) ≤ length (funcs s') →
  (∀ fn, sym = SymFunc fn → fn < length (funcs s')) →
  syms_bound s → syms_bound s'.
Proof.
  intros Hq Hblocks Hlen Hsym Hs p b n fn Hb Hn. rewrite Hblocks in Hb.
  destruct (decide (p = q)) as [->|Hne].
  - rewrite list_lookup_insert_eq in Hb by by eapply lookup_lt_Some.
    injection Hb as <-. simpl in Hn. destruct (decide (n = name)) as [->|Hnn].
    + rewrite lookup_insert_eq in Hn. injection Hn as ->. by apply Hsym.
    + rewrite lookup_insert_ne in Hn by done.
      eapply Nat.lt_le_trans; [|exact Hlen]. by eapply Hs.
  - rewrite list_lookup_insert_ne in Hb by done.
    eapply Nat.lt_le_trans; [|exact Hlen]. by eapply Hs.
Qed.

Lemma syms_bound_eq (s s' : state) :
  blocks s' = blocks s → length (funcs s) ≤ length (funcs s') →
  syms_bound s → syms_bound s'.
Proof.
  intros Hb Hlen Hs p b n fn Hp Hn. rewrite Hb in Hp.
  eapply Nat.lt_le_trans; [|exact Hlen]. by eapply Hs.
Qed.

Lemma loadDecl_syms_bound (ctx : loc) (decl : Decl) (s s' : state) :
  loadDecl ToRecv ToString path_Base ctx decl s = Ok s' →
  syms_bound s → syms_bound s'.
Proof.
  destruct decl as [d|d|]; simpl; intros H; [| |done].
  - unfold loadFunc in H. apply bind_Ok in H as (fc & _ & H).
    destruct (fd_Recv d).
    + apply insertMethod_Ok in H
        as (b & typ & s1 & td & Hb & _ & [(_ & _ & ->)|(_ & -> & _)] & _ & _ & ->).
      * intros Hs. eapply (insert_syms_bound _ _ _ _ s); [exact Hb|reflexivity| |done|done].
        done.
      * by apply syms_bound_eq.
    + case_decide; [done|]. simpl in H. apply insertFunc_Ok in H as (b & Hb & _ & ->).
      simpl in Hb. intros Hs. eapply (insert_syms_bound _ _ _ _ s); try done.
      * simpl. rewrite length_app. lia.
      * intros fn [= <-]. simpl. rewrite length_app. simpl. lia.
  - destruct (gd_Tok d); try done.
    + pose proof (loadImports_funcs _ _ _ _ H) as Hf.
      apply loadImports_scopes in H as [Hb _]. apply syms_bound_eq; [done|].
      by rewrite Hf.
    + by apply loadTypes_same in H as ->.
    + by injection H as <-.
    + by apply loadVars_same in H as ->.
Qed.

Lemma load_package_syms_bound (depth : Z) (pkg : astPackage) (s1 : state) :
  load_package depth pkg = Ok s1 → syms_bound s1.
Proof.
  unfold load_package. apply (foldlM_invariant syms_bound).
  - intros f t t' _ Ht Hf. unfold loadFile in Hf. simpl in Hf.
    apply bind_Ok in Hf as (b & Hb & Hf). apply deref_Ok in Hb. simpl in Hb.
    revert Hf. apply (foldlM_invariant syms_bound).
    + intros decl u u' _. intros Hu Hd. by eapply loadDecl_syms_bound.
    + intros p bp n fn Hp Hn. simpl in *.
      destruct (decide (p = 0)) as [->|Hne].
      * rewrite list_lookup_insert_eq in Hp by by eapply lookup_lt_Some.
        injection Hp as <-. by eapply Ht.
      * rewrite list_lookup_insert_ne in Hp by done. by eapply Ht.
  - intros p bp n fn Hp Hn. simpl in Hp. destruct p; [|done].
    injection Hp as <-. done.
Qed.

(** An executable package whose [main] is a function and whose call graph
    stays within the loaded functions: [NewPackage] returns the package
    scope's variables and symbols, the worklist is empty, and [compile] has
    run exactly once for each function called from the body of [main] or
    from a lowered body, and for no other function. *)
Lemma NewPackage_lowers_once (depth : Z) (pkg : astPackage) (s1 : state) (entry : loc) :
  pkg_Name pkg = "main" → load_package depth pkg = Ok s1 →
  findFunc 0 "main" s1 = Ok (inr entry) →
  call_graph_closed callees s1 →
  ∃ (b4 : blockCtx) (s4 : state),
    NewPackage_session ToRecv ToString path_Base callees depth pkg
    = Ok ({| pk_vlist := vlist b4; pk_syms := Some (syms b4) |}, None, s4) ∧
    blocks s4 !! 0 = Some b4 ∧ usedfns s4 = [] ∧
    (∀ f, f ∈ callees entry → times_compiled s4 f = 1) ∧
    (∀ g f, g ∈ compiled s4 → f ∈ callees g → times_compiled s4 f = 1) ∧
    (∀ f, f ∈ compiled s4 →
          f ∈ callees entry ∨ ∃ g, g ∈ compiled s4 ∧ f ∈ callees g) ∧
    (∀ f, times_compiled s4 f ≤ 1).
Proof.
  intros Hname Hload Hentry Hclosed.
  pose proof (load_package_fresh depth pkg s1 Hload) as Hfresh.
  pose proof (load_package_syms_bound depth pkg s1 Hload) as Hbound.
  destruct (load_package_global depth pkg s1 Hload) as (b & Hb & Hpar).
  assert (Hvalid : entry < length (funcs s1)).
  { unfold findFunc in Hentry. apply bind_Ok in Hentry as (v & Hv & Hentry).
    destruct v as [[| |f|]|]; try done. injection Hentry as ->.
    rewrite (find_global 0 b "main" s1) in Hv by done.
    destruct (syms b !! "main") as [sym|] eqn:Hsym.
    - injection Hv as ->. by eapply Hbound.
    - apply bind_Ok in Hv as (im & _ & Hv). by destruct (im !! "main"). }
  destruct (deref_valid _ _ Hvalid) as (fd & Hfd & _).
  set (s2 := set_blocks (<[0 := set_file (Some (fn_file fd)) b]> (blocks s1)) s1).
  assert (Hfresh2 : fresh_sched s2) by done.
  pose proof (fresh_sched_inv s2 Hfresh2) as Hinv2.
  destruct Hfresh2 as (Hu0 & Hc0 & Hf0).
  destruct (foldlM_use_defined (callees entry) s2) as [s3 H3].
  { intros f Hf. by eapply Hclosed. }
  assert (Hj3 : justified (callees entry) [] s3).
  { assert (Hj2 : justified (callees entry) [] s2).
    { intros f (fd' & Hfd' & Hused). rewrite (Hf0 _ _ Hfd') in Hused. done. }
    revert Hj2 H3. apply (foldlM_invariant (justified (callees entry) [])).
    intros f t t' Hf. by apply use_justified_direct. }
  assert (Hm3 : callees_marked s3).
  { intros g f Hg. rewrite (foldlM_use_compiled _ _ _ H3), Hc0 in Hg.
    by apply elem_of_nil in Hg. }
  assert (Hclosed3 : call_graph_closed callees s3).
  { intros f g. rewrite (foldlM_use_length_funcs _ _ _ H3). apply Hclosed. }
  pose proof (foldlM_use_sched_inv _ _ _ _ Hinv2 H3) as Hinv3.
  destruct (resolveFuncs_loop_spec (callees entry) (S (sched_measure s3)) s3)
    as (s4 & H4 & Hempty & [Hnd Hiff] & Hj4 & Hm4 & Hmono); try done; [lia|].
  rewrite Hempty in Hnd, Hiff. simpl in Hnd, Hiff.
  assert (Hb4 : blocks s4 !! 0 = Some (set_file (Some (fn_file fd)) b)).
  { apply resolveFuncs_loop_scopes in H4 as (-> & _).
    apply foldlM_use_scopes in H3 as (-> & _). simpl.
    apply list_lookup_insert_eq. by eapply lookup_lt_Some. }
  exists (set_file (Some (fn_file fd)) b), s4. split_and!; try done.
  - unfold NewPackage_session. simpl. unfold load_package in Hload. simpl in Hload.
    rewrite Hload. simpl. rewrite Hname. simpl. rewrite Hentry. simpl.
    rewrite Hfd. simpl. apply deref_Ok in Hb. rewrite Hb. simpl.
    unfold compileBlockStmt. fold s2. rewrite H3. simpl.
    unfold resolveFuncs. rewrite H4. simpl.
    apply deref_Ok in Hb4. by rewrite Hb4.
  - intros f Hf. apply NoDup_count_one; [done|]. apply Hiff, Hmono.
    by eapply foldlM_use_marks.
  - intros g f Hg Hf. apply NoDup_count_one; [done|]. apply Hiff. by eapply Hm4.
  - intros f Hf. apply Hiff in Hf. apply Hj4 in Hf. done.
  - apply NoDup_ListNoDup in Hnd. by apply (List.NoDup_count_occ Nat.eq_dec).
Qed.

(** ** No run of the assembler is cut short by the fuel *)

Lemma bind_no_diverge {A B : Type} (m : res A) (k : A → res B) :
  m ≠ Diverge → (∀ a, m = Ok a → k a ≠ Diverge) → (m ≫= k) ≠ Diverge.
Proof. destruct m; simpl; intros Hm Hk; [by apply Hk|done|done]. Qed.

Lemma foldlM_no_diverge {S X : Type} (I : S → Prop) (body : X → S → res S)
    (xs : list X) (s : S) :
  (∀ x t, I t → body x t ≠ Diverge) →
  (∀ x t t', I t → body x t = Ok t' → I t') →
  I s → foldlM body xs s ≠ Diverge.
Proof.
  intros Hbody HI. revert s. induction xs as [|x xs IH]; intros s Hs; simpl; [done|].
  apply bind_no_diverge; [by apply Hbody|]. intros t Ht. apply IH. by eapply HI.
Qed.

Lemma deref_no_diverge {A : Type} (arena : list A) (p : loc) : deref arena p ≠ Diverge.
Proof. unfold deref. by destruct (arena !! p). Qed.

Lemma use_no_diverge (f : loc) (s : state) : use f s ≠ Diverge.
Proof.
  unfold use. apply bind_no_diverge; [apply deref_no_diverge|].
  intros fd _. by destruct (used fd).
Qed.

Lemma find_global_no_diverge (p : loc) (b : blockCtx) (name : string) (s : state) :
  blocks s !! p = Some b → parent b = None → find p name s ≠ Diverge.
Proof.
  intros Hb Hpar. rewrite (find_global p b name s) by done.
  destruct (syms b !! name); [done|]. apply bind_no_diverge; [|done].
  unfold file_imports. destruct (file b); [|done].
  apply bind_no_diverge; [apply deref_no_diverge|done].
Qed.

Lemma exists_no_diverge (p : loc) (name : string) (s : state) :
  exists_ p name s ≠ Diverge.
Proof.
  unfold exists_. apply bind_no_diverge; [apply deref_no_diverge|]. intros b _.
  destruct (syms b !! name); [done|]. destruct (parent b); [done|].
  apply bind_no_diverge; [|done]. unfold file_imports. destruct (file b); [|done].
  apply bind_no_diverge; [apply deref_no_diverge|done].
Qed.

Lemma insertFunc_no_diverge (p : loc) (name : string) (fn : loc) (s : state) :
  insertFunc p name fn s ≠ Diverge.
Proof.
  unfold insertFunc. apply bind_no_diverge; [apply exists_no_diverge|].
  intros [] _; [done|]. apply bind_no_diverge; [apply deref_no_diverge|done].
Qed.

(** [insertMethod] searches from a scope without parent only. *)
Lemma insertMethod_no_diverge (p : loc) (tn mn : string) (m : methodDecl) (s : state) :
  insertMethod p tn mn m s ≠ Diverge.
Proof.
  unfold insertMethod. apply bind_no_diverge; [apply deref_no_diverge|].
  intros b Hb. apply deref_Ok in Hb. destruct (parent b) eqn:Hpar; [done|].
  apply bind_no_diverge.
  - rewrite findType_find. apply bind_no_diverge; [by eapply find_global_no_diverge|].
    by intros [[]|] _.
  - intros r _. apply bind_no_diverge.
    + destruct r as [[]|t]; try done.
      apply bind_no_diverge; [apply deref_no_diverge|]. intros td _.
      by destruct (Alias td).
    + intros [typ s1] _. apply bind_no_diverge; [apply deref_no_diverge|].
      intros td _. destruct (Methods td) as [ms|]; [|done]. by destruct (ms !! mn).
Qed.

Lemma loadDecl_no_diverge (ctx : loc) (decl : Decl) (s : state) :
  loadDecl ToRecv ToString path_Base ctx decl s ≠ Diverge.
Proof.
  destruct decl as [d|d|]; simpl; [| |done].
  - unfold loadFunc. apply bind_no_diverge; [apply deref_no_diverge|]. intros fc _.
    destruct (fd_Recv d); [apply insertMethod_no_diverge|].
    case_decide; [done|]. simpl. apply insertFunc_no_diverge.
  - destruct (gd_Tok d); try done.
    + unfold loadImports. apply (foldlM_no_diverge (fun _ => True)); try done.
      intros [spec| |] t _; try done. unfold loadImport.
      apply bind_no_diverge.
      * destruct (is_Name spec); [|done]. by case_decide.
      * intros name _. apply bind_no_diverge; [apply deref_no_diverge|done].
    + unfold loadTypes. apply (foldlM_no_diverge (fun _ => True)); try done.
      by intros [| |] t _.
    + unfold loadVars. apply (foldlM_no_diverge (fun _ => True)); try done.
      by intros [| |] t _.
Qed.

Lemma loadFile_no_diverge (block : loc) (f : File) (s : state) :
  loadFile ToRecv ToString path_Base block f s ≠ Diverge.
Proof.
  unfold loadFile. simpl. apply bind_no_diverge; [apply deref_no_diverge|].
  intros b _. apply (foldlM_no_diverge (fun _ => True)); try done.
  intros decl t _. apply loadDecl_no_diverge.
Qed.

(** [NewPackage] returns or panics: neither the walk of [find] nor the
    loop of [resolveFuncs] runs for ever. *)
Lemma NewPackage_no_diverge (depth : Z) (pkg : astPackage) :
  NewPackage depth pkg ≠ Diverge.
Proof.
  unfold NewPackage. apply bind_no_diverge; [|done].
  unfold NewPackage_session. simpl. apply bind_no_diverge.
  - apply (foldlM_no_diverge (fun _ => True)); try done.
    intros f t _. apply loadFile_no_diverge.
  - intros s1 Hload. destruct (load_package_global depth pkg s1 Hload) as (b & Hb & Hpar).
    case_decide.
    + apply bind_no_diverge.
      * unfold findFunc. apply bind_no_diverge; [by eapply find_global_no_diverge|].
        by intros [[]|] _.
      * intros [err|entry] _; [done|].
        apply bind_no_diverge; [apply deref_no_diverge|]. intros fd _.
        apply bind_no_diverge; [apply deref_no_diverge|]. intros b1 _.
        apply bind_no_diverge.
        { unfold compileBlockStmt. apply (foldlM_no_diverge (fun _ => True)); try done.
          intros f t _. apply use_no_diverge. }
        intros s3 _. apply bind_no_diverge; [apply resolveFuncs_total|].
        intros s4 _. apply bind_no_diverge; [apply deref_no_diverge|done].
    + apply bind_no_diverge; [apply deref_no_diverge|done].
Qed.

(** * Further properties of the code *)

(** ** The worklist after a series of [use] calls *)

Lemma mark_order_spec (seen fs : list loc) :
  NoDup (mark_order seen fs) ∧
  (∀ f, f ∈ mark_order seen fs ↔ f ∈ fs ∧ f ∉ seen) ∧
  mark_order seen fs `sublist_of` fs.
Proof.
  clear ToRecv ToString path_Base callees.
  revert seen. induction fs as [|f fs IH]; intros seen; simpl.
  - split_and!; [constructor| |done]. intros f. rewrite elem_of_nil. tauto.
  - case_decide as Hf.
    + destruct (IH seen) as (Hnd & Hin & Hsub). split_and!; [done| |by apply sublist_cons].
      intros g. rewrite Hin, elem_of_cons. split; [tauto|].
      intros [[->|Hg] Hns]; [done|tauto].
    + destruct (IH (f :: seen)) as (Hnd & Hin & Hsub).
      split_and!; [| |by apply sublist_skip].
      * constructor; [|done]. rewrite Hin, elem_of_cons. tauto.
      * intros g. rewrite !elem_of_cons, Hin, elem_of_cons.
        destruct (decide (g = f)) as [->|Hne]; [tauto|]. tauto.
Qed.

Lemma foldlM_use_mark_order (fs seen : list loc) (s : state) :
  (∀ f, f ∈ fs → f < length (funcs s)) →
  (∀ f, is_used s f ↔ f ∈ seen) →
  ∃ s', foldlM use fs s = Ok s' ∧
        usedfns s' = usedfns s ++ mark_order seen fs ∧
        (∀ f, is_used s' f ↔ f ∈ seen ∨ f ∈ fs).
Proof.
  clear ToRecv ToString path_Base callees.
  revert seen s. induction fs as [|f fs IH]; intros seen s Hvalid Hseen; simpl.
  - exists s. rewrite app_nil_r. split_and!; try done.
    intros f. rewrite Hseen, elem_of_nil. tauto.
  - destruct (use_defined f s) as [s1 H1]; [apply Hvalid; by left|].
    rewrite H1. simpl.
    assert (Hvalid1 : ∀ g, g ∈ fs → g < length (funcs s1)).
    { intros g Hg. rewrite (use_length_funcs _ _ _ H1). apply Hvalid. by right. }
    pose proof H1 as Hcase. apply use_cases in Hcase as [[Hu ->]|(fd & Hf & Hu & ->)].
    + assert (Hin : f ∈ seen) by by apply Hseen.
      destruct (IH seen s Hvalid1 Hseen) as (s' & Hs' & Hw & Hflags).
      exists s'. rewrite decide_True by done. split_and!; try done.
      intros g. rewrite Hflags, elem_of_cons.
      split; [tauto|]. intros [Hg|[->|Hg]]; tauto.
    + assert (Hnin : f ∉ seen).
      { intros Hin. apply Hseen in Hin as (fd' & Hf' & Hu'). congruence. }
      destruct (IH (f :: seen) _ Hvalid1) as (s' & Hs' & Hw & Hflags).
      { intros g. rewrite (is_used_insert s f g fd _ Hf), Hseen, elem_of_cons. tauto. }
      exists s'. rewrite decide_False by done. split_and!; try done.
      * rewrite Hw. simpl. by rewrite <- (assoc_L (++)).
      * intros g. rewrite Hflags, !elem_of_cons. tauto.
Qed.

(** X1. On a session in which no function is used yet, marking the
    functions of [fs] one after the other succeeds and appends to the
    worklist each distinct function of [fs] once, in the order in which
    [fs] first mentions it; afterwards exactly the functions of [fs] are
    flagged used. *)
Theorem use_all_appends_first_marks (s : state) (fs : list loc) :
  (∀ f, f ∈ fs → f < length (funcs s)) →
  (∀ f fd, funcs s !! f = Some fd → used fd = false) →
  ∃ s', foldlM use fs s = Ok s' ∧
        usedfns s' = usedfns s ++ mark_order [] fs ∧
        NoDup (mark_order [] fs) ∧
        (∀ f, f ∈ mark_order [] fs ↔ f ∈ fs) ∧
        mark_order [] fs `sublist_of` fs ∧
        (∀ f, is_used s' f ↔ f ∈ fs).
Proof.
  clear ToRecv ToString path_Base callees.
  intros Hvalid Hunused.
  destruct (foldlM_use_mark_order fs [] s Hvalid) as (s' & Hs' & Hw & Hflags).
  { intros f. rewrite elem_of_nil. split; [|done].
    intros (fd & Hfd & Hu). rewrite (Hunused _ _ Hfd) in Hu. done. }
  destruct (mark_order_spec [] fs) as (Hnd & Hin & Hsub).
  exists s'. split_and!; try done.
  - intros f. rewrite Hin, elem_of_nil. tauto.
  - intros f. rewrite Hflags, elem_of_nil. tauto.
Qed.

(** ** Declaring and resolving in one scope *)

Lemma find_own_binding (p : loc) (b : blockCtx) (name : string) (sym : iSymbol)
    (s : state) :
  blocks s !! p = Some b → syms b !! name = Some sym →
  find p name s = Ok (Some sym).
Proof.
  intros Hb Hsym. unfold find. simpl. apply deref_Ok in Hb. rewrite Hb. simpl.
  by rewrite Hsym.
Qed.

Lemma exists_can_declare (p : loc) (b : blockCtx) (name : string) (s : state) :
  blocks s !! p = Some b →
  exists_ p name s = Ok false ↔ can_declare s b name.
Proof.
  intros Hb. unfold exists_, can_declare. apply deref_Ok in Hb. rewrite Hb. simpl.
  destruct (syms b !! name) as [sym|]; [split; [done|by intros [? _]]|].
  destruct (parent b) as [q|]; [done|].
  unfold file_imports. destruct (file b) as [fp|]; simpl.
  - unfold deref. destruct (files s !! fp) as [fc|] eqn:Hfc; simpl.
    + destruct (imports fc !! name) as [path|] eqn:Him; simpl.
      * split; [done|]. intros [_ (fp' & fc' & [= <-] & Hfc' & Him')]. congruence.
      * split; [|done]. intros _. split; [done|]. by exists fp, fc.
    + split; [done|]. intros [_ (fp' & fc' & [= <-] & Hfc' & _)]. congruence.
  - split; [done|]. by intros [_ (fp' & fc' & [=] & _)].
Qed.

(** X2. [insertVar] and [insertFunc] succeed exactly when the name is free
    in the scope itself or, for the package scope, free in the scope and in
    the import table of its current file.  Bindings of enclosing scopes do
    not count: an inner scope may declare a name that an outer one binds. *)
Theorem declaration_succeeds_iff (s : state) (p : loc) (b : blockCtx) (name : string) :
  blocks s !! p = Some b →
  (∀ typ, (∃ v s', insertVar p name typ s = Ok (v, s')) ↔ can_declare s b name) ∧
  (∀ fn, (∃ s', insertFunc p name fn s = Ok s') ↔ can_declare s b name).
Proof.
  intros Hb. pose proof (exists_can_declare p b name s Hb) as Hiff. split.
  - intros typ. rewrite <- Hiff. split.
    + intros (v & s' & H). by apply insertVar_Ok in H as (_ & _ & Hex & _).
    + intros Hex. unfold insertVar. rewrite Hex. simpl.
      apply deref_Ok in Hb. rewrite Hb. simpl. by eexists _, _.
  - intros fn. rewrite <- Hiff. split.
    + intros (s' & H). by apply insertFunc_Ok in H as (_ & _ & Hex & _).
    + intros Hex. unfold insertFunc. rewrite Hex. simpl.
      apply deref_Ok in Hb. rewrite Hb. simpl. by eexists.
Qed.

Lemma declared_shape (p : loc) (name : string) (sym : iSymbol) (s s' : state) :
  declared p name sym s s' →
  ∃ b vl, blocks s !! p = Some b ∧ syms b !! name = None ∧
          files s' = files s ∧
          blocks s' = <[p := {| file := file b; parent := parent b; vlist := vl;
                                syms := <[name := sym]> (syms b) |}]> (blocks s).
Proof.
  intros [(typ & v & -> & H)|(fn & -> & H)].
  - apply insertVar_Ok in H as (b & Hb & Hex & _ & ->).
    apply exists_false_unbound in Hex as (b' & Hb' & Hun).
    assert (b' = b) as -> by congruence. by eexists b, _.
  - apply insertFunc_Ok in H as (b & Hb & Hex & ->).
    apply exists_false_unbound in Hex as (b' & Hb' & Hun).
    assert (b' = b) as -> by congruence. by eexists b, _.
Qed.

(** X3. A name just declared in a scope resolves, from that scope, to the
    symbol that was declared, whatever enclosing scopes and imports bind:
    the typed lookup of its kind returns it and the other typed lookups
    answer with their kind-mismatch error. *)
Theorem declared_symbol_resolves (s s' : state) (p : loc) (name : string) (sym : iSymbol) :
  declared p name sym s s' →
  find p name s' = Ok (Some sym) ∧
  exists_ p name s' = Ok true ∧
  findVar p name s'
  = Ok (match sym with SymVar v => inr v | _ => inl ErrSymbolNotVariable end) ∧
  findFunc p name s'
  = Ok (match sym with SymFunc fn => inr fn | _ => inl ErrSymbolNotFunc end) ∧
  findType p name s' = Ok (inl ErrSymbolNotType).
Proof.
  intros H.
  assert (Hkind : (∃ v, sym = SymVar v) ∨ (∃ fn, sym = SymFunc fn)).
  { destruct H as [(typ & v & -> & _)|(fn & -> & _)]; eauto. }
  destruct (declared_shape p name sym s s' H) as (b & vl & Hb & Hun & Hfiles & Hblocks).
  assert (Hfind : find p name s' = Ok (Some sym)).
  { eapply find_own_binding.
    - rewrite Hblocks. apply list_lookup_insert_eq. by eapply lookup_lt_Some.
    - simpl. by rewrite lookup_insert_eq. }
  split_and!; try done.
  - eapply exists_true_iff.
    + rewrite Hblocks. apply list_lookup_insert_eq. by eapply lookup_lt_Some.
    + simpl. rewrite lookup_insert_eq. by eexists.
  - unfold findVar. rewrite Hfind. by destruct Hkind as [[v ->]|[fn ->]].
  - unfold findFunc. rewrite Hfind. by destruct Hkind as [[v ->]|[fn ->]].
  - unfold findType. rewrite Hfind. by destruct Hkind as [[v ->]|[fn ->]].
Qed.

(** Resolution of [name] only reads the parents, the files and the
    bindings of [name]. *)
Lemma find_congruence (name : string) (s s' : state) :
  files s' = files s → length (blocks s') = length (blocks s) →
  (∀ q b, blocks s !! q = Some b →
          ∃ b', blocks s' !! q = Some b' ∧ parent b' = parent b ∧ file b' = file b ∧
                syms b' !! name = syms b !! name) →
  ∀ q, find q name s' = find q name s ∧ exists_ q name s' = exists_ q name s.
Proof.
  intros Hfiles Hlen Hsame.
  assert (Hderef : ∀ q, match deref (blocks s) q with
                        | Ok b => ∃ b', deref (blocks s') q = Ok b' ∧
                                        parent b' = parent b ∧ file b' = file b ∧
                                        syms b' !! name = syms b !! name
                        | _ => deref (blocks s') q = Panic BadPointer
                        end).
  { intros q. unfold deref. destruct (blocks s !! q) as [b|] eqn:Hq.
    - destruct (Hsame q b Hq) as (b' & -> & ?). by exists b'.
    - apply lookup_ge_None in Hq. rewrite <- Hlen in Hq.
      apply lookup_ge_None in Hq. by rewrite Hq. }
  assert (Himports : ∀ f, file_imports f s' = file_imports f s).
  { intros f. unfold file_imports. by rewrite Hfiles. }
  assert (Hloop : ∀ fuel q, find_loop fuel q name s' = find_loop fuel q name s).
  { induction fuel as [|fuel IH]; intros [q|]; simpl; try done.
    specialize (Hderef q). unfold deref in *.
    destruct (blocks s !! q) as [b|].
    - destruct Hderef as (b' & Hb' & Hpar & _ & Hsym).
      destruct (blocks s' !! q); [|done]. injection Hb' as ->. simpl.
      rewrite Hsym, Hpar. destruct (syms b !! name); [done|]. apply IH.
    - by destruct (blocks s' !! q). }
  intros q. split.
  - unfold find. rewrite Hlen, Hloop.
    destruct (find_loop _ _ _ s) as [[sym|]| |]; simpl; try done.
    specialize (Hderef q). unfold deref in *. destruct (blocks s !! q) as [b|].
    + destruct Hderef as (b' & Hb' & _ & Hfile & _).
      destruct (blocks s' !! q); [|done]. injection Hb' as ->. simpl.
      by rewrite Hfile, Himports.
    + by destruct (blocks s' !! q).
  - unfold exists_. specialize (Hderef q). unfold deref in *.
    destruct (blocks s !! q) as [b|].
    + destruct Hderef as (b' & Hb' & Hpar & Hfile & Hsym).
      destruct (blocks s' !! q); [|done]. injection Hb' as ->. simpl.
      by rewrite Hsym, Hpar, Hfile, Himports.
    + by destruct (blocks s' !! q).
Qed.

(** X4. Declaring [name] in a scope changes the resolution of no other
    name: [find] and [exists] answer for every other name, from every
    scope, as they did before. *)
Theorem declaration_keeps_other_names (s s' : state) (p : loc) (name : string)
    (sym : iSymbol) :
  declared p name sym s s' →
  ∀ q other, other ≠ name →
    find q other s' = find q other s ∧ exists_ q other s' = exists_ q other s.
Proof.
  intros H q other Hne.
  destruct (declared_shape p name sym s s' H) as (b & vl & Hb & Hun & Hfiles & Hblocks).
  apply find_congruence; [done|by rewrite Hblocks, length_insert|].
  intros r br Hr. rewrite Hblocks. destruct (decide (r = p)) as [->|Hrp].
  - assert (br = b) as -> by congruence. eexists. split.
    + apply list_lookup_insert_eq. by eapply lookup_lt_Some.
    + simpl. by rewrite lookup_insert_ne.
  - exists br. by rewrite list_lookup_insert_ne.
Qed.

(** ** The variables of a scope *)

(** X5. Start from a scope [p] with no variable and let the session run;
    [l] lists the variables that the successful [insertVar] calls on [p]
    returned.  Their names are pairwise distinct, and each of them is still
    what its name resolves to from [p]: the symbol map and the variable
    list of a scope stay in step. *)
Theorem scope_variables_distinct_and_bound (p : loc) (s s' : state)
    (l : list (Var * Z)) (b : blockCtx) :
  declares p s l s' →
  blocks s !! p = Some b → vlist b = [] →
  NoDup (var_name <$> l.*1) ∧
  (∀ v, v ∈ l.*1 → find p (var_name v) s' = Ok (Some (SymVar v)) ∧
                   findVar p (var_name v) s' = Ok (inr v)).
Proof.
  intros H Hb Hnil.
  assert (Hinv : ∃ b', blocks s' !! p = Some b' ∧
                       NoDup (var_name <$> l.*1) ∧
                       ∀ v, v ∈ l.*1 → syms b' !! var_name v = Some (SymVar v)).
  { induction H as [s|s l s1 name typ v s2 Hd IH Hins|s l s1 o s2 Hd IH Hne Hrun].
    - exists b. split_and!; [done|constructor|]. intros v Hv. by apply elem_of_nil in Hv.
    - destruct (IH Hb) as (b1 & Hb1 & Hnd & Hbound).
      apply insertVar_Ok in Hins as (b1' & Hb1' & Hex & Hv & ->).
      assert (b1' = b1) as -> by congruence.
      apply exists_false_unbound in Hex as (b1'' & Hb1'' & Hun).
      assert (b1'' = b1) as -> by congruence.
      assert (Hname : var_name v = name) by by rewrite Hv.
      eexists. split_and!.
      + simpl. apply list_lookup_insert_eq. by eapply lookup_lt_Some.
      + rewrite !fmap_app. simpl. apply NoDup_app. split_and!; [done| |].
        * intros n Hn Hn'. apply list_elem_of_singleton in Hn'. subst n.
          apply list_elem_of_fmap in Hn as (w & Hw & Hin).
          specialize (Hbound w Hin). rewrite <- Hw, Hname in Hbound. congruence.
        * apply NoDup_singleton.
      + intros w Hw. rewrite fmap_app in Hw. simpl in Hw. simpl.
        apply elem_of_app in Hw as [Hw|Hw].
        * specialize (Hbound w Hw).
          rewrite lookup_insert_ne; [done|]. intros Heq. congruence.
        * apply list_elem_of_singleton in Hw as ->. rewrite Hname.
          by rewrite lookup_insert_eq.
    - destruct (IH Hb) as (b1 & Hb1 & Hnd & Hbound).
      destruct (run_op_block_kept p o s1 s2 Hne Hrun b1 Hb1) as (b2 & Hb2 & _ & _ & Hsub).
      exists b2. split_and!; try done. intros v Hv. eapply lookup_weaken; [|exact Hsub].
      by apply Hbound. }
  destruct Hinv as (b' & Hb' & Hnd & Hbound). split; [done|].
  intros v Hv.
  assert (Hfind : find p (var_name v) s' = Ok (Some (SymVar v))).
  { eapply find_own_binding; [exact Hb'|]. by apply Hbound. }
  split; [done|]. unfold findVar. by rewrite Hfind.
Qed.

(** ** Method tables *)

(** X6. After a successful [insertMethod] on the package scope, the type
    name resolves to a type that is no alias and whose method table binds
    the method name to the method given; the methods that the type had
    before are kept, and no other type symbol is touched. *)
Theorem insertMethod_registers (s s' : state) (p : loc) (tn mn : string) (m : methodDecl) :
  insertMethod p tn mn m s = Ok s' →
  ∃ t td ms,
    findType p tn s' = Ok (inr t) ∧
    types s' !! t = Some td ∧ Alias td = false ∧
    Methods td = Some ms ∧ ms !! mn = Some m ∧
    (∀ td0 ms0 mn0 m0, types s !! t = Some td0 → Methods td0 = Some ms0 →
                       ms0 !! mn0 = Some m0 → ms !! mn0 = Some m0) ∧
    (∀ t', t' ≠ t → t' < length (types s) → types s' !! t' = types s !! t').
Proof.
  intros H.
  apply insertMethod_Ok in H
    as (b & typ & s1 & td & Hb & Hpar & Hcase & Htd & Hno & ->).
  assert (Hlt : typ < length (types s1)) by by eapply lookup_lt_Some.
  destruct (add_method_has mn m td) as (Hms & _ & Hal).
  destruct Hcase as [(Hnf & -> & ->)|(Hfound & -> & td0 & Htd0 & Hal0)].
  - simpl in Htd. rewrite list_lookup_middle in Htd by done. injection Htd as <-.
    eexists _, _, _. split_and!.
    + rewrite findType_find. erewrite find_global; cycle 1.
      * simpl. apply list_lookup_insert_eq. by eapply lookup_lt_Some.
      * done.
      * simpl. by rewrite lookup_insert_eq.
    + simpl. by apply list_lookup_insert_eq.
    + done.
    + exact Hms.
    + simpl. apply lookup_singleton_eq.
    + intros td0 ms0 mn0 m0 Htd0. apply lookup_lt_Some in Htd0. lia.
    + intros t' Hne Ht'. simpl. rewrite list_lookup_insert_ne by done.
      by apply lookup_app_l.
  - assert (td0 = td) as -> by congruence.
    eexists _, _, _. split_and!.
    + transitivity (findType p tn s); [|done]. rewrite !findType_find.
      by rewrite (find_frame p tn s).
    + simpl. by apply list_lookup_insert_eq.
    + congruence.
    + exact Hms.
    + destruct (Methods td); [apply lookup_insert_eq|apply lookup_singleton_eq].
    + intros td1 ms0 mn0 m0 Htd1 Hms0 Hm0. assert (td1 = td) as -> by congruence.
      rewrite Hms0. destruct (decide (mn0 = mn)) as [->|Hne].
      * destruct Hno. by exists ms0, m0.
      * by rewrite lookup_insert_ne.
    + intros t' Hne Ht'. simpl. by rewrite list_lookup_insert_ne.
Qed.

(** X7. Method names are per type: when neither [T1] nor [T2] resolves
    from a package scope that has a file context, a method [mn] can be
    registered on [T1] and then a method of the same name on [T2]; the two
    names resolve to two different types, each with its own method. *)
Theorem same_method_name_on_two_types (s : state) (p : loc) (b : blockCtx)
    (T1 T2 mn : string) (m1 m2 : methodDecl) :
  blocks s !! p = Some b → parent b = None →
  T1 ≠ T2 → find p T1 s = Ok None → find p T2 s = Ok None →
  ∃ s1 s2 t1 t2,
    insertMethod p T1 mn m1 s = Ok s1 ∧ insertMethod p T2 mn m2 s1 = Ok s2 ∧
    findType p T1 s2 = Ok (inr t1) ∧ findType p T2 s2 = Ok (inr t2) ∧ t1 ≠ t2 ∧
    types s2 !! t1 = Some {| Alias := false; Methods := Some {[mn := m1]} |} ∧
    types s2 !! t2 = Some {| Alias := false; Methods := Some {[mn := m2]} |}.
Proof.
  intros Hb Hpar Hne Hf1 Hf2.
  pose proof (insertMethod_placeholder p b T1 mn m1 s Hb Hpar Hf1) as H1.
  match type of H1 with _ = Ok ?t => set (s1 := t) in * end.
  set (b1 := set_syms (<[T1 := SymType (length (types s))]> (syms b)) b).
  assert (Hb1 : blocks s1 !! p = Some b1).
  { simpl. apply list_lookup_insert_eq. by eapply lookup_lt_Some. }
  assert (Hf2' : find p T2 s1 = Ok None).
  { rewrite (find_global p b1 T2 s1) by done.
    rewrite (find_global p b T2 s) in Hf2 by done. simpl.
    rewrite lookup_insert_ne by done. destruct (syms b !! T2); [done|].
    unfold file_imports in *. simpl. done. }
  pose proof (insertMethod_placeholder p b1 T2 mn m2 s1 Hb1 Hpar Hf2') as H2.
  match type of H2 with _ = Ok ?t => set (s2 := t) in * end.
  assert (Hlen1 : length (types s1) = S (length (types s))).
  { simpl. rewrite length_insert, length_app. simpl. lia. }
  set (b2 := set_syms (<[T2 := SymType (length (types s1))]> (syms b1)) b1).
  assert (Hb2 : blocks s2 !! p = Some b2).
  { simpl. apply list_lookup_insert_eq. rewrite length_insert. by eapply lookup_lt_Some. }
  exists s1, s2, (length (types s)), (length (types s1)). split_and!; try done.
  - rewrite findType_find, (find_global p b2 T1 s2) by done. simpl.
    rewrite lookup_insert_ne by done. by rewrite lookup_insert_eq.
  - rewrite findType_find, (find_global p b2 T2 s2) by done. simpl.
    by rewrite lookup_insert_eq.
  - lia.
  - simpl. rewrite list_lookup_insert_ne by (rewrite length_insert, length_app; simpl; lia).
    rewrite lookup_app_l by (rewrite length_insert, length_app; simpl; lia).
    apply list_lookup_insert_eq. rewrite length_app. simpl. lia.
  - subst s2. simpl. apply list_lookup_insert_eq.
    rewrite length_app, length_insert, length_app. simpl. lia.
Qed.

(** ** What the loader leaves in the package scope *)

Lemma findType_inr_syms (p : loc) (b : blockCtx) (tn : string) (typ : loc) (s : state) :
  blocks s !! p = Some b → parent b = None →
  findType p tn s = Ok (inr typ) → syms b !! tn = Some (SymType typ).
Proof.
  intros Hb Hpar H. apply findType_inr in H.
  rewrite (find_global p b tn s) in H by done.
  destruct (syms b !! tn) as [sym|]; [by injection H as ->|].
  apply bind_Ok in H as (im & _ & H). by destruct (im !! tn).
Qed.

Lemma loaded_frame (F : list string) (M : list (string * string * methodDecl))
    (s s' : state) :
  blocks s' = blocks s → types s' = types s → loaded F M s → loaded F M s'.
Proof.
  intros Hb Ht (b & Hb0 & Hrest). exists b. rewrite Hb. split; [done|].
  unfold method_of in *. by rewrite Ht.
Qed.

Lemma loaded_set_file (F : list string) (M : list (string * string * methodDecl))
    (f : option loc) (b : blockCtx) (s s' : state) :
  blocks s !! 0 = Some b → blocks s' = <[0 := set_file f b]> (blocks s) →
  types s' = types s → loaded F M s → loaded F M s'.
Proof.
  intros Hb Hblocks Ht (b0 & Hb0 & Hrest). assert (b0 = b) as -> by congruence.
  exists (set_file f b). split.
  - rewrite Hblocks. apply list_lookup_insert_eq. by eapply lookup_lt_Some.
  - unfold method_of in *. rewrite Ht. done.
Qed.

Lemma insertFunc_loaded (F : list string) (M : list (string * string * methodDecl))
    (n : string) (fn : loc) (s s' : state) :
  loaded F M s → insertFunc 0 n fn s = Ok s' → loaded (F ++ [n]) M s'.
Proof.
  intros (b & Hb & Hpar & Hvl & HF & HM & Hconv & HndF & HndM & Hdisj) H.
  apply insertFunc_Ok in H as (b0 & Hb0 & Hex & ->).
  assert (b0 = b) as -> by congruence.
  apply exists_false_unbound in Hex as (b0 & Hb0' & Hun).
  assert (b0 = b) as -> by congruence.
  assert (HnF : n ∉ F).
  { intros Hin. destruct (HF n Hin) as (fn' & Hfn'). congruence. }
  assert (HnM : n ∉ M.*1.*1).
  { intros Hin. apply list_elem_of_fmap in Hin as ([tn mn] & -> & Hin).
    apply list_elem_of_fmap in Hin as ([[tn' mn'] m] & [= <- <-] & Hin).
    destruct (HM _ _ _ Hin) as (ty & Hty & _). simpl in *. congruence. }
  eexists. split_and!.
  - simpl. apply list_lookup_insert_eq. by eapply lookup_lt_Some.
  - done.
  - done.
  - intros k Hk. simpl. apply elem_of_app in Hk as [Hk|Hk].
    + destruct (HF k Hk) as (fk & Hfk). exists fk.
      rewrite lookup_insert_ne; [done|]. intros ->. by apply HnF.
    + apply list_elem_of_singleton in Hk as ->. exists fn. apply lookup_insert_eq.
  - intros tn mn m Hin. destruct (HM _ _ _ Hin) as (ty & Hty & Hmeth).
    exists ty. split; [|done]. simpl. rewrite lookup_insert_ne; [done|].
    intros ->. congruence.
  - intros k sym. simpl. destruct (decide (k = n)) as [->|Hne].
    + rewrite lookup_insert_eq. intros [= <-]. left. split; [|by eexists].
      apply elem_of_app. right. by apply list_elem_of_singleton.
    + rewrite lookup_insert_ne by done. intros Hk.
      destruct (Hconv _ _ Hk) as [[Hin Hsym]|Hright]; [|by right].
      left. split; [|done]. apply elem_of_app. by left.
  - apply NoDup_app. split_and!; [done| |apply NoDup_singleton].
    intros k Hk Hk'. apply list_elem_of_singleton in Hk' as ->. by apply HnF.
  - done.
  - intros k Hk. apply elem_of_app in Hk as [Hk|Hk]; [by apply Hdisj|].
    by apply list_elem_of_singleton in Hk as ->.
Qed.

Lemma method_of_has (s : state) (ty : loc) (mn : string) (m : methodDecl) (td : typeDecl) :
  method_of s ty mn m → types s !! ty = Some td → has_method mn td.
Proof.
  intros (td' & ms & Htd' & _ & Hms & Hm) Htd. assert (td' = td) as -> by congruence.
  by exists ms, m.
Qed.

Lemma insertMethod_loaded (F : list string) (M : list (string * string * methodDecl))
    (tn mn : string) (m : methodDecl) (s s' : state) :
  loaded F M s → insertMethod 0 tn mn m s = Ok s' → loaded F (M ++ [(tn, mn, m)]) s'.
Proof.
  intros (b & Hb & Hpar & Hvl & HF & HM & Hconv & HndF & HndM & Hdisj) H.
  apply insertMethod_Ok in H
    as (b0 & typ & s1 & td & Hb0 & _ & Hcase & Htd & Hno & ->).
  assert (b0 = b) as -> by congruence.
  assert (HM1 : (M ++ [(tn, mn, m)]).*1 = M.*1 ++ [(tn, mn)]) by by rewrite fmap_app.
  assert (HM2 : (M ++ [(tn, mn, m)]).*1.*1 = M.*1.*1 ++ [tn]) by by rewrite !fmap_app.
  assert (Hpair : ∀ ty, syms b !! tn = Some (SymType ty) → types s !! ty = Some td →
                        (tn, mn) ∉ M.*1).
  { intros ty Hty Htd' Hin.
    apply list_elem_of_fmap in Hin as ([[tn' mn'] m0] & [= <- <-] & Hin).
    destruct (HM _ _ _ Hin) as (ty' & Hty' & Hmeth).
    assert (ty' = ty) as -> by congruence.
    apply Hno. by eapply method_of_has. }
  destruct (add_method_has mn m td) as (Hms & _ & Hal).
  destruct Hcase as [(Hnf & -> & ->)|(Hfound & -> & td0 & Htd0 & Hal0)].
  - apply findType_NotFound in Hnf.
    pose proof (find_None_unbound _ _ _ _ Hb Hnf) as Hun.
    simpl in Htd. rewrite list_lookup_middle in Htd by done. injection Htd as <-.
    assert (HtnM : tn ∉ M.*1.*1).
    { intros Hin. apply list_elem_of_fmap in Hin as ([tn' mn'] & -> & Hin).
      apply list_elem_of_fmap in Hin as ([[tn'' mn''] m0] & [= <- <-] & Hin).
      destruct (HM _ _ _ Hin) as (ty & Hty & _). simpl in *. congruence. }
    eexists. split_and!.
    + simpl. apply list_lookup_insert_eq. by eapply lookup_lt_Some.
    + done.
    + done.
    + intros k Hk. destruct (HF k Hk) as (fk & Hfk). exists fk. simpl.
      rewrite lookup_insert_ne; [done|]. intros ->. congruence.
    + intros tn0 mn0 m0 Hin. apply elem_of_app in Hin as [Hin|Hin].
      * destruct (HM _ _ _ Hin) as (ty & Hty & td1 & ms1 & Htd1 & Hrest).
        exists ty. split.
        { simpl. rewrite lookup_insert_ne; [done|]. intros ->. congruence. }
        exists td1, ms1. split; [|done]. simpl.
        pose proof (lookup_lt_Some _ _ _ Htd1) as Hlt.
        rewrite list_lookup_insert_ne by lia. by apply lookup_app_l_Some.
      * apply list_elem_of_singleton in Hin as [= -> -> ->].
        exists (length (types s)). split; [simpl; apply lookup_insert_eq|].
        eexists _, _. split_and!.
        { simpl. apply list_lookup_insert_eq. rewrite length_app. simpl. lia. }
        { done. }
        { exact Hms. }
        { simpl. apply lookup_singleton_eq. }
    + intros k sym. rewrite HM2. simpl. destruct (decide (k = tn)) as [->|Hne].
      * rewrite lookup_insert_eq. intros [= <-]. right. split; [|by eexists].
        apply elem_of_app. right. by apply list_elem_of_singleton.
      * rewrite lookup_insert_ne by done. intros Hk.
        destruct (Hconv _ _ Hk) as [Hleft|[Hin Hsym]]; [by left|].
        right. split; [|done]. apply elem_of_app. by left.
    + done.
    + rewrite HM1. apply NoDup_app. split_and!; [done| |apply NoDup_singleton].
      intros k Hk Hk'. apply list_elem_of_singleton in Hk' as ->.
      apply HtnM. apply list_elem_of_fmap. by exists (tn, mn).
    + intros k Hk. rewrite HM2. intros Hin. apply elem_of_app in Hin as [Hin|Hin].
      * by apply (Hdisj k Hk).
      * apply list_elem_of_singleton in Hin as ->.
        destruct (HF tn Hk) as (fk & Hfk). congruence.
  - assert (td0 = td) as -> by congruence.
    pose proof (findType_inr_syms 0 b tn typ s Hb Hpar Hfound) as Hsym.
    exists b. split_and!; try done.
    + intros tn0 mn0 m0 Hin. apply elem_of_app in Hin as [Hin|Hin].
      * destruct (HM _ _ _ Hin) as (ty & Hty & td1 & ms1 & Htd1 & Hal1 & Hms1 & Hm1).
        exists ty. split; [done|]. destruct (decide (ty = typ)) as [->|Hne].
        { assert (td1 = td) as -> by congruence.
          eexists _, _. split_and!.
          - simpl. apply list_lookup_insert_eq. by eapply lookup_lt_Some.
          - congruence.
          - exact Hms.
          - rewrite Hms1. rewrite lookup_insert_ne; [done|]. intros ->.
            apply Hno. by exists ms1, m0. }
        { exists td1, ms1. split; [|done]. simpl. by rewrite list_lookup_insert_ne. }
      * apply list_elem_of_singleton in Hin as [= -> -> ->].
        exists typ. split; [done|]. eexists _, _. split_and!.
        { simpl. apply list_lookup_insert_eq. by eapply lookup_lt_Some. }
        { congruence. }
        { exact Hms. }
        { destruct (Methods td); [apply lookup_insert_eq|apply lookup_singleton_eq]. }
    + intros k sym Hk. rewrite HM2.
      destruct (Hconv _ _ Hk) as [Hleft|[Hin Hsy]]; [by left|].
      right. split; [|done]. apply elem_of_app. by left.
    + rewrite HM1. apply NoDup_app. split_and!; [done| |apply NoDup_singleton].
      intros k Hk Hk'. apply list_elem_of_singleton in Hk' as ->.
      by apply (Hpair typ).
    + intros k Hk. rewrite HM2. intros Hin. apply elem_of_app in Hin as [Hin|Hin].
      * by apply (Hdisj k Hk).
      * apply list_elem_of_singleton in Hin as ->.
        destruct (HF tn Hk) as (fk & Hfk). congruence.
Qed.

Lemma loadDecl_loaded (files0 : list fileCtx) (m : gmap string string) (decl : Decl)
    (F : list string) (M : list (string * string * methodDecl)) (s s' : state) :
  current_file files0 0 m s → loaded F M s →
  loadDecl ToRecv ToString path_Base (length files0) decl s = Ok s' →
  loaded (F ++ option_list (decl_func_name decl))
         (M ++ option_list (decl_method ToRecv (length files0) decl)) s'.
Proof.
  intros Hcur Hl H. destruct decl as [d|d|]; simpl in *; [| |done].
  - unfold loadFunc in H. apply bind_Ok in H as (fc & Hfc & H).
    apply deref_Ok in Hfc. rewrite Hcur, list_lookup_middle in Hfc by done.
    injection Hfc as <-. simpl in H. destruct (fd_Recv d) as [r|]; simpl.
    + rewrite app_nil_r. by eapply insertMethod_loaded.
    + case_decide; [done|]. simpl in H. rewrite app_nil_r.
      eapply insertFunc_loaded; [|exact H]. by apply (loaded_frame F M s).
  - rewrite !app_nil_r. destruct (gd_Tok d); try done.
    + apply loadImports_scopes in H as [Hb Ht]. by apply (loaded_frame F M s).
    + by apply loadTypes_same in H as ->.
    + by injection H as <-.
    + by apply loadVars_same in H as ->.
Qed.

Lemma omap_cons_app {A B : Type} (f : A → option B) (x : A) (l : list A) :
  omap f (x :: l) = option_list (f x) ++ omap f l.
Proof. simpl. by destruct (f x). Qed.

Lemma loadDecls_loaded (files0 : list fileCtx) (decls : list Decl)
    (m : gmap string string) (F : list string) (M : list (string * string * methodDecl))
    (s s' : state) :
  current_file files0 0 m s → loaded F M s →
  foldlM (loadDecl ToRecv ToString path_Base (length files0)) decls s = Ok s' →
  loaded (F ++ omap decl_func_name decls)
         (M ++ omap (decl_method ToRecv (length files0)) decls) s'.
Proof.
  revert m F M s. induction decls as [|decl decls IH]; intros m F M s Hcur Hl H.
  - simpl in *. injection H as <-. by rewrite !app_nil_r.
  - simpl in H. apply bind_Ok in H as (s1 & H1 & H).
    pose proof (loadDecl_loaded files0 m decl F M s s1 Hcur Hl H1) as Hl1.
    apply (loadDecl_current files0 0 m) in H1 as [Hcur1 _]; [|done].
    specialize (IH _ _ _ _ Hcur1 Hl1 H).
    by rewrite !omap_cons_app, !(assoc_L (++)).
Qed.

Lemma loadFile_loaded (f : File) (F : list string)
    (M : list (string * string * methodDecl)) (s s' : state) :
  loaded F M s → loadFile ToRecv ToString path_Base 0 f s = Ok s' →
  loaded (F ++ file_func_names f) (M ++ file_methods ToRecv (length (files s)) f) s'.
Proof.
  intros Hl H. unfold loadFile in H. simpl in H. apply bind_Ok in H as (b & Hb & H).
  apply deref_Ok in Hb. simpl in Hb.
  refine (loadDecls_loaded (files s) (Decls f) ∅ F M _ s' _ _ H); [done|].
  by eapply (loaded_set_file F M _ b s).
Qed.

Lemma loadFiles_loaded (fs : list File) (F : list string)
    (M : list (string * string * methodDecl)) (s s' : state) :
  loaded F M s → foldlM (loadFile ToRecv ToString path_Base 0) fs s = Ok s' →
  loaded (F ++ files_func_names fs) (M ++ files_methods ToRecv (length (files s)) fs) s'.
Proof.
  revert F M s. induction fs as [|f fs IH]; intros F M s Hl H; simpl in *.
  - injection H as <-. by rewrite !app_nil_r.
  - apply bind_Ok in H as (s1 & H1 & H).
    pose proof (loadFile_loaded f F M s s1 Hl H1) as Hl1.
    destruct (loadFile_spec 0 f s s1 H1) as (Hfiles & _).
    specialize (IH _ _ _ Hl1 H). rewrite Hfiles, length_app in IH. simpl in IH.
    replace (length (files s) + 1) with (S (length (files s))) in IH by lia.
    by rewrite !(assoc_L (++)).
Qed.

Lemma load_package_loaded (depth : Z) (pkg : astPackage) (s : state) :
  load_package depth pkg = Ok s →
  loaded (files_func_names (pkg_Files pkg)) (files_methods ToRecv 0 (pkg_Files pkg)) s.
Proof.
  unfold load_package. intros H.
  apply (loadFiles_loaded _ [] []) in H; [done|].
  exists {| file := None; parent := None; vlist := []; syms := ∅ |}.
  split_and!; try done.
  - intros n Hn. by apply elem_of_nil in Hn.
  - intros tn mn m Hin. by apply elem_of_nil in Hin.
  - constructor.
  - constructor.
  - intros n Hn. by apply elem_of_nil in Hn.
Qed.

Lemma foldlM_Forall {S X : Type} (P : X → Prop) (body : X → S → res S) (xs : list X)
    (s s' : S) :
  (∀ x t t', body x t = Ok t' → P x) → foldlM body xs s = Ok s' → Forall P xs.
Proof.
  intros Hbody. revert s. induction xs as [|x xs IH]; intros s H; [constructor|].
  simpl in H. apply bind_Ok in H as (s1 & H1 & H). constructor; [by eapply Hbody|].
  by eapply IH.
Qed.

(** X8. A file that loads has only declarations that the loader knows:
    functions (none of them a top-level [init]), and import, type, const
    and var declarations whose specs are of the kind of the declaration,
    no import being blank or dot.  Every other input panics. *)
Theorem loadFile_accepts_only (g : loc) (f : File) (s s' : state) :
  loadFile ToRecv ToString path_Base g f s = Ok s' → Forall decl_accepted (Decls f).
Proof.
  unfold loadFile. simpl. intros H. apply bind_Ok in H as (b & _ & H).
  revert H. apply foldlM_Forall. intros decl t t' Hd.
  destruct decl as [d|d|]; simpl in *; [| |done].
  - intros Hrecv. unfold loadFunc in Hd. apply bind_Ok in Hd as (fc & _ & Hd).
    rewrite Hrecv in Hd. by case_decide.
  - destruct (gd_Tok d) eqn:Htok; try done; (split; [done|]).
    + revert Hd. unfold loadImports. apply foldlM_Forall.
      intros [spec| |] u u' Hu; try done. simpl. unfold loadImport in Hu.
      apply bind_Ok in Hu as (name & Hname & _).
      destruct (is_Name spec) as [n|]; [|done].
      case_decide as Hn; [done|]. split; intros [= ->]; apply Hn; auto.
    + revert Hd. unfold loadTypes. apply foldlM_Forall. by intros [| |] u u' Hu.
    + apply Forall_forall. by intros [| |] _.
    + revert Hd. unfold loadVars. apply foldlM_Forall. by intros [| |] u u' Hu.
Qed.

Lemma foldl_bind_import_notin (l : list (string * string)) (m : gmap string string)
    (name : string) :
  name ∉ l.*1 → foldl bind_import m l !! name = m !! name.
Proof.
  revert m. induction l as [|[k v] l IH]; intros m Hn; simpl; [done|].
  rewrite fmap_cons, not_elem_of_cons in Hn. destruct Hn as [Hne Hn].
  rewrite IH by done. unfold bind_import. simpl. by rewrite lookup_insert_ne.
Qed.

(** X9. [loadFile] gives the scope it loads into a new file context whose
    import table binds exactly the names that the import specs of the file
    bind (the written alias or the base of the path).  A name bound by
    several imports is not an error: the last import of the file wins. *)
Theorem loadFile_imports_last_wins (g : loc) (f : File) (s s' : state) :
  loadFile ToRecv ToString path_Base g f s = Ok s' →
  ∃ b' fc,
    blocks s' !! g = Some b' ∧ file b' = Some (length (files s)) ∧
    files s' !! length (files s) = Some fc ∧ fc_block fc = g ∧
    (∀ name, name ∉ (file_import_list f).*1 → imports fc !! name = None) ∧
    (∀ pre name path post,
        file_import_list f = pre ++ (name, path) :: post → name ∉ post.*1 →
        imports fc !! name = Some path).
Proof.
  intros H. destruct (loadFile_spec g f s s' H) as (Hfiles & b' & Hb' & Hfile).
  exists b', {| fc_block := g; imports := import_table f |}. split_and!; try done.
  - rewrite Hfiles. by apply list_lookup_middle.
  - intros name Hn. simpl. rewrite import_table_fold.
    by rewrite foldl_bind_import_notin.
  - intros pre name path post Heq Hn. simpl. rewrite import_table_fold, Heq.
    rewrite foldl_app. simpl. rewrite foldl_bind_import_notin by done.
    unfold bind_import at 1. simpl. apply lookup_insert_eq.
Qed.

(** X10. In a package that loads, the names of the functions declared
    without receiver are pairwise distinct over all files, no such name is
    also the receiver type of a method, and no (receiver type, method
    name) pair occurs twice: every such clash panics. *)
Theorem loaded_names_distinct (depth : Z) (pkg : astPackage) (s : state) :
  load_package depth pkg = Ok s →
  NoDup (files_func_names (pkg_Files pkg)) ∧
  NoDup (files_methods ToRecv 0 (pkg_Files pkg)).*1 ∧
  (∀ n, n ∈ files_func_names (pkg_Files pkg) →
        n ∉ (files_methods ToRecv 0 (pkg_Files pkg)).*1.*1).
Proof.
  intros H. apply load_package_loaded in H as (b & _ & _ & _ & _ & _ & _ & ? & ? & ?).
  done.
Qed.

(** X11. After a package has loaded, every function declared without
    receiver, in whatever file and order, resolves from the package scope
    as a function, and every method resolves through its receiver type
    name to a type that is no alias and whose table binds the method name
    to the method as declared, with the file context of its file (the
    [i]-th file has context [i]). *)
Theorem loaded_declarations_resolve (depth : Z) (pkg : astPackage) (s : state) :
  load_package depth pkg = Ok s →
  (∀ n, n ∈ files_func_names (pkg_Files pkg) → ∃ fn, findFunc 0 n s = Ok (inr fn)) ∧
  (∀ tn mn m, (tn, mn, m) ∈ files_methods ToRecv 0 (pkg_Files pkg) →
              ∃ ty, findType 0 tn s = Ok (inr ty) ∧ method_of s ty mn m).
Proof.
  intros H. apply load_package_loaded in H as (b & Hb & Hpar & _ & HF & HM & _).
  split.
  - intros n Hn. destruct (HF n Hn) as (fn & Hfn). exists fn.
    unfold findFunc. by rewrite (find_own_binding 0 b n (SymFunc fn) s).
  - intros tn mn m Hin. destruct (HM _ _ _ Hin) as (ty & Hty & Hmeth).
    exists ty. split; [|done].
    unfold findType. by rewrite (find_own_binding 0 b tn (SymType ty) s).
Qed.

(** X12. For a package that is not named [main], [NewPackage] lowers
    nothing and returns no error: the session is the one that loading
    left, no function is marked or compiled, the package has no variable,
    and its symbol table binds the functions declared without receiver and
    the receiver types of the methods, and no other name (type, const and
    var declarations leave no symbol). *)
Theorem NewPackage_of_library (depth : Z) (pkg : astPackage) (s1 : state) :
  pkg_Name pkg ≠ "main" → load_package depth pkg = Ok s1 →
  ∃ tbl : gmap string iSymbol,
    NewPackage_session ToRecv ToString path_Base callees depth pkg
    = Ok ({| pk_vlist := []; pk_syms := Some tbl |}, None, s1) ∧
    usedfns s1 = [] ∧ compiled s1 = [] ∧ (∀ f, ¬ is_used s1 f) ∧
    (∀ n, n ∈ files_func_names (pkg_Files pkg) → ∃ fn, tbl !! n = Some (SymFunc fn)) ∧
    (∀ n, n ∈ (files_methods ToRecv 0 (pkg_Files pkg)).*1.*1 →
          ∃ ty, tbl !! n = Some (SymType ty)) ∧
    (∀ n sym, tbl !! n = Some sym →
              (n ∈ files_func_names (pkg_Files pkg) ∧ ∃ fn, sym = SymFunc fn) ∨
              (n ∈ (files_methods ToRecv 0 (pkg_Files pkg)).*1.*1 ∧
               ∃ ty, sym = SymType ty)).
Proof.
  intros Hname Hload.
  destruct (load_package_fresh depth pkg s1 Hload) as (Hu & Hc & Hunused).
  destruct (load_package_loaded depth pkg s1 Hload)
    as (b & Hb & _ & Hvl & HF & HM & Hconv & _).
  exists (syms b). split_and!; try done.
  - unfold NewPackage_session. simpl. unfold load_package in Hload. simpl in Hload.
    rewrite Hload. simpl. rewrite decide_False by done.
    apply deref_Ok in Hb. rewrite Hb. simpl. by rewrite Hvl.
  - intros f (fd & Hfd & Hused). rewrite (Hunused _ _ Hfd) in Hused. done.
  - intros n Hin. apply list_elem_of_fmap in Hin as ([tn mn] & -> & Hin).
    apply list_elem_of_fmap in Hin as ([[tn' mn'] m] & [= <- <-] & Hin).
    destruct (HM _ _ _ Hin) as (ty & Hty & _). by exists ty.
Qed.

(** X13. [NewPackage] returns an error only for a package named [main],
    and only one of two: [ErrMainFuncNotFound] when [main] is found neither
    in the package scope nor among the imports of the file loaded last,
    [ErrSymbolNotFunc] when [main] is the receiver type of a method or the
    name of an import of that file. *)
Theorem NewPackage_error_cases (depth : Z) (pkg : astPackage) (p : Package) (e : error) :
  NewPackage depth pkg = Ok (p, Some e) →
  pkg_Name pkg = "main" ∧
  ∃ s1, load_package depth pkg = Ok s1 ∧
        ((e = ErrMainFuncNotFound ∧ find 0 "main" s1 = Ok None) ∨
         (e = ErrSymbolNotFunc ∧
          ∃ sym, find 0 "main" s1 = Ok (Some sym) ∧
                 ((∃ ty, sym = SymType ty ∧
                         "main" ∈ (files_methods ToRecv 0 (pkg_Files pkg)).*1.*1) ∨
                  (∃ path, sym = SymPkg path)))).
Proof.
  unfold NewPackage, NewPackage_session. simpl. intros H.
  apply bind_Ok in H as ([[p' e'] s'] & H & Heq). simpl in Heq.
  injection Heq as -> ->.
  apply bind_Ok in H as (s1 & Hload & H). case_decide as Hname.
  - split; [done|]. exists s1. split; [done|].
    destruct (load_package_loaded depth pkg s1 Hload)
      as (b & Hb & Hpar & _ & _ & _ & Hconv & _).
    apply bind_Ok in H as (r & Hr & H). destruct r as [err|entry].
    + injection H as _ <- _. unfold findFunc in Hr.
      apply bind_Ok in Hr as (v & Hv & Hr). destruct v as [sym|].
      * right. assert (err = ErrSymbolNotFunc) as ->.
        { destruct sym; try done; by injection Hr as <-. }
        split; [done|]. exists sym. split; [done|].
        rewrite (find_global 0 b "main" s1) in Hv by done.
        destruct (syms b !! "main") as [sym'|] eqn:Hsym.
        -- injection Hv as ->.
           destruct (Hconv _ _ Hsym) as [[_ [fn ->]]|[Hin [ty ->]]]; [done|].
           left. by exists ty.
        -- apply bind_Ok in Hv as (im & _ & Hv).
           destruct (im !! "main") as [path|]; [|done].
           injection Hv as <-. right. by exists path.
      * left. by injection Hr as <-.
    + apply bind_Ok in H as (fd & _ & H). apply bind_Ok in H as (b1 & _ & H).
      apply bind_Ok in H as (s3 & _ & H). apply bind_Ok in H as (s4 & _ & H).
      apply bind_Ok in H as (b4 & _ & H). by injection H.
  - apply bind_Ok in H as (b & _ & H). by injection H.
Qed.

(** ** Parent chains are finite *)

Abbreviation built :=
  (@built rtype FuncType BlockStmt FieldList BasicLit TypeSpec ValueSpec
          ToRecv ToString path_Base callees).

Lemma parents_kept_eq (s s' : state) : blocks s' = blocks s → parents_kept s s'.
Proof. intros Heq. split; [by rewrite Heq|]. intros p b b'. rewrite Heq. congruence. Qed.

Lemma parents_kept_trans (s1 s2 s3 : state) :
  parents_kept s1 s2 → parents_kept s2 s3 → parents_kept s1 s3.
Proof.
  intros [Hl12 H12] [Hl23 H23]. split; [congruence|].
  intros p b b3 Hb Hb3.
  destruct (blocks s2 !! p) as [b2|] eqn:Hb2.
  - rewrite (H23 p b2 b3 Hb2 Hb3). by apply (H12 p).
  - apply lookup_ge_None in Hb2. apply lookup_lt_Some in Hb. lia.
Qed.

Lemma parents_kept_insert (q : loc) (bq bq' : blockCtx) (s s' : state) :
  blocks s !! q = Some bq → blocks s' = <[q := bq']> (blocks s) →
  parent bq' = parent bq → parents_kept s s'.
Proof.
  intros Hq Heq Hpar. split; [by rewrite Heq, length_insert|].
  intros p b b' Hb Hb'. rewrite Heq in Hb'. destruct (decide (p = q)) as [->|Hne].
  - rewrite list_lookup_insert_eq in Hb' by by eapply lookup_lt_Some. congruence.
  - rewrite list_lookup_insert_ne in Hb' by done. congruence.
Qed.

Lemma insertMethod_parents_kept (q : loc) (tn mn : string) (m : methodDecl)
    (s s' : state) :
  insertMethod q tn mn m s = Ok s' → parents_kept s s'.
Proof.
  intros H. apply insertMethod_Ok in H
    as (b & typ & s1 & td & Hb & _ & [(_ & _ & ->)|(_ & -> & _)] & _ & _ & ->).
  - by eapply (parents_kept_insert q b).
  - by apply parents_kept_eq.
Qed.

Lemma loadDecl_parents_kept (ctx : loc) (decl : Decl) (s s' : state) :
  loadDecl ToRecv ToString path_Base ctx decl s = Ok s' → parents_kept s s'.
Proof.
  destruct decl as [d|d|]; simpl; intros H; [| |done].
  - unfold loadFunc in H. apply bind_Ok in H as (fc & _ & H).
    destruct (fd_Recv d).
    + by eapply insertMethod_parents_kept.
    + case_decide; [done|]. simpl in H.
      apply insertFunc_Ok in H as (b & Hb & _ & ->).
      by eapply (parents_kept_insert (fc_block fc) b).
  - destruct (gd_Tok d); try done.
    + apply loadImports_scopes in H as [? _]. by apply parents_kept_eq.
    + apply loadTypes_same in H as ->. by apply parents_kept_eq.
    + injection H as <-. by apply parents_kept_eq.
    + apply loadVars_same in H as ->. by apply parents_kept_eq.
Qed.

Lemma loadFile_parents_kept (block : loc) (f : File) (s s' : state) :
  loadFile ToRecv ToString path_Base block f s = Ok s' → parents_kept s s'.
Proof.
  unfold loadFile. simpl. intros H. apply bind_Ok in H as (b & Hb & H).
  apply deref_Ok in Hb. simpl in Hb.
  match type of H with foldlM _ _ ?t = _ => set (s2 := t) in H end.
  apply (parents_kept_trans s s2 s').
  - by apply (parents_kept_insert block b (set_file (Some (length (files s))) b)).
  - revert H. apply (foldlM_invariant (fun t => parents_kept s2 t)).
    + intros decl t t' _ Ht Hd. eapply parents_kept_trans; [exact Ht|].
      by eapply loadDecl_parents_kept.
    + by apply parents_kept_eq.
Qed.

Lemma parents_below_kept (s s' : state) :
  parents_kept s s' → parents_below s → parents_below s'.
Proof.
  intros [Hlen Hkept] Hbelow p b' q Hb' Hpar.
  destruct (blocks s !! p) as [b|] eqn:Hb.
  - apply (Hbelow p b q Hb). by rewrite <- (Hkept p b b' Hb Hb').
  - apply lookup_ge_None in Hb. apply lookup_lt_Some in Hb'. lia.
Qed.

Lemma parents_below_app (s s' : state) (b : blockCtx) :
  blocks s' = blocks s ++ [b] →
  (∀ q, parent b = Some q → q < length (blocks s)) →
  parents_below s → parents_below s'.
Proof.
  intros Heq Hb Hbelow p b' q Hb' Hpar. rewrite Heq in Hb'.
  apply lookup_app_Some in Hb' as [Hb'|[Hge Hb']].
  - by apply (Hbelow p b' q).
  - apply list_lookup_singleton_Some in Hb' as [Hp <-].
    specialize (Hb q Hpar). lia.
Qed.

Lemma run_op_parents_below (o : op) (s s' : state) :
  (∀ q, o = OpNewGblBlockCtx (Some q) → q < length (blocks s)) →
  run_op ToRecv ToString path_Base callees o s = Ok s' →
  parents_below s → parents_below s'.
Proof.
  intros Hvalid. destruct o; simpl; intros H.
  - apply use_scopes in H as [? _]. by apply parents_below_kept, parents_kept_eq.
  - apply compile_scopes in H as [? _]. by apply parents_below_kept, parents_kept_eq.
  - apply resolveFuncs_loop_scopes in H as [? _].
    by apply parents_below_kept, parents_kept_eq.
  - injection H as <-. by apply parents_below_kept, parents_kept_eq.
  - apply bind_Ok in H as ([q s1] & Hr & H). injection H as <-.
    unfold newBlockCtx in Hr. apply bind_Ok in Hr as (fc & _ & Hr).
    apply bind_Ok in Hr as (bg & Hbg & Hr). apply deref_Ok in Hbg.
    injection Hr as <- <-. eapply parents_below_app; [done|].
    simpl. intros q [= <-]. by eapply lookup_lt_Some.
  - injection H as <-. eapply parents_below_app; [done|].
    simpl. intros q ->. by apply Hvalid.
  - injection H as <-. by apply parents_below_kept, parents_kept_eq.
  - apply bind_Ok in H as ([v s1] & Hr & H). injection H as <-.
    apply insertVar_Ok in Hr as (b & Hb & _ & _ & ->).
    apply parents_below_kept. by eapply (parents_kept_insert p b).
  - apply insertFunc_Ok in H as (b & Hb & _ & ->).
    apply parents_below_kept. by eapply (parents_kept_insert p b).
  - by apply parents_below_kept, (insertMethod_parents_kept p typeName methodName method).
  - by apply parents_below_kept, (loadFile_parents_kept block f).
  - apply bind_Ok in H as (b & Hb & H). apply deref_Ok in Hb. injection H as <-.
    apply parents_below_kept. by eapply (parents_kept_insert p b).
  - injection H as <-. by apply parents_below_kept, parents_kept_eq.
Qed.

Lemma built_parents_below (s : state) :
  built s → parents_below s.
Proof.
  induction 1 as [depth|s o s' _ IH Hvalid Hrun].
  - intros p b q Hb. done.
  - by eapply run_op_parents_below.
Qed.

Lemma parents_below_chain (s : state) :
  parents_below s →
  ∀ p b, blocks s !! p = Some b → ∃ bs, scope_chain s p (b :: bs) ∧ length bs ≤ p.
Proof.
  intros Hbelow p. induction p as [p IH] using lt_wf_ind. intros b Hb.
  destruct (parent b) as [q|] eqn:Hpar.
  - pose proof (Hbelow p b q Hb Hpar) as Hlt.
    destruct (blocks s !! q) as [bq|] eqn:Hq.
    + destruct (IH q Hlt bq Hq) as (bs & Hchain & Hlen).
      exists (bq :: bs). split; [by eapply chain_nested|]. simpl. lia.
    + apply lookup_ge_None in Hq. apply lookup_lt_Some in Hb. lia.
  - exists []. split; [by constructor|]. simpl. lia.
Qed.

(** X14. In a session built by the operations of the file, the parent
    chain of every scope is finite: it ends, after at most as many steps as
    scopes were allocated before it, in a scope without parent.  So the loop
    of [find] leaves the chain: [find] returns the innermost binding of the
    name, or else reads the import table of the file of the starting scope
    (and faults there if the scope has no file). *)
Theorem find_returns_in_built_session (s : state) (p : loc) (b : blockCtx)
    (name : string) :
  built s → blocks s !! p = Some b →
  ∃ bs, scope_chain s p (b :: bs) ∧ length bs ≤ p ∧
        find p name s =
          match first_binding name (b :: bs) with
          | Some sym => Ok (Some sym)
          | None => im ← file_imports (file b) s; Ok (SymPkg <$> im !! name)
          end.
Proof.
  intros Hbuilt Hb. apply built_parents_below in Hbuilt.
  destruct (parents_below_chain s Hbuilt p b Hb) as (bs & Hchain & Hlen).
  exists bs. split_and!; try done. by apply find_chain.
Qed.

(** ** The order of lowering *)

Lemma foldlM_use_used (gs : list loc) (s : state) :
  (∀ g, g ∈ gs → is_used s g) → foldlM use gs s = Ok s.
Proof.
  induction gs as [|g gs IH]; intros H; simpl; [done|].
  rewrite use_used by (apply H; left). simpl. apply IH. intros g' Hg'. apply H. by right.
Qed.

Lemma resolveFuncs_loop_lifo (l : list loc) (s : state) (fuel : nat) :
  usedfns s = l →
  (∀ f g, f ∈ l → g ∈ callees f → is_used s g) →
  length l < fuel →
  resolveFuncs_loop callees fuel s
  = Ok (set_compiled (compiled s ++ reverse l) (set_usedfns [] s)).
Proof.
  revert s fuel. induction l as [|f l IH] using rev_ind; intros s fuel Hl Hclosed Hfuel;
    (destruct fuel as [|fuel]; [lia|]); simpl; rewrite Hl.
  - simpl. rewrite app_nil_r. destruct s; simpl in *. by subst.
  - rewrite length_app. simpl. rewrite decide_False by lia.
    replace (length l + 1 - 1) with (length l) by lia.
    unfold index. rewrite list_lookup_middle by done. simpl.
    rewrite take_app_length. unfold compile.
    rewrite foldlM_use_used; cycle 1.
    { intros g Hg. apply (is_used_funcs_eq s); [done|].
      apply (Hclosed f g); [|done]. apply elem_of_app. right. by left. }
    simpl. rewrite IH; cycle 1.
    + done.
    + intros f' g Hf' Hg. apply (is_used_funcs_eq s); [done|].
      apply (Hclosed f' g); [|done]. apply elem_of_app. by left.
    + rewrite length_app in Hfuel. simpl in Hfuel. lia.
    + simpl. rewrite reverse_app. simpl. by rewrite <- (assoc_L (++)).
Qed.

(** X15. The worklist is a stack: when the bodies of the functions on it
    call only functions that are already marked, [resolveFuncs] lowers them
    from the last one marked to the first, each once, and leaves the
    worklist empty; the rest of the session is as it was. *)
Theorem resolveFuncs_last_in_first_out (s : state) :
  (∀ f g, f ∈ usedfns s → g ∈ callees f → is_used s g) →
  ∃ s', resolveFuncs callees s = Ok s' ∧
        usedfns s' = [] ∧ compiled s' = compiled s ++ reverse (usedfns s) ∧
        funcs s' = funcs s ∧ blocks s' = blocks s ∧ files s' = files s ∧
        types s' = types s ∧ NestDepth s' = NestDepth s.
Proof.
  intros Hclosed. eexists. split.
  - unfold resolveFuncs. apply (resolveFuncs_loop_lifo (usedfns s)); [done|done|].
    unfold sched_measure. lia.
  - done.
Qed.

(** ** Block scopes *)

(** X16. A scope opened by [newBlockCtx] for a file of the package starts
    empty under the package scope: a name resolves from it as the package
    scope binds it, or else as the file imports it.  Any name, bound outside
    or not, can be declared in it; the first variable gets slot 0, the name
    then resolves to this variable from the new scope, and the package
    scope resolves it as before. *)
Theorem block_scope_shadows (ctx g : loc) (fc : fileCtx) (bg : blockCtx) (s s1 : state)
    (q : loc) (name : string) (typ : rtype) :
  files s !! ctx = Some fc → fc_block fc = g →
  blocks s !! g = Some bg → parent bg = None →
  newBlockCtx ctx s = Ok (q, s1) →
  (∀ n, find q n s1 = match syms bg !! n with
                      | Some sym => Ok (Some sym)
                      | None => Ok (SymPkg <$> imports fc !! n)
                      end) ∧
  ∃ v s2, insertVar q name typ s1 = Ok (v, s2) ∧
          var_name v = name ∧ var_idx v = 0%Z ∧ var_depth v = NestDepth s ∧
          find q name s2 = Ok (Some (SymVar v)) ∧
          findVar q name s2 = Ok (inr v) ∧
          find g name s2 = find g name s.
Proof.
  intros Hfc Hg Hbg Hpar Hnew. split.
  { intros n. by eapply find_in_file_scope. }
  destruct (newBlockCtx_chain ctx g fc bg s Hfc Hg Hbg Hpar)
    as (s1' & Hnew' & Hfiles1 & _ & Hchain).
  rewrite Hnew' in Hnew. injection Hnew as <- <-.
  set (bq := {| file := Some ctx; parent := Some g; vlist := []; syms := ∅ |} : blockCtx)
    in *.
  assert (Hbq : blocks s1' !! length (blocks s) = Some bq).
  { by destruct (scope_chain_head _ _ _ Hchain) as (b' & bs' & [= <- <-] & ?). }
  assert (Hs1 : blocks s1' = blocks s ++ [bq] ∧ NestDepth s1' = NestDepth s).
  { unfold newBlockCtx in Hnew'. apply bind_Ok in Hnew' as (fc' & Hfc' & Hnew').
    apply deref_Ok in Hfc'. assert (fc' = fc) as -> by congruence.
    apply bind_Ok in Hnew' as (bg' & _ & Hnew'). injection Hnew' as <-.
    by rewrite Hg. }
  destruct Hs1 as [Hblocks1 Hdepth1].
  assert (Hex : exists_ (length (blocks s)) name s1' = Ok false).
  { unfold exists_. apply deref_Ok in Hbq. rewrite Hbq. simpl. by rewrite lookup_empty. }
  unfold insertVar. rewrite Hex. simpl. apply deref_Ok in Hbq as Hbq'. rewrite Hbq'. simpl.
  eexists _, _. split; [done|]. simpl.
  assert (Hfind : ∀ (v' : Var) (vl : list Var) (t : state),
             blocks t = <[length (blocks s) :=
                            {| file := Some ctx; parent := Some g; vlist := vl;
                               syms := <[name := SymVar v']> ∅ |}]> (blocks s1') →
             find (length (blocks s)) name t = Ok (Some (SymVar v'))).
  { intros v' vl t Ht. eapply find_own_binding.
    - rewrite Ht. apply list_lookup_insert_eq. by eapply lookup_lt_Some.
    - simpl. by rewrite lookup_insert_eq. }
  split_and!; try done.
  - by erewrite Hfind.
  - unfold findVar. by erewrite Hfind.
  - assert (Hne : g ≠ length (blocks s)).
    { apply lookup_lt_Some in Hbg. lia. }
    rewrite (find_global g bg name s) by done.
    erewrite (find_global g bg name); cycle 1.
    + simpl. rewrite list_lookup_insert_ne by done. rewrite Hblocks1.
      by apply lookup_app_l_Some.
    + done.
    + destruct (syms bg !! name); [done|]. unfold file_imports. simpl.
      by rewrite Hfiles1.
Qed.

End Properties.

(** * Witnesses *)

(** C1 on the mutually recursive pair of [Demo.sched0], [f] marked twice
    by the caller. *)
Lemma resolveFuncs_lowers_marked_once_witness :
  fresh_sched Demo.sched0 ∧
  call_graph_closed Demo.callees Demo.sched0 ∧
  (∀ f, f ∈ [0; 0] → f < length (funcs Demo.sched0)) ∧
  ∃ s1 s2,
    foldlM use [0; 0] Demo.sched0 = Ok s1 ∧
    resolveFuncs Demo.callees s1 = Ok s2 ∧
    (∀ fuel, sched_measure s1 < fuel → resolveFuncs_loop Demo.callees fuel s1 = Ok s2) ∧
    usedfns s2 = [] ∧
    (∀ f, f ∈ [0; 0] → times_compiled s2 f = 1) ∧
    (∀ g f, g ∈ compiled s2 → f ∈ Demo.callees g → times_compiled s2 f = 1) ∧
    (∀ f, f ∈ compiled s2 → f ∈ [0; 0] ∨ ∃ g, g ∈ compiled s2 ∧ f ∈ Demo.callees g) ∧
    (∀ f, times_compiled s2 f ≤ 1).
Proof.
  assert (Hfresh : fresh_sched Demo.sched0).
  { split; [reflexivity|]. split; [reflexivity|].
    intros [|[|[|f]]] fd H; simpl in H; try discriminate H;
      injection H as <-; reflexivity. }
  assert (Hclosed : call_graph_closed Demo.callees Demo.sched0).
  { intros [|[|f]] g Hf Hg; simpl in *.
    - apply elem_of_cons in Hg as [->|Hg]; [lia|].
      apply list_elem_of_singleton in Hg as ->. lia.
    - apply list_elem_of_singleton in Hg as ->. lia.
    - by apply elem_of_nil in Hg. }
  assert (Hvalid : ∀ f, f ∈ [0; 0] → f < length (funcs Demo.sched0)).
  { intros f Hf. apply elem_of_cons in Hf as [->|Hf]; [simpl; lia|].
    apply list_elem_of_singleton in Hf as ->. simpl. lia. }
  split; [exact Hfresh|]. split; [exact Hclosed|]. split; [exact Hvalid|].
  exact (resolveFuncs_lowers_marked_once Demo.callees Demo.sched0 [0; 0]
           Hfresh Hclosed Hvalid).
Defined.

(** C2 on the function [g] of [Demo.sched0], marked three times. *)
Lemma use_appends_once_witness :
  funcs Demo.sched0 !! 1 = Some (Demo.fn "g") ∧ used (Demo.fn "g") = false ∧ 1 ≤ 3 ∧
  ∃ s',
    iterM 3 (use 1) Demo.sched0 = Ok s' ∧
    use 1 Demo.sched0 = Ok s' ∧
    usedfns s' = usedfns Demo.sched0 ++ [1] ∧
    is_used s' 1 ∧
    use 1 s' = Ok s' ∧
    (∀ (ops : list (@op unit unit unit recvInfo string unit unit)) s'',
        foldlM (run_op Demo.ToRecv Demo.ToString Demo.path_Base Demo.callees) ops s' = Ok s'' →
        is_used s'' 1 ∧ use 1 s'' = Ok s'').
Proof.
  split; [reflexivity|]. split; [reflexivity|]. split; [lia|].
  apply (use_appends_once Demo.ToRecv Demo.ToString Demo.path_Base Demo.callees
           Demo.sched0 1 (Demo.fn "g") 3); [reflexivity|reflexivity|lia].
Defined.

(** C3 on the three nested scopes of [Demo.scopes]: from the innermost
    block [x] is the variable of the function scope, which hides the
    function [x] of the package scope. *)
Lemma find_innermost_first_witness :
  scope_chain Demo.scopes 2 [Demo.b_inner; Demo.b_func; Demo.b_global] ∧
  find 2 "x" Demo.scopes = Ok (Some (SymVar Demo.vx)) ∧
  (Forall (unbound "fmt") [Demo.b_inner; Demo.b_func; Demo.b_global] ∧
   ∃ b0, blocks Demo.scopes !! 2 = Some b0 ∧
         head [Demo.b_inner; Demo.b_func; Demo.b_global] = Some b0 ∧
         find 2 "fmt" Demo.scopes
         = (im ← file_imports (file b0) Demo.scopes; Ok (SymPkg <$> im !! "fmt"))).
Proof.
  assert (Hchain : scope_chain Demo.scopes 2 [Demo.b_inner; Demo.b_func; Demo.b_global]).
  { eapply chain_nested; [reflexivity|reflexivity|].
    eapply chain_nested; [reflexivity|reflexivity|].
    apply chain_global; reflexivity. }
  assert (Hfmt : Forall (unbound "fmt") [Demo.b_inner; Demo.b_func; Demo.b_global]).
  { repeat constructor. }
  split; [exact Hchain|]. split.
  - apply (proj1 (find_innermost_first Demo.scopes 2 _ "x" Hchain)
             [Demo.b_inner] Demo.b_func [Demo.b_global]).
    + reflexivity.
    + repeat constructor.
    + reflexivity.
  - split; [exact Hfmt|].
    exact (proj2 (find_innermost_first Demo.scopes 2 _ "fmt" Hchain) Hfmt).
Defined.

(** C4 on [Demo.fileA] (which imports [fmt] and declares [f]) followed by
    [Demo.fileB]: [fmt] is found while [fileA] is current and not
    afterwards; [f] is found afterwards. *)
Lemma imports_per_file_declarations_per_package_witness :
  blocks Demo.session0 !! 0
  = Some {| file := None; parent := None; vlist := []; syms := ∅ |} ∧
  Demo.loadFile 0 Demo.fileA Demo.session0 = Ok Demo.sA ∧
  Demo.loadFile 0 Demo.fileB Demo.sA = Ok Demo.sAB ∧
  (find 0 "fmt" Demo.sA = Ok (Some (SymPkg "fmt")) ∧
   find 0 "fmt" Demo.sAB = Ok None ∧
   (∀ blk s3, newBlockCtx (length (files Demo.sA)) Demo.sAB = Ok (blk, s3) →
              find blk "fmt" s3 = Ok None) ∧
   (∀ blk s3, newBlockCtx (length (files Demo.session0)) Demo.sAB = Ok (blk, s3) →
              find blk "fmt" s3 = Ok (Some (SymPkg "fmt")))) ∧
  (∃ fn fdecl,
      funcs Demo.sAB !! fn = Some fdecl ∧ fn_file fdecl = length (files Demo.session0) ∧
      find 0 "f" Demo.sAB = Ok (Some (SymFunc fn)) ∧
      findFunc 0 "f" Demo.sAB = Ok (inr fn) ∧
      ∀ blk s3, newBlockCtx (length (files Demo.sA)) Demo.sAB = Ok (blk, s3) →
                find blk "f" s3 = Ok (Some (SymFunc fn))).
Proof.
  assert (Hg : blocks Demo.session0 !! 0
               = Some {| file := None; parent := None; vlist := []; syms := ∅ |})
    by reflexivity.
  assert (HA : Demo.loadFile 0 Demo.fileA Demo.session0 = Ok Demo.sA)
    by (vm_compute; reflexivity).
  assert (HB : Demo.loadFile 0 Demo.fileB Demo.sA = Ok Demo.sAB)
    by (vm_compute; reflexivity).
  destruct (imports_per_file_declarations_per_package
              Demo.ToRecv Demo.ToString Demo.path_Base
              Demo.session0 Demo.sA Demo.sAB 0 _ Demo.fileA Demo.fileB
              Hg eq_refl HA HB) as (Hiso & _ & Hshare).
  split; [exact Hg|]. split; [exact HA|]. split; [exact HB|]. split.
  - eapply (Hiso "fmt" "fmt");
      [vm_compute; reflexivity|vm_compute; reflexivity|vm_compute; reflexivity|
        vm_compute; reflexivity].
  - apply (Hshare {| fd_Recv := None; fd_Name := "f"; fd_Type := tt; fd_Body := tt |});
      [|reflexivity].
    apply list_elem_of_lookup. exists 1. reflexivity.
Defined.

(** C6 on [Demo.pkg_no_main], an executable package without [main]. *)
Lemma NewPackage_error_returns_empty_witness :
  Demo.NewPackage 0 Demo.pkg_no_main = Ok (emptyPackage, Some ErrMainFuncNotFound) ∧
  @emptyPackage unit = emptyPackage.
Proof.
  assert (H : Demo.NewPackage 0 Demo.pkg_no_main
              = Ok (emptyPackage, Some ErrMainFuncNotFound)) by (vm_compute; reflexivity).
  split; [exact H|].
  exact (NewPackage_error_returns_empty Demo.ToRecv Demo.ToString Demo.path_Base
           Demo.callees 0 Demo.pkg_no_main emptyPackage ErrMainFuncNotFound H).
Defined.

(** C7 on the package scope of [Demo.sA] and the method [m] of a type [T]
    that has not been declared: the placeholder is created, and the same
    method cannot be declared again. *)
Lemma insertMethod_cases_witness :
  ∃ b s',
    blocks Demo.sA !! 0 = Some b ∧ parent b = None ∧
    find 0 "T" Demo.sA = Ok None ∧
    insertMethod 0 "T" "m" Demo.method_m Demo.sA = Ok s' ∧
    find 0 "T" s' = Ok (Some (SymType (length (types Demo.sA)))) ∧
    types s' !! length (types Demo.sA)
    = Some {| Alias := false; Methods := Some {["m" := Demo.method_m]} |} ∧
    (∀ m', insertMethod 0 "T" "m" m' s'
           = Panic (LogPanic "insertMethod failed: method exists -")).
Proof.
  assert (Hb : blocks Demo.sA !! 0
               = Some {| file := Some 0; parent := None; vlist := [];
                         syms := <["f" := SymFunc 0]> ∅ |}) by (vm_compute; reflexivity).
  assert (Hfind : find 0 "T" Demo.sA = Ok None) by (vm_compute; reflexivity).
  destruct (insertMethod_cases Demo.sA 0 _ "T" "m" Demo.method_m Hb eq_refl)
    as (Hnew & _ & _ & Htwice).
  destruct (Hnew Hfind) as (s' & Hins & Hfind' & Htypes & _).
  eexists. exists s'. split; [exact Hb|]. split; [reflexivity|]. split; [exact Hfind|].
  split; [exact Hins|]. split; [exact Hfind'|]. split; [exact Htypes|].
  exact (Htwice s' Hins).
Defined.

(** C8 on the package scope of [Demo.sA]: a variable declared at depth 0,
    then the backend moves to depth 3 and a function is declared, then a
    second variable. *)
Lemma insertVar_slots_witness :
  ∃ s',
    Demo.declares 0 Demo.sA
      [(Demo.va, 0%Z); (Demo.vb, 3%Z)] s' ∧
    blocks Demo.sA !! 0
    = Some {| file := Some 0; parent := None; vlist := [];
              syms := <["f" := SymFunc 0]> ∅ |} ∧
    (∃ b', blocks s' !! 0 = Some b' ∧ vlist b' = [Demo.va; Demo.vb]) ∧
    (∀ i v d, [(Demo.va, 0%Z); (Demo.vb, 3%Z)] !! i = Some (v, d) →
              var_idx v = uint32 (Z.of_nat i) ∧ var_depth v = d ∧
              ((Z.of_nat i < 2 ^ 32)%Z → var_idx v = Z.of_nat i)).
Proof.
  assert (Hb : blocks Demo.sA !! 0
               = Some {| file := Some 0; parent := None; vlist := [];
                         syms := <["f" := SymFunc 0]> ∅ |}) by (vm_compute; reflexivity).
  set (s1 := Demo.after (r ← insertVar 0 "a" tt Demo.sA; Ok r.2)).
  set (s2 := Demo.after (Demo.run_op
                           (OpSetNestDepth 3%Z) s1)).
  set (s3 := Demo.after (Demo.run_op
                           (OpInsertFunc 0 "k" 0) s2)).
  set (s4 := Demo.after (r ← insertVar 0 "b" tt s3; Ok r.2)).
  assert (Hd : Demo.declares 0 Demo.sA
                 [(Demo.va, 0%Z); (Demo.vb, 3%Z)] s4).
  { apply (declares_var _ _ _ _ 0 Demo.sA [(Demo.va, 0%Z)] s3 "b" tt Demo.vb s4);
      [|vm_compute; reflexivity].
    apply (declares_other _ _ _ _ 0 Demo.sA [(Demo.va, 0%Z)] s2 (OpInsertFunc 0 "k" 0) s3);
      [|discriminate|vm_compute; reflexivity].
    apply (declares_other _ _ _ _ 0 Demo.sA [(Demo.va, 0%Z)] s1 (OpSetNestDepth 3%Z) s2);
      [|discriminate|vm_compute; reflexivity].
    apply (declares_var _ _ _ _ 0 Demo.sA [] Demo.sA "a" tt Demo.va s1);
      [|vm_compute; reflexivity].
    apply declares_none. }
  exists s4. split; [exact Hd|]. split; [exact Hb|].
  exact (insertVar_slots Demo.ToRecv Demo.ToString Demo.path_Base Demo.callees
           0 Demo.sA s4 _ _ Hd Hb eq_refl).
Defined.

(** C9 on the package scope of [Demo.sA]: after [k] has been declared as a
    function, it exists and cannot be declared again. *)
Lemma redeclaration_fails_witness :
  ∃ s',
    insertFunc 0 "k" 0 Demo.sA = Ok s' ∧
    exists_ 0 "k" s' = Ok true ∧
    (∀ typ, insertVar 0 "k" typ s' = Panic (LogPanic "insertVar failed: symbol exists -")) ∧
    (∀ fn, insertFunc 0 "k" fn s' = Panic (LogPanic "insertFunc failed: symbol exists -")) ∧
    (∀ t : @state unit unit unit, exists_ 0 "k" t = Ok true →
       (∀ typ, insertVar 0 "k" typ t = Panic (LogPanic "insertVar failed: symbol exists -")) ∧
       (∀ fn, insertFunc 0 "k" fn t = Panic (LogPanic "insertFunc failed: symbol exists -"))).
Proof.
  set (s' := Demo.after (insertFunc 0 "k" 0 Demo.sA)).
  assert (H : insertFunc 0 "k" 0 Demo.sA = Ok s') by (vm_compute; reflexivity).
  exists s'. split; [exact H|].
  apply (redeclaration_fails Demo.sA s' 0 "k"). right. exists 0. exact H.
Defined.

(** C10 on [Demo.pkg_import_main], whose only file imports a package under
    the name [main] and declares nothing. *)
Lemma import_only_name_is_kind_mismatch_witness :
  Demo.load_package 0 Demo.pkg_import_main = Ok Demo.s_import_main ∧
  find 0 "main" Demo.s_import_main = Ok (Some (SymPkg "main")) ∧
  findFunc 0 "main" Demo.s_import_main = Ok (inl ErrSymbolNotFunc) ∧
  findVar 0 "main" Demo.s_import_main = Ok (inl ErrSymbolNotVariable) ∧
  findType 0 "main" Demo.s_import_main = Ok (inl ErrSymbolNotType) ∧
  Demo.NewPackage 0 Demo.pkg_import_main = Ok (emptyPackage, Some ErrSymbolNotFunc).
Proof.
  assert (Hload : Demo.load_package 0 Demo.pkg_import_main = Ok Demo.s_import_main)
    by (vm_compute; reflexivity).
  set (b0 := {| file := Some 0; parent := None; vlist := []; syms := ∅ |} : @blockCtx unit).
  assert (Hb0 : blocks Demo.s_import_main !! 0 = Some b0) by (vm_compute; reflexivity).
  assert (Hfc : files Demo.s_import_main !! 0
                = Some {| fc_block := 0; imports := <["main" := "main"]> ∅ |})
    by (vm_compute; reflexivity).
  destruct (@import_only_name_is_kind_mismatch unit unit unit recvInfo string unit unit
              Demo.ToRecv Demo.ToString Demo.path_Base Demo.callees
              Demo.s_import_main 0 [b0] "main" b0 0
              {| fc_block := 0; imports := <["main" := "main"]> ∅ |} "main")
    as (Hfind & Hfunc & Hvar & Htype & Hpkg).
  - by apply chain_global.
  - repeat constructor.
  - exact Hb0.
  - reflexivity.
  - exact Hfc.
  - reflexivity.
  - split; [exact Hload|]. split; [exact Hfind|]. split; [exact Hfunc|].
    split; [exact Hvar|]. split; [exact Htype|].
    exact (Hpkg 0%Z Demo.pkg_import_main eq_refl Hload eq_refl eq_refl).
Defined.

(** * Witnesses of the further properties *)

(** X1 on [Demo.sched0]: [g], [f] and [g] again are marked. *)
Lemma use_all_appends_first_marks_witness :
  ∃ s', foldlM use [1; 0; 1] Demo.sched0 = Ok s' ∧
        usedfns s' = usedfns Demo.sched0 ++ mark_order [] [1; 0; 1] ∧
        NoDup (mark_order [] [1; 0; 1]) ∧
        (∀ f, f ∈ mark_order [] [1; 0; 1] ↔ f ∈ [1; 0; 1]) ∧
        mark_order [] [1; 0; 1] `sublist_of` [1; 0; 1] ∧
        (∀ f, is_used s' f ↔ f ∈ [1; 0; 1]).
Proof.
  apply (use_all_appends_first_marks Demo.sched0 [1; 0; 1]).
  - intros f Hf. simpl.
    apply elem_of_cons in Hf as [->|Hf]; [lia|].
    apply elem_of_cons in Hf as [->|Hf]; [lia|].
    apply list_elem_of_singleton in Hf as ->. lia.
  - intros [|[|[|f]]] fd H; simpl in H; try discriminate H;
      injection H as <-; reflexivity.
Defined.

(** X2 on the package scope of [Demo.sA] and the name [k]. *)
Lemma declaration_succeeds_iff_witness :
  blocks Demo.sA !! 0
  = Some {| file := Some 0; parent := None; vlist := []; syms := <["f" := SymFunc 0]> ∅ |} ∧
  (∀ typ, (∃ v s', insertVar 0 "k" typ Demo.sA = Ok (v, s')) ↔
          can_declare Demo.sA
            {| file := Some 0; parent := None; vlist := [];
               syms := <["f" := SymFunc 0]> ∅ |} "k") ∧
  (∀ fn, (∃ s', insertFunc 0 "k" fn Demo.sA = Ok s') ↔
         can_declare Demo.sA
           {| file := Some 0; parent := None; vlist := [];
              syms := <["f" := SymFunc 0]> ∅ |} "k").
Proof.
  assert (Hb : blocks Demo.sA !! 0
               = Some {| file := Some 0; parent := None; vlist := [];
                         syms := <["f" := SymFunc 0]> ∅ |}) by (vm_compute; reflexivity).
  split; [exact Hb|].
  exact (declaration_succeeds_iff Demo.sA 0 _ "k" Hb).
Defined.

(** X3 on the function [k] declared in the package scope of [Demo.sA]. *)
Lemma declared_symbol_resolves_witness :
  declared 0 "k" (SymFunc 0) Demo.sA Demo.sA_k ∧
  find 0 "k" Demo.sA_k = Ok (Some (SymFunc 0)) ∧
  exists_ 0 "k" Demo.sA_k = Ok true ∧
  findVar 0 "k" Demo.sA_k = Ok (inl ErrSymbolNotVariable) ∧
  findFunc 0 "k" Demo.sA_k = Ok (inr 0) ∧
  findType 0 "k" Demo.sA_k = Ok (inl ErrSymbolNotType).
Proof.
  assert (H : declared 0 "k" (SymFunc 0) Demo.sA Demo.sA_k).
  { right. exists 0. split; [reflexivity|]. vm_compute. reflexivity. }
  split; [exact H|].
  exact (declared_symbol_resolves Demo.sA Demo.sA_k 0 "k" (SymFunc 0) H).
Defined.

(** X4 on the same declaration: [f] and [fmt] resolve as before. *)
Lemma declaration_keeps_other_names_witness :
  declared 0 "k" (SymFunc 0) Demo.sA Demo.sA_k ∧
  (find 0 "f" Demo.sA_k = find 0 "f" Demo.sA ∧
   exists_ 0 "f" Demo.sA_k = exists_ 0 "f" Demo.sA) ∧
  (find 0 "fmt" Demo.sA_k = find 0 "fmt" Demo.sA ∧
   exists_ 0 "fmt" Demo.sA_k = exists_ 0 "fmt" Demo.sA).
Proof.
  assert (H : declared 0 "k" (SymFunc 0) Demo.sA Demo.sA_k).
  { right. exists 0. split; [reflexivity|]. vm_compute. reflexivity. }
  split; [exact H|]. split.
  - apply (declaration_keeps_other_names Demo.sA Demo.sA_k 0 "k" (SymFunc 0) H 0 "f").
    discriminate.
  - apply (declaration_keeps_other_names Demo.sA Demo.sA_k 0 "k" (SymFunc 0) H 0 "fmt").
    discriminate.
Defined.

(** X5 on the package scope of [Demo.sA]: the variables [a] and [b], with
    a change of depth in between. *)
Lemma scope_variables_distinct_and_bound_witness :
  ∃ s',
    Demo.declares 0 Demo.sA [(Demo.va, 0%Z); (Demo.vb, 3%Z)] s' ∧
    NoDup (var_name <$> [(Demo.va, 0%Z); (Demo.vb, 3%Z)].*1) ∧
    (∀ v, v ∈ [(Demo.va, 0%Z); (Demo.vb, 3%Z)].*1 →
          find 0 (var_name v) s' = Ok (Some (SymVar v)) ∧
          findVar 0 (var_name v) s' = Ok (inr v)).
Proof.
  assert (Hb : blocks Demo.sA !! 0
               = Some {| file := Some 0; parent := None; vlist := [];
                         syms := <["f" := SymFunc 0]> ∅ |}) by (vm_compute; reflexivity).
  set (s1 := Demo.after (r ← insertVar 0 "a" tt Demo.sA; Ok r.2)).
  set (s2 := Demo.after (Demo.run_op (OpSetNestDepth 3%Z) s1)).
  set (s3 := Demo.after (r ← insertVar 0 "b" tt s2; Ok r.2)).
  assert (Hd : Demo.declares 0 Demo.sA [(Demo.va, 0%Z); (Demo.vb, 3%Z)] s3).
  { apply (declares_var _ _ _ _ 0 Demo.sA [(Demo.va, 0%Z)] s2 "b" tt Demo.vb s3);
      [|vm_compute; reflexivity].
    apply (declares_other _ _ _ _ 0 Demo.sA [(Demo.va, 0%Z)] s1 (OpSetNestDepth 3%Z) s2);
      [|discriminate|vm_compute; reflexivity].
    apply (declares_var _ _ _ _ 0 Demo.sA [] Demo.sA "a" tt Demo.va s1);
      [|vm_compute; reflexivity].
    apply declares_none. }
  exists s3. split; [exact Hd|].
  exact (scope_variables_distinct_and_bound Demo.ToRecv Demo.ToString Demo.path_Base
           Demo.callees 0 Demo.sA s3 _ _ Hd Hb eq_refl).
Defined.

(** X6 on the method [m] of the undeclared type [T], registered in the
    package scope of [Demo.sA]. *)
Lemma insertMethod_registers_witness :
  insertMethod 0 "T" "m" Demo.method_m Demo.sA = Ok Demo.sA_m ∧
  ∃ t td ms,
    findType 0 "T" Demo.sA_m = Ok (inr t) ∧
    types Demo.sA_m !! t = Some td ∧ Alias td = false ∧
    Methods td = Some ms ∧ ms !! "m" = Some Demo.method_m ∧
    (∀ td0 ms0 mn0 m0, types Demo.sA !! t = Some td0 → Methods td0 = Some ms0 →
                       ms0 !! mn0 = Some m0 → ms !! mn0 = Some m0) ∧
    (∀ t', t' ≠ t → t' < length (types Demo.sA) →
           types Demo.sA_m !! t' = types Demo.sA !! t').
Proof.
  assert (H : insertMethod 0 "T" "m" Demo.method_m Demo.sA = Ok Demo.sA_m)
    by (vm_compute; reflexivity).
  split; [exact H|].
  exact (insertMethod_registers Demo.sA Demo.sA_m 0 "T" "m" Demo.method_m H).
Defined.

(** X7 on the package scope of [Demo.sA]: a method [m] of [T1] and a
    method [m] of [T2]. *)
Lemma same_method_name_on_two_types_witness :
  find 0 "T1" Demo.sA = Ok None ∧ find 0 "T2" Demo.sA = Ok None ∧
  ∃ s1 s2 t1 t2,
    insertMethod 0 "T1" "m" Demo.method_m Demo.sA = Ok s1 ∧
    insertMethod 0 "T2" "m" Demo.method_m s1 = Ok s2 ∧
    findType 0 "T1" s2 = Ok (inr t1) ∧ findType 0 "T2" s2 = Ok (inr t2) ∧ t1 ≠ t2 ∧
    types s2 !! t1 = Some {| Alias := false; Methods := Some {["m" := Demo.method_m]} |} ∧
    types s2 !! t2 = Some {| Alias := false; Methods := Some {["m" := Demo.method_m]} |}.
Proof.
  assert (Hb : blocks Demo.sA !! 0
               = Some {| file := Some 0; parent := None; vlist := [];
                         syms := <["f" := SymFunc 0]> ∅ |}) by (vm_compute; reflexivity).
  assert (H1 : find 0 "T1" Demo.sA = Ok None) by (vm_compute; reflexivity).
  assert (H2 : find 0 "T2" Demo.sA = Ok None) by (vm_compute; reflexivity).
  split; [exact H1|]. split; [exact H2|].
  apply (same_method_name_on_two_types Demo.sA 0 _ "T1" "T2" "m" Demo.method_m
           Demo.method_m Hb eq_refl); [discriminate|exact H1|exact H2].
Defined.

(** X8 on [Demo.fileA], loaded into the package scope. *)
Lemma loadFile_accepts_only_witness :
  Demo.loadFile 0 Demo.fileA Demo.session0 = Ok Demo.sA ∧
  Forall decl_accepted (Decls Demo.fileA).
Proof.
  assert (H : Demo.loadFile 0 Demo.fileA Demo.session0 = Ok Demo.sA)
    by (vm_compute; reflexivity).
  split; [exact H|].
  exact (loadFile_accepts_only Demo.ToRecv Demo.ToString Demo.path_Base
           0 Demo.fileA Demo.session0 Demo.sA H).
Defined.

(** X9 on [Demo.fileDup], which imports [fmt] and then [other] as [fmt]:
    [fmt] is the package [other]. *)
Lemma loadFile_imports_last_wins_witness :
  Demo.loadFile 0 Demo.fileDup Demo.session0 = Ok Demo.sDup ∧
  ∃ fc, files Demo.sDup !! 0 = Some fc ∧ imports fc !! "fmt" = Some "other" ∧
        imports fc !! "os" = None.
Proof.
  assert (H : Demo.loadFile 0 Demo.fileDup Demo.session0 = Ok Demo.sDup)
    by (vm_compute; reflexivity).
  split; [exact H|].
  destruct (loadFile_imports_last_wins Demo.ToRecv Demo.ToString Demo.path_Base
              0 Demo.fileDup Demo.session0 Demo.sDup H)
    as (b' & fc & _ & _ & Hfc & _ & Hnone & Hlast).
  exists fc. split; [exact Hfc|]. split.
  - apply (Hlast [("fmt", "fmt")] "fmt" "other" []); [reflexivity|].
    apply not_elem_of_nil.
  - apply Hnone. vm_compute. intros Hin.
    apply elem_of_cons in Hin as [Hin|Hin]; [discriminate Hin|].
    apply list_elem_of_singleton in Hin. discriminate Hin.
Defined.

(** X10 on the library package [Demo.pkg_lib]. *)
Lemma loaded_names_distinct_witness :
  Demo.load_package 0 Demo.pkg_lib = Ok Demo.s_lib ∧
  NoDup (files_func_names (pkg_Files Demo.pkg_lib)) ∧
  NoDup (files_methods Demo.ToRecv 0 (pkg_Files Demo.pkg_lib)).*1.
Proof.
  assert (H : Demo.load_package 0 Demo.pkg_lib = Ok Demo.s_lib)
    by (vm_compute; reflexivity).
  split; [exact H|].
  destruct (loaded_names_distinct Demo.ToRecv Demo.ToString Demo.path_Base
              0%Z Demo.pkg_lib Demo.s_lib H) as (HF & HM & _).
  split; [exact HF|exact HM].
Defined.

(** X11 on [Demo.pkg_lib]: [g], of the second file, and the method [n] of
    [T]. *)
Lemma loaded_declarations_resolve_witness :
  Demo.load_package 0 Demo.pkg_lib = Ok Demo.s_lib ∧
  (∃ fn, findFunc 0 "g" Demo.s_lib = Ok (inr fn)) ∧
  (∃ ty, findType 0 "T" Demo.s_lib = Ok (inr ty) ∧
         method_of Demo.s_lib ty "n"
           {| recv := "x"; pointer := false; m_typ := tt; m_body := tt; m_file := 1 |}).
Proof.
  assert (H : Demo.load_package 0 Demo.pkg_lib = Ok Demo.s_lib)
    by (vm_compute; reflexivity).
  split; [exact H|].
  destruct (loaded_declarations_resolve Demo.ToRecv Demo.ToString Demo.path_Base
              0%Z Demo.pkg_lib Demo.s_lib H) as (HF & HM).
  split.
  - apply (HF "g"). apply list_elem_of_lookup. exists 1. reflexivity.
  - apply (HM "T" "n"). apply list_elem_of_lookup. exists 1. reflexivity.
Defined.

(** X12 on [Demo.pkg_lib]. *)
Lemma NewPackage_of_library_witness :
  Demo.load_package 0 Demo.pkg_lib = Ok Demo.s_lib ∧
  ∃ tbl : gmap string (@iSymbol unit),
    NewPackage_session Demo.ToRecv Demo.ToString Demo.path_Base Demo.callees
      0 Demo.pkg_lib
    = Ok ({| pk_vlist := []; pk_syms := Some tbl |}, None, Demo.s_lib) ∧
    usedfns Demo.s_lib = [] ∧ compiled Demo.s_lib = [] ∧
    (∀ f, ¬ is_used Demo.s_lib f) ∧
    (∀ n, n ∈ files_func_names (pkg_Files Demo.pkg_lib) →
          ∃ fn, tbl !! n = Some (SymFunc fn)) ∧
    (∀ n, n ∈ (files_methods Demo.ToRecv 0 (pkg_Files Demo.pkg_lib)).*1.*1 →
          ∃ ty, tbl !! n = Some (SymType ty)) ∧
    (∀ n sym, tbl !! n = Some sym →
              (n ∈ files_func_names (pkg_Files Demo.pkg_lib) ∧ ∃ fn, sym = SymFunc fn) ∨
              (n ∈ (files_methods Demo.ToRecv 0 (pkg_Files Demo.pkg_lib)).*1.*1 ∧
               ∃ ty, sym = SymType ty)).
Proof.
  assert (H : Demo.load_package 0 Demo.pkg_lib = Ok Demo.s_lib)
    by (vm_compute; reflexivity).
  split; [exact H|].
  apply (NewPackage_of_library Demo.ToRecv Demo.ToString Demo.path_Base Demo.callees
           0%Z Demo.pkg_lib Demo.s_lib); [discriminate|exact H].
Defined.

(** X13 on [Demo.pkg_no_main]. *)
Lemma NewPackage_error_cases_witness :
  Demo.NewPackage 0 Demo.pkg_no_main = Ok (emptyPackage, Some ErrMainFuncNotFound) ∧
  pkg_Name Demo.pkg_no_main = "main" ∧
  ∃ s1, Demo.load_package 0 Demo.pkg_no_main = Ok s1 ∧
        ((ErrMainFuncNotFound = ErrMainFuncNotFound ∧ find 0 "main" s1 = Ok None) ∨
         (ErrMainFuncNotFound = ErrSymbolNotFunc ∧
          ∃ sym, find 0 "main" s1 = Ok (Some sym) ∧
                 ((∃ ty, sym = SymType ty ∧
                         "main" ∈ (files_methods Demo.ToRecv 0
                                     (pkg_Files Demo.pkg_no_main)).*1.*1) ∨
                  (∃ path, sym = SymPkg path)))).
Proof.
  assert (H : Demo.NewPackage 0 Demo.pkg_no_main
              = Ok (emptyPackage, Some ErrMainFuncNotFound)) by (vm_compute; reflexivity).
  split; [exact H|].
  exact (NewPackage_error_cases Demo.ToRecv Demo.ToString Demo.path_Base Demo.callees
           0%Z Demo.pkg_no_main emptyPackage ErrMainFuncNotFound H).
Defined.

(** X14 on [Demo.s_nested]: the block scope opened for [fileB] after both
    files have been loaded resolves [f], declared by [fileA]. *)
Lemma find_returns_in_built_session_witness :
  Demo.built Demo.s_nested ∧
  blocks Demo.s_nested !! 1
  = Some {| file := Some 1; parent := Some 0; vlist := []; syms := ∅ |} ∧
  ∃ bs, scope_chain Demo.s_nested 1
          ({| file := Some 1; parent := Some 0; vlist := []; syms := ∅ |} :: bs) ∧
        length bs ≤ 1 ∧
        find 1 "f" Demo.s_nested =
          match first_binding "f"
                  ({| file := Some 1; parent := Some 0; vlist := []; syms := ∅ |} :: bs) with
          | Some sym => Ok (Some sym)
          | None => im ← file_imports (Some 1) Demo.s_nested; Ok (SymPkg <$> im !! "f")
          end.
Proof.
  assert (Hbuilt : Demo.built Demo.s_nested).
  { apply (built_op _ _ _ _ Demo.sAB (OpNewBlockCtx 1)); [|discriminate|vm_compute; reflexivity].
    apply (built_op _ _ _ _ Demo.sA (OpLoadFile 0 Demo.fileB));
      [|discriminate|vm_compute; reflexivity].
    apply (built_op _ _ _ _ Demo.session0 (OpLoadFile 0 Demo.fileA));
      [|discriminate|vm_compute; reflexivity].
    apply (built_op _ _ _ _ (init_state 0) (OpNewGblBlockCtx None));
      [|discriminate|vm_compute; reflexivity].
    apply built_init. }
  assert (Hb : blocks Demo.s_nested !! 1
               = Some {| file := Some 1; parent := Some 0; vlist := []; syms := ∅ |})
    by (vm_compute; reflexivity).
  split; [exact Hbuilt|]. split; [exact Hb|].
  exact (find_returns_in_built_session Demo.ToRecv Demo.ToString Demo.path_Base
           Demo.callees Demo.s_nested 1 _ "f" Hbuilt Hb).
Defined.

(** X15 on [Demo.sched_marked]: [f] and [g] call only each other, and both
    are marked; [g], marked last, is lowered first. *)
Lemma resolveFuncs_last_in_first_out_witness :
  usedfns Demo.sched_marked = [0; 1] ∧
  ∃ s', resolveFuncs Demo.callees Demo.sched_marked = Ok s' ∧
        usedfns s' = [] ∧
        compiled s' = compiled Demo.sched_marked ++ reverse (usedfns Demo.sched_marked) ∧
        funcs s' = funcs Demo.sched_marked ∧ blocks s' = blocks Demo.sched_marked ∧
        files s' = files Demo.sched_marked ∧ types s' = types Demo.sched_marked ∧
        NestDepth s' = NestDepth Demo.sched_marked.
Proof.
  split; [vm_compute; reflexivity|].
  apply (resolveFuncs_last_in_first_out Demo.callees Demo.sched_marked).
  assert (H0 : is_used Demo.sched_marked 0) by (eexists; split; vm_compute; reflexivity).
  assert (H1 : is_used Demo.sched_marked 1) by (eexists; split; vm_compute; reflexivity).
  intros [|[|f]] g _ Hg; simpl in Hg.
  - apply elem_of_cons in Hg as [->|Hg]; [exact H1|].
    apply list_elem_of_singleton in Hg as ->. exact H1.
  - apply list_elem_of_singleton in Hg as ->. exact H0.
  - by apply elem_of_nil in Hg.
Defined.

(** X16 on a block scope opened for [fileA] in [Demo.sA]: the variable [f]
    hides the function [f] of the package. *)
Lemma block_scope_shadows_witness :
  ∃ s1,
    newBlockCtx 0 Demo.sA = Ok (1, s1) ∧
    find 1 "f" s1 = Ok (Some (SymFunc 0)) ∧
    find 1 "fmt" s1 = Ok (Some (SymPkg "fmt")) ∧
    ∃ v s2, insertVar 1 "f" tt s1 = Ok (v, s2) ∧
            var_name v = "f" ∧ var_idx v = 0%Z ∧ var_depth v = NestDepth Demo.sA ∧
            find 1 "f" s2 = Ok (Some (SymVar v)) ∧
            findVar 1 "f" s2 = Ok (inr v) ∧
            find 0 "f" s2 = find 0 "f" Demo.sA.
Proof.
  set (s1 := Demo.after (r ← newBlockCtx 0 Demo.sA; Ok r.2)).
  assert (Hnew : newBlockCtx 0 Demo.sA = Ok (1, s1)) by (vm_compute; reflexivity).
  destruct (block_scope_shadows 0 0 {| fc_block := 0; imports := <["fmt" := "fmt"]> ∅ |}
              {| file := Some 0; parent := None; vlist := [];
                 syms := <["f" := SymFunc 0]> ∅ |} Demo.sA s1 1 "f" tt)
    as (Hfind & Hdecl).
  - vm_compute. reflexivity.
  - reflexivity.
  - vm_compute. reflexivity.
  - reflexivity.
  - exact Hnew.
  - exists s1. split; [exact Hnew|]. split; [exact (Hfind "f")|].
    split; [exact (Hfind "fmt")|]. exact Hdecl.
Defined.

(** * Further runs of [NewPackage] *)

(** A top-level [var main] declares nothing (the loader of variables is a
    stub), so for [NewPackage] the entry point is absent. *)
Example NewPackage_var_main :
  Demo.NewPackage 0 Demo.pkg_var_main = Ok (emptyPackage, Some ErrMainFuncNotFound).
Proof. vm_compute. reflexivity. Qed.

(** A [main] that is the placeholder type of a method is not a function. *)
Example NewPackage_type_main :
  Demo.NewPackage 0 Demo.pkg_type_main = Ok (emptyPackage, Some ErrSymbolNotFunc).
Proof. vm_compute. reflexivity. Qed.

(** An executable package with [main]: no error, no global variable, and
    the symbol table of the package scope. *)
Example NewPackage_with_main :
  ∃ syms, Demo.NewPackage 0 Demo.pkg_main
          = Ok ({| pk_vlist := []; pk_syms := Some syms |}, None) ∧
          syms !! "main" = Some (SymFunc 0) ∧ syms !! "g" = Some (SymFunc 1) ∧
          syms !! "h" = Some (SymFunc 2).
Proof. eexists. split; [vm_compute; reflexivity|]. by vm_compute. Qed.
